(** * NodeEditor: the dataflow graph of the node-based image processor

    A shallow embedding of [src/NodeEditor.cpp]: the bookkeeping of nodes,
    pins and connections, and the recursive evaluation that feeds every
    node from its upstream producers.

    The pixel buffers are [cv::Mat] values: a header that either names a
    reference-counted buffer or is empty.  Two headers can name the same
    buffer, so the buffers live in a store and a header is an index into
    it; [clone] is the only operation of the editor that allocates. *)

From Stdlib Require Import ZArith List Lia Permutation.
From stdpp Require Import base decidable option list gmap sets strings relations.

(* ================================================================== *)
(** * Pixel buffers ([cv::Mat]) *)
(* ================================================================== *)

(** The pixels of one buffer. *)
Abbreviation Buf := (list Z).

(** The store of all buffers ever allocated.  Buffers are reference
    counted in the program, a buffer lives as long as a header names it;
    the store never reuses a location, so freeing is not represented. *)
Abbreviation Heap := (list Buf).

(** A [cv::Mat] header: [None] is the empty matrix, [Some l] names the
    buffer at location [l]. *)
Abbreviation Mat := (option nat).

(** [cv::Mat::empty()]. *)
Definition Mat_empty (m : Mat) : bool :=
  match m with
  | None => true
  | Some _ => false
  end.

(** [cv::Mat::release()]: the header lets go of its buffer. *)
Definition Mat_release (m : Mat) : Mat := None.

(** [cv::Mat::clone()]: a new buffer with the same pixels. *)
Definition Mat_clone (h : Heap) (m : Mat) : Mat * Heap :=
  match m with
  | None => (None, h)
  | Some l => (Some (length h), h ++ [default [] (h !! l)])
  end.

(** The pixels seen through a header. *)
Definition pixels (h : Heap) (m : Mat) : option Buf :=
  match m with
  | None => None
  | Some l => h !! l
  end.

(** Writing through a header changes the buffer it names, for every header
    that names it. *)
Definition Mat_write (h : Heap) (m : Mat) (b : Buf) : Heap :=
  match m with
  | None => h
  | Some l => <[l := b]> h
  end.

(* ================================================================== *)
(** * Data model *)
(* ================================================================== *)

Record Pin := mkPin {
  pin_id : Z;
  pin_name : string;
  pin_data : Mat;
  pin_connected : bool
}.

(** The enumerators that [createNode] switches on; [OtherType] stands for
    every other value of the enumeration's underlying type, which the
    switch sends to [default]. *)
Inductive NodeType :=
  | ImageInput
  | Output
  | BrightnessContrast
  | ColorChannelSplitter
  | Blur
  | Threshold
  | EdgeDetection
  | Blend
  | Noise
  | Convolution
  | OtherType (tag : Z).

(** [BaseNode]: the fields the editor reads and writes, the dynamic type
    of the object ([kind]) and the variant's own members ([params]). *)
Record BaseNode := mkNode {
  node_id : Z;
  node_name : string;
  inputs : list Pin;
  outputs : list Pin;
  dirty : bool;
  kind : NodeType;
  params : list Z
}.

Record Connection := mkConnection {
  inputNode : Z;
  outputNode : Z;
  inputPin : Z;
  outputPin : Z
}.

#[global] Instance Connection_eq_dec : EqDecision Connection.
Proof. solve_decision. Defined.

(** The editor.  A [BaseNode*] is the position of the node in [nodes];
    [store] is the memory the pins' headers point into. *)
Record NodeEditor := mkEditor {
  nodes : list BaseNode;
  connections : list Connection;
  currentId : Z;
  selectedNode : option nat;
  store : Heap
}.

(** The node classes included by the editor are not part of this file:
    their constructors and their [process()] override are taken as
    parameters.  [process] works on the node it is called on and on the
    buffer store. *)
Record NodeClasses := mkClasses {
  construct : NodeType → BaseNode;
  process : BaseNode → Heap → BaseNode * Heap
}.

(** ** Field updates *)

Definition pin_set_id (v : Z) (p : Pin) : Pin :=
  mkPin v (pin_name p) (pin_data p) (pin_connected p).

Definition pin_set_data (m : Mat) (p : Pin) : Pin :=
  mkPin (pin_id p) (pin_name p) m (pin_connected p).

Definition pin_set_connected (b : bool) (p : Pin) : Pin :=
  mkPin (pin_id p) (pin_name p) (pin_data p) b.

Definition node_set_id (v : Z) (n : BaseNode) : BaseNode :=
  mkNode v (node_name n) (inputs n) (outputs n) (dirty n) (kind n) (params n).

Definition node_set_inputs (ps : list Pin) (n : BaseNode) : BaseNode :=
  mkNode (node_id n) (node_name n) ps (outputs n) (dirty n) (kind n) (params n).

Definition node_set_outputs (ps : list Pin) (n : BaseNode) : BaseNode :=
  mkNode (node_id n) (node_name n) (inputs n) ps (dirty n) (kind n) (params n).

Definition node_set_dirty (b : bool) (n : BaseNode) : BaseNode :=
  mkNode (node_id n) (node_name n) (inputs n) (outputs n) b (kind n) (params n).

Definition set_nodes (ns : list BaseNode) (e : NodeEditor) : NodeEditor :=
  mkEditor ns (connections e) (currentId e) (selectedNode e) (store e).

Definition set_connections (cs : list Connection) (e : NodeEditor) : NodeEditor :=
  mkEditor (nodes e) cs (currentId e) (selectedNode e) (store e).

(* ================================================================== *)
(** * Lookups *)
(* ================================================================== *)

(** [findNodeById]: the first node with the id, or [nullptr]. *)
Definition findNodeById (ns : list BaseNode) (nodeId : Z) : option nat :=
  fst <$> list_find (λ node, node_id node = nodeId) ns.

(** [findPinIndex]: the first pin with the id; [None] is the source's -1. *)
Definition findPinIndex (pins : list Pin) (pinId : Z) : option nat :=
  fst <$> list_find (λ pin, pin_id pin = pinId) pins.

Definition has_pin (pinId : Z) (pins : list Pin) : Prop :=
  Exists (λ pin, pin_id pin = pinId) pins.

#[global] Instance has_pin_dec pinId pins : Decision (has_pin pinId pins).
Proof. unfold has_pin. apply _. Defined.

(** [findNodeByPin]: the first node that has the pin among its inputs
    ([isInput]) or among its outputs. *)
Definition findNodeByPin (ns : list BaseNode) (pinId : Z) (isInput : bool)
  : option nat :=
  fst <$> list_find
    (λ node, has_pin pinId (if isInput then inputs node else outputs node)) ns.

(** [isConnectionValid]: both node ids resolve. *)
Definition isConnectionValid (ns : list BaseNode) (conn : Connection) : Prop :=
  is_Some (findNodeById ns (inputNode conn)) ∧
  is_Some (findNodeById ns (outputNode conn)).

#[global] Instance isConnectionValid_dec ns conn :
  Decision (isConnectionValid ns conn).
Proof. unfold isConnectionValid. apply _. Defined.

(* ================================================================== *)
(** * Evaluation *)
(* ================================================================== *)

(** What a pass does, in order: the calls of [process()] and the buffers
    handed from an output pin to an input pin.  The trace is a ghost
    field: nothing below reads it. *)
Inductive Event :=
  | Processed (i : nat)
  | Copied (dst dstPin src srcPin : nat).

#[global] Instance Event_eq_dec : EqDecision Event.
Proof. solve_decision. Defined.

(** The state of one pass: the nodes, the buffer store, the local
    [processed] set of [processGraph] and the trace. *)
Record Pass := mkPass {
  p_nodes : list BaseNode;
  p_store : Heap;
  p_processed : gset nat;
  p_trace : list Event
}.

(** A loop whose body can fail to return. *)
Fixpoint forEach {A : Type} (body : A → Pass → option Pass)
    (xs : list A) (p : Pass) : option Pass :=
  match xs with
  | [] => Some p
  | x :: rest =>
      match body x p with
      | Some p' => forEach body rest p'
      | None => None
      end
  end.

(** [node->inputs[k].data = m]. *)
Definition node_set_input (k : nat) (m : Mat) (n : BaseNode) : BaseNode :=
  node_set_inputs (alter (pin_set_data m) k (inputs n)) n.

(** Lines 226-236 of [processNode]: resolve the two pins of [conn] and,
    when the upstream buffer is not empty, give the input pin of node [i]
    a clone of the output pin of node [j]. *)
Definition copyPin (conn : Connection) (i j : nat) (p : Pass) : Pass :=
  match p_nodes p !! j, p_nodes p !! i with
  | Some outNode, Some node =>
      match findPinIndex (outputs outNode) (outputPin conn),
            findPinIndex (inputs node) (inputPin conn) with
      | Some outputPinIdx, Some inputPinIdx =>
          match outputs outNode !! outputPinIdx with
          | Some src =>
              if Mat_empty (pin_data src) then p
              else
                let (m, h') := Mat_clone (p_store p) (pin_data src) in
                mkPass (<[i := node_set_input inputPinIdx m node]> (p_nodes p))
                       h' (p_processed p)
                       (p_trace p ++ [Copied i inputPinIdx j outputPinIdx])
          | None => p
          end
      | _, _ => p
      end
  | _, _ => p
  end.

(** The body of the loop over the connections in [processNode], for the
    node at position [i]; [rec] is the recursive call. *)
Definition dependency (rec : nat → Pass → option Pass) (i : nat)
    (conn : Connection) (p : Pass) : option Pass :=
  match p_nodes p !! i with
  | Some node =>
      if decide (inputNode conn = node_id node) then
        match findNodeById (p_nodes p) (outputNode conn) with
        | Some j =>
            match rec j p with
            | Some p1 => Some (copyPin conn i j p1)
            | None => None
            end
        | None => Some p
        end
      else Some p
  | None => Some p
  end.

(** [node->process(); processed.insert(node);]. *)
Definition invoke (K : NodeClasses) (i : nat) (p : Pass) : Pass :=
  match p_nodes p !! i with
  | Some node =>
      let (node', h') := process K node (p_store p) in
      mkPass (<[i := node']> (p_nodes p)) h'
             ({[i]} ∪ p_processed p) (p_trace p ++ [Processed i])
  | None => p
  end.

(** [processNode].  The recursion of the source is not structural; [fuel]
    bounds the depth of nested calls and [None] means that the bound was
    reached. *)
Fixpoint processNode (K : NodeClasses) (fuel : nat) (conns : list Connection)
    (i : nat) (p : Pass) : option Pass :=
  match fuel with
  | O => None
  | S fuel' =>
      if decide (i ∈ p_processed p) then Some p
      else
        match forEach (dependency (processNode K fuel' conns) i) conns p with
        | Some p' => Some (invoke K i p')
        | None => None
        end
  end.

(** The connections that [processGraph] keeps. *)
Definition prune (ns : list BaseNode) (conns : list Connection)
  : list Connection :=
  filter (isConnectionValid ns) conns.

Definition start_pass (e : NodeEditor) : Pass :=
  mkPass (nodes e) (store e) ∅ [].

(** The traversal of [processGraph], with the state of the pass at its
    end. *)
Definition processGraph_pass (K : NodeClasses) (fuel : nat) (e : NodeEditor)
  : option Pass :=
  forEach (processNode K fuel (prune (nodes e) (connections e)))
          (seq 0 (length (nodes e))) (start_pass e).

Definition end_pass (e : NodeEditor) (p : Pass) : NodeEditor :=
  mkEditor (p_nodes p) (prune (nodes e) (connections e))
           (currentId e) (selectedNode e) (p_store p).

(** [processGraph]. *)
Definition processGraph (K : NodeClasses) (fuel : nat) (e : NodeEditor)
  : option NodeEditor :=
  end_pass e <$> processGraph_pass K fuel e.

(* ================================================================== *)
(** * Editing the graph *)
(* ================================================================== *)

(** [createNode]: [None] is [nullptr]. *)
Definition createNode (K : NodeClasses) (type : NodeType) : option BaseNode :=
  match type with
  | ImageInput => Some (construct K ImageInput)
  | Output => Some (construct K Output)
  | BrightnessContrast => Some (construct K BrightnessContrast)
  | ColorChannelSplitter => Some (construct K ColorChannelSplitter)
  | Blur => Some (construct K Blur)
  | Threshold => Some (construct K Threshold)
  | EdgeDetection => Some (construct K EdgeDetection)
  | Blend => Some (construct K Blend)
  | Noise => Some (construct K Noise)
  | Convolution => Some (construct K Convolution)
  | OtherType _ => None
  end.

(** [for (auto& pin : pins) pin.id = currentId++;] returns the pins and
    the counter. *)
Fixpoint assignPinIds (c : Z) (pins : list Pin) : list Pin * Z :=
  match pins with
  | [] => ([], c)
  | pin :: rest =>
      let (rest', c') := assignPinIds (c + 1)%Z rest in
      (pin_set_id c pin :: rest', c')
  end.

(** [addNode<T>]. *)
Definition addNode (K : NodeClasses) (T : NodeType) (e : NodeEditor)
  : NodeEditor :=
  match createNode K T with
  | Some node =>
      let c0 := currentId e in
      let (ins, c1) := assignPinIds (c0 + 1)%Z (inputs node) in
      let (outs, c2) := assignPinIds c1 (outputs node) in
      mkEditor
        (nodes e ++ [node_set_outputs outs (node_set_inputs ins (node_set_id c0 node))])
        (connections e) c2 (selectedNode e) (store e)
  | None => e
  end.

(** [clear]. *)
Definition clear (e : NodeEditor) : NodeEditor :=
  mkEditor [] [] 0%Z None (store e).

(** The two loops of [deleteConnection] over the pins of a node. *)
Definition clearInputPin (pinId : Z) (pin : Pin) : Pin :=
  if decide (pin_id pin = pinId)
  then pin_set_connected false (pin_set_data (Mat_release (pin_data pin)) pin)
  else pin.

Definition clearOutputPin (pinId : Z) (pin : Pin) : Pin :=
  if decide (pin_id pin = pinId) then pin_set_connected false pin else pin.

Definition clearInputs (conn : Connection) (ns : list BaseNode) : list BaseNode :=
  match findNodeById ns (inputNode conn) with
  | Some i =>
      alter (λ n, node_set_inputs (clearInputPin (inputPin conn) <$> inputs n) n) i ns
  | None => ns
  end.

Definition clearOutputs (conn : Connection) (ns : list BaseNode) : list BaseNode :=
  match findNodeById ns (outputNode conn) with
  | Some j =>
      alter (λ n, node_set_outputs (clearOutputPin (outputPin conn) <$> outputs n) n) j ns
  | None => ns
  end.

(** [deleteConnection], without the evaluation at its end. *)
Definition unlink (connectionIndex : nat) (conn : Connection) (e : NodeEditor)
  : NodeEditor :=
  mkEditor (clearOutputs conn (clearInputs conn (nodes e)))
           (delete connectionIndex (connections e))
           (currentId e) (selectedNode e) (store e).

(** [deleteConnection]. *)
Definition deleteConnection (K : NodeClasses) (fuel : nat)
    (connectionIndex : Z) (e : NodeEditor) : option NodeEditor :=
  if decide (connectionIndex < 0 ∨ connectionIndex >= Z.of_nat (length (connections e)))%Z
  then Some e
  else
    match connections e !! Z.to_nat connectionIndex with
    | Some conn => processGraph K fuel (unlink (Z.to_nat connectionIndex) conn e)
    | None => Some e
    end.

(** [handleConnections] when a link from [startPin] to [endPin] was
    created. *)
Definition handleConnections (startPin endPin : Z) (e : NodeEditor)
  : NodeEditor :=
  match findNodeByPin (nodes e) startPin false,
        findNodeByPin (nodes e) endPin true with
  | Some j, Some i =>
      match nodes e !! j, nodes e !! i with
      | Some outNode, Some inNode =>
          let conn := mkConnection (node_id inNode) (node_id outNode) endPin startPin in
          set_nodes
            (alter (node_set_dirty true) i (alter (node_set_dirty true) j (nodes e)))
            (set_connections (connections e ++ [conn]) e)
      | _, _ => e
      end
  | _, _ => e
  end.

(** [nodes.erase(it)] moves the nodes behind position [i] one place
    down.  A pointer keeps naming its object: a position behind [i]
    moves with it.  The pointer to the erased node dangles; it is
    represented by [None], there being no object left to name. *)
Definition erased (i : nat) (ptr : option nat) : option nat :=
  match ptr with
  | Some k =>
      if decide (k < i) then Some k
      else if decide (k = i) then None
      else Some (pred k)
  | None => None
  end.

(** The deletion of the hovered node in [draw]. *)
Definition removeNode (K : NodeClasses) (fuel : nat) (hoveredNodeId : Z)
    (e : NodeEditor) : option NodeEditor :=
  let conns :=
    filter (λ conn, ¬ (inputNode conn = hoveredNodeId ∨ outputNode conn = hoveredNodeId))
           (connections e) in
  match findNodeById (nodes e) hoveredNodeId with
  | Some i =>
      processGraph K fuel
        (mkEditor (delete i (nodes e)) conns (currentId e)
                  (erased i (selectedNode e)) (store e))
  | None => Some (set_connections conns e)
  end.

(* ================================================================== *)
(** * A small set of node classes *)
(* ================================================================== *)

(** Concrete classes on which the statements below are run: a source that
    publishes its parameters as pixels, a node that doubles its input, a
    node that negates it, and nodes that pass their first input on.  Each
    one publishes its result, on all its output pins, in a newly allocated
    buffer and releases its outputs when it has no input. *)
Module Demo.

Definition pin (name : string) : Pin := mkPin 0 name None false.

Definition construct (t : NodeType) : BaseNode :=
  match t with
  | ImageInput => mkNode 0 "Image Input" [] [pin "Image"] false t [7; 9]%Z
  | Output => mkNode 0 "Output" [pin "Image"] [] false t []
  | Blend => mkNode 0 "Blend" [pin "A"; pin "B"] [pin "Out"] false t []
  | ColorChannelSplitter =>
      mkNode 0 "Splitter" [pin "Image"] [pin "R"; pin "G"; pin "B"] false t []
  | _ => mkNode 0 "Filter" [pin "In"] [pin "Out"] false t []
  end.

Definition publish (b : Buf) (n : BaseNode) (h : Heap) : BaseNode * Heap :=
  (node_set_outputs (pin_set_data (Some (length h)) <$> outputs n) n, h ++ [b]).

Definition withdraw (n : BaseNode) (h : Heap) : BaseNode * Heap :=
  (node_set_outputs (pin_set_data None <$> outputs n) n, h).

Definition first_input (n : BaseNode) (h : Heap) : option Buf :=
  match inputs n with
  | p :: _ => pixels h (pin_data p)
  | [] => None
  end.

Definition transform (f : Buf → Buf) (n : BaseNode) (h : Heap)
  : BaseNode * Heap :=
  match first_input n h with
  | Some b => publish (f b) n h
  | None => withdraw n h
  end.

Definition process (n : BaseNode) (h : Heap) : BaseNode * Heap :=
  match kind n with
  | ImageInput => publish (params n) n h
  | BrightnessContrast => transform (map (Z.mul 2)) n h
  | Threshold => transform (map Z.opp) n h
  | _ => transform (λ b, b) n h
  end.

Definition classes : NodeClasses := mkClasses construct process.

End Demo.

(* ================================================================== *)
(** * Identifiers *)
(* ================================================================== *)

(** The ids of one node: its own, then its input pins', then its output
    pins'. *)
Definition node_ids (n : BaseNode) : list Z :=
  node_id n :: (pin_id <$> inputs n) ++ (pin_id <$> outputs n).

(** Every node id and pin id of the graph. *)
Definition all_ids (ns : list BaseNode) : list Z :=
  ns ≫= node_ids.

(** Every id in use is below the counter, and no id is used twice. *)
Definition ids_fresh (e : NodeEditor) : Prop :=
  NoDup (all_ids (nodes e)) ∧ ∀ x, x ∈ all_ids (nodes e) → (x < currentId e)%Z.

(** A run of [addNode] calls, first kind first. *)
Definition addNodes (K : NodeClasses) (Ts : list NodeType) (e : NodeEditor)
  : NodeEditor :=
  foldl (λ e T, addNode K T e) e Ts.

(** What [addNode] promises about the node it appends, [c] being the
    counter before the call and [node] the node as constructed. *)
Definition numbered_from (c : Z) (node n' : BaseNode) : Prop :=
  node_id n' = c ∧
  (pin_id <$> inputs n') = seqZ (c + 1) (Z.of_nat (length (inputs node))) ∧
  (pin_id <$> outputs n') =
    seqZ (c + 1 + Z.of_nat (length (inputs node)))
         (Z.of_nat (length (outputs node))).

(* ================================================================== *)
(** * Dependencies between nodes *)
(* ================================================================== *)

(** The node that connection [conn] makes the node at position [i] wait
    for: the test [conn.inputNode == node->id] and the lookup of
    [conn.outputNode] in the loop of [processNode]. *)
Definition edge (ns : list BaseNode) (i : nat) (conn : Connection) : option nat :=
  match ns !! i with
  | Some node =>
      if decide (inputNode conn = node_id node)
      then findNodeById ns (outputNode conn)
      else None
  | None => None
  end.

(** Node [j] is an upstream producer of node [i]: some connection names
    [i] as its input node and resolves to [j] as its output node. *)
Definition upstream (ns : list BaseNode) (conns : list Connection)
    (i j : nat) : Prop :=
  ∃ node conn, ns !! i = Some node ∧ conn ∈ conns ∧
               inputNode conn = node_id node ∧
               findNodeById ns (outputNode conn) = Some j.

(** No node is upstream of itself, directly or through other nodes. *)
Definition acyclic (e : NodeEditor) : Prop :=
  ∀ i, ¬ tc (upstream (nodes e) (connections e)) i i.

(** A dependency chain: nodes of the graph, each an upstream producer of
    the one before. *)
Inductive chain (ns : list BaseNode) (conns : list Connection)
  : list nat → Prop :=
  | chain_one i : is_Some (ns !! i) → chain ns conns [i]
  | chain_cons i j l :
      upstream ns conns i j → chain ns conns (j :: l) →
      chain ns conns (i :: j :: l).

(** No dependency chain of the graph has more than [d] nodes. *)
Definition chains_within (e : NodeEditor) (d : nat) : Prop :=
  ∀ l, chain (nodes e) (connections e) l → length l ≤ d.

(** ** What the editor relies on in [process()] *)

(** The ids by which the editor finds a node and its pins. *)
Definition skel (n : BaseNode) : Z * list Z * list Z :=
  (node_id n, pin_id <$> inputs n, pin_id <$> outputs n).

(** [process()] does not renumber its node or its pins. *)
Definition process_keeps_ids (K : NodeClasses) : Prop :=
  ∀ n h, skel (process K n h).1 = skel n.

(** ** The evaluation of one node, as a relation *)

(** [exec K conns i cs p p']: in state [p], the loop of [processNode] for
    the node at [i], with the connections [cs] still to visit, followed by
    the call of [process()], ends in state [p'].  [conns] is the whole
    list, over which the nested calls loop. *)
Inductive exec (K : NodeClasses) (conns : list Connection)
  : nat → list Connection → Pass → Pass → Prop :=
  | exec_invoke i p :
      exec K conns i [] p (invoke K i p)
  | exec_skip i c cs p p' :
      edge (p_nodes p) i c = None →
      exec K conns i cs p p' →
      exec K conns i (c :: cs) p p'
  | exec_ready i c cs j p p' :
      edge (p_nodes p) i c = Some j →
      j ∈ p_processed p →
      exec K conns i cs (copyPin c i j p) p' →
      exec K conns i (c :: cs) p p'
  | exec_wait i c cs j p p1 p' :
      edge (p_nodes p) i c = Some j →
      j ∉ p_processed p →
      exec K conns j conns p p1 →
      exec K conns i cs (copyPin c i j p1) p' →
      exec K conns i (c :: cs) p p'.

(** What the editor never writes in a pin. *)
Definition pin_label (p : Pin) : Z * string * bool :=
  (pin_id p, pin_name p, pin_connected p).

(** What a pass never writes in a node, unless [process()] does. *)
Definition label (n : BaseNode)
  : Z * string * list (Z * string * bool) * list (Z * string * bool) :=
  (node_id n, node_name n, pin_label <$> inputs n, pin_label <$> outputs n).

(** [process()] writes the buffers of its output pins and the members of
    its own class, and nothing else of the node. *)
Definition process_writes_outputs (K : NodeClasses) : Prop :=
  ∀ n h, node_id (process K n h).1 = node_id n ∧
         node_name (process K n h).1 = node_name n ∧
         inputs (process K n h).1 = inputs n ∧
         pin_label <$> outputs (process K n h).1 = pin_label <$> outputs n.

(** Every header of the graph names a buffer of the store. *)
Definition pin_allocated (h : Heap) (pin : Pin) : Prop :=
  ∀ l, pin_data pin = Some l → l < length h.

Definition node_allocated (h : Heap) (n : BaseNode) : Prop :=
  Forall (pin_allocated h) (inputs n) ∧ Forall (pin_allocated h) (outputs n).

(** ** Sequences of edits *)

Inductive Op :=
  | OpAddNode (T : NodeType)
  | OpRemoveNode (nodeId : Z)
  | OpConnect (startPin endPin : Z)
  | OpDisconnect (connectionIndex : Z).

Definition apply_op (K : NodeClasses) (fuel : nat) (op : Op) (e : NodeEditor)
  : option NodeEditor :=
  match op with
  | OpAddNode T => Some (addNode K T e)
  | OpRemoveNode nodeId => removeNode K fuel nodeId e
  | OpConnect startPin endPin => Some (handleConnections startPin endPin e)
  | OpDisconnect connectionIndex => deleteConnection K fuel connectionIndex e
  end.

Fixpoint run_ops (K : NodeClasses) (fuel : nat) (ops : list Op) (e : NodeEditor)
  : option NodeEditor :=
  match ops with
  | [] => Some e
  | op :: rest =>
      match apply_op K fuel op e with
      | Some e' => run_ops K fuel rest e'
      | None => None
      end
  end.

(** A connection whose two node ids belong to nodes of the graph, and
    whose pin ids belong to the inputs of the one and the outputs of the
    other. *)
Definition connection_ok (ns : list BaseNode) (conn : Connection) : Prop :=
  ∃ n m, n ∈ ns ∧ node_id n = inputNode conn ∧ has_pin (inputPin conn) (inputs n) ∧
         m ∈ ns ∧ node_id m = outputNode conn ∧ has_pin (outputPin conn) (outputs m).

(** ** Buffers as values *)

(** The pixels held by a pin. *)
Definition pin_pixels (h : Heap) (pin : Pin) : option Buf :=
  pixels h (pin_data pin).

(** What makes a node the node it is: its ids, its class and its
    parameters. *)
Definition shape (n : BaseNode) : Z * list Z * list Z * NodeType * list Z :=
  (skel n, kind n, params n).

(** [process()] is a function of the input buffers and the parameters:
    it leaves the node, its input pins and its parameters as they are,
    publishes its results without overwriting a buffer that exists, and
    two runs on nodes of the same shape whose input pins hold the same
    pixels leave the same pixels in the output pins. *)
Definition process_is_function (K : NodeClasses) : Prop :=
  (∀ n h, shape (process K n h).1 = shape n ∧
          inputs (process K n h).1 = inputs n ∧
          h `prefix_of` (process K n h).2) ∧
  (∀ n h, node_allocated h n →
          Forall (pin_allocated (process K n h).2) (outputs (process K n h).1)) ∧
  (∀ n1 h1 n2 h2,
      node_allocated h1 n1 → node_allocated h2 n2 →
      shape n1 = shape n2 →
      pin_pixels h1 <$> inputs n1 = pin_pixels h2 <$> inputs n2 →
      pin_pixels (process K n1 h1).2 <$> outputs (process K n1 h1).1
      = pin_pixels (process K n2 h2).2 <$> outputs (process K n2 h2).1).

(** Every header of the editor names a buffer of its store. *)
Definition editor_allocated (e : NodeEditor) : Prop :=
  ∀ n, n ∈ nodes e → node_allocated (store e) n.

(* ================================================================== *)
(** * Small graphs *)
(* ================================================================== *)

Module Graphs.

Definition blank : NodeEditor := mkEditor [] [] 0 None [].

(** A source, a node that doubles and a node that negates, in a row. *)
Definition chain_ops : list Op :=
  [OpAddNode ImageInput; OpAddNode BrightnessContrast; OpAddNode Threshold;
   OpConnect 1 3; OpConnect 4 6].

Definition chain : NodeEditor :=
  handleConnections 4 6
    (handleConnections 1 3
       (addNodes Demo.classes [ImageInput; BrightnessContrast; Threshold]
                 (clear blank))).

(** The chain once its source has been processed. *)
Definition chain_started : Pass :=
  invoke Demo.classes 0 (start_pass chain).

(** Two sources wired to the same input pin. *)
Definition fan_in_ops : list Op :=
  [OpAddNode ImageInput; OpAddNode ImageInput; OpAddNode Blur;
   OpConnect 1 5; OpConnect 3 5].

(** One source wired to the input pins of two filters, with the
    connected flags of the wired pins set. *)
Definition fan_out : NodeEditor :=
  mkEditor
    [mkNode 0 "Image Input" [] [mkPin 1 "Image" None true] false ImageInput [7; 9]%Z;
     mkNode 2 "Filter" [mkPin 3 "In" None true] [mkPin 4 "Out" None false]
            false Blur [];
     mkNode 5 "Filter" [mkPin 6 "In" None true] [mkPin 7 "Out" None false]
            false Blur []]
    [mkConnection 2 0 3 1; mkConnection 5 0 6 1]
    8 None [].

(** A filter whose output is wired to its own input. *)
Definition loop : NodeEditor :=
  handleConnections 2 1 (addNode Demo.classes Blur (clear blank)).

End Graphs.

(* ================================================================== *)
(** * The events of a frame *)
(* ================================================================== *)

(** What [draw] learns from ImNodes and ImGui in one frame: the link
    under the pointer ([IsLinkHovered]), the node under the pointer
    ([IsNodeHovered]), whether the left button was double-clicked, and
    the link that was created ([IsLinkCreated]) with its start and end
    pin. *)
Record Input := mkInput {
  linkHovered : option Z;
  nodeHovered : option Z;
  doubleClicked : bool;
  linkCreated : option (Z * Z)
}.

(** Lines 62-95 of [draw], after the nodes and links have been drawn:
    the deletion of the hovered link, the deletion of the hovered node,
    then [handleConnections]. *)
Definition drawEvents (K : NodeClasses) (fuel : nat) (ui : Input)
    (e : NodeEditor) : option NodeEditor :=
  e1 ← match linkHovered ui with
       | Some hoveredLinkId =>
           if doubleClicked ui then
             if decide (0 <= hoveredLinkId ∧
                        hoveredLinkId < Z.of_nat (length (connections e)))%Z
             then deleteConnection K fuel hoveredLinkId e
             else Some e
           else Some e
       | None => Some e
       end;
  e2 ← match nodeHovered ui with
       | Some hoveredNodeId =>
           if doubleClicked ui then removeNode K fuel hoveredNodeId e1
           else Some e1
       | None => Some e1
       end;
  Some match linkCreated ui with
       | Some (startPin, endPin) => handleConnections startPin endPin e2
       | None => e2
       end.

(** The edits that the events of a frame ask for, in the order of
    [draw]. *)
Definition frame_ops (ui : Input) : list Op :=
  match linkHovered ui with
  | Some hoveredLinkId =>
      if doubleClicked ui then [OpDisconnect hoveredLinkId] else []
  | None => []
  end ++
  match nodeHovered ui with
  | Some hoveredNodeId =>
      if doubleClicked ui then [OpRemoveNode hoveredNodeId] else []
  | None => []
  end ++
  match linkCreated ui with
  | Some (startPin, endPin) => [OpConnect startPin endPin]
  | None => []
  end.

(** The counter of [e'] is not below that of [e], and the ids of [e']
    below the counter of [e] are ids of [e]. *)
Definition older (e e' : NodeEditor) : Prop :=
  (currentId e ≤ currentId e')%Z ∧
  ∀ x, x ∈ all_ids (nodes e') → (x < currentId e)%Z → x ∈ all_ids (nodes e).

(** The position, before [nodes.erase] at position [i], of the node
    that is at position [y] after it. *)
Definition unshift (i y : nat) : nat :=
  if decide (y < i) then y else S y.

(** No pin of the nodes has its connected flag set. *)
Definition unflagged (ns : list BaseNode) : Prop :=
  ∀ n pin, n ∈ ns → pin ∈ inputs n ++ outputs n → pin_connected pin = false.

(* ================================================================== *)
(** * More small graphs *)
(* ================================================================== *)

Module Scenes.

(** A source, a node that doubles and a node that negates, not wired. *)
Definition unwired : NodeEditor :=
  addNodes Demo.classes [ImageInput; BrightnessContrast; Threshold]
           (clear Graphs.blank).

(** The source feeds the doubling node and a filter; the doubling node
    feeds the same input pin of the filter, by a later connection. *)
Definition two_into_one : NodeEditor :=
  handleConnections 4 6
    (handleConnections 1 6
       (handleConnections 1 3
          (addNodes Demo.classes [ImageInput; BrightnessContrast; Blur]
                    (clear Graphs.blank)))).

End Scenes.

(* ================================================================== *)
(** * Notions used in the proofs *)
(* ================================================================== *)

(** ** The static part of the graph *)

Definition skeleton (ns : list BaseNode) : list (Z * list Z * list Z) :=
  skel <$> ns.

(** The ids of the pass state [p] are those of the nodes [ns0]. *)
Definition stable (ns0 : list BaseNode) (p : Pass) : Prop :=
  skeleton (p_nodes p) = skeleton ns0.

(** The ids stay, the processed set and the trace grow. *)
Definition grows (p p' : Pass) : Prop :=
  skeleton (p_nodes p') = skeleton (p_nodes p) ∧
  p_processed p ⊆ p_processed p' ∧
  p_trace p `prefix_of` p_trace p'.

(** The labels stay. *)
Definition same_labels (p p' : Pass) : Prop :=
  label <$> p_nodes p' = label <$> p_nodes p.

(** The invariant of the editor: fresh ids and valid connections. *)
Definition graph_ok (e : NodeEditor) : Prop :=
  ids_fresh e ∧ ∀ c, c ∈ connections e → connection_ok (nodes e) c.

(** ** The trace *)

(** The event that [copyPin] records. *)
Definition copy_event (ns : list BaseNode) (c : Connection) (i j : nat)
  : option Event :=
  outNode ← ns !! j;
  node ← ns !! i;
  oi ← findPinIndex (outputs outNode) (outputPin c);
  ii ← findPinIndex (inputs node) (inputPin c);
  src ← outputs outNode !! oi;
  if Mat_empty (pin_data src) then None else Some (Copied i ii j oi).

(** Every call of [process()] comes after a call for each upstream
    producer of its node. *)
Definition preceded (conns : list Connection) (ns0 : list BaseNode)
    (t : list Event) : Prop :=
  ∀ k x y, t !! k = Some (Processed x) → upstream ns0 conns x y →
           ∃ k', k' < k ∧ t !! k' = Some (Processed y).

(** The processed set holds the nodes whose call is on the trace. *)
Definition logged (p : Pass) : Prop :=
  ∀ x, x ∈ p_processed p ↔ Processed x ∈ p_trace p.

(** No node has two calls of [process()] on the trace. *)
Definition once (t : list Event) : Prop :=
  ∀ k k' x, t !! k = Some (Processed x) → t !! k' = Some (Processed x) → k = k'.

(** The buffers that node [x] was handed through the connections [cs]
    were copied after the producer's call and before the call of [x]. *)
Definition placed (ns0 : list BaseNode) (p : Pass) (x : nat)
    (cs : list Connection) : Prop :=
  ∀ c j ii oi kx,
    c ∈ cs → edge ns0 x c = Some j →
    copy_event (p_nodes p) c x j = Some (Copied x ii j oi) →
    p_trace p !! kx = Some (Processed x) →
    ∃ kj kc, kj < kc ∧ kc < kx ∧
             p_trace p !! kj = Some (Processed j) ∧
             p_trace p !! kc = Some (Copied x ii j oi).

Definition ordered (conns : list Connection) (ns0 : list BaseNode)
    (p : Pass) : Prop :=
  stable ns0 p ∧ logged p ∧ preceded conns ns0 (p_trace p) ∧
  once (p_trace p) ∧ ∀ x, placed ns0 p x conns.

Definition post (conns : list Connection) (ns0 : list BaseNode)
    (i : nat) (cs : list Connection) (p' : Pass) : Prop :=
  once (p_trace p') ∧
  (∀ x, x ≠ i → placed ns0 p' x conns) ∧
  placed ns0 p' i cs.

(** ** Input pins that no connection feeds *)

(** No connection of the pass resolves to input pin [k] of node [n]. *)
Definition untargeted (conns : list Connection) (n : BaseNode) (k : nat) : Prop :=
  ∀ c, c ∈ conns → inputNode c = node_id n →
       findPinIndex (inputs n) (inputPin c) ≠ Some k.

(** The labels stay, and so do the input pins that no connection
    resolves to. *)
Definition keeps_inputs (conns : list Connection) (p p' : Pass) : Prop :=
  same_labels p p' ∧
  ∀ x n n' k, p_nodes p !! x = Some n → p_nodes p' !! x = Some n' →
              untargeted conns n k → inputs n' !! k = inputs n !! k.

(** ** The pixels of a pass state *)

(** The pixels in the input pins and in the output pins of the node at
    [x]. *)
Definition ins (p : Pass) (x : nat) : list (option Buf) :=
  match p_nodes p !! x with
  | Some n => pin_pixels (p_store p) <$> inputs n
  | None => []
  end.

Definition outs (p : Pass) (x : nat) : list (option Buf) :=
  match p_nodes p !! x with
  | Some n => pin_pixels (p_store p) <$> outputs n
  | None => []
  end.

Definition pass_allocated (p : Pass) : Prop :=
  ∀ x n, p_nodes p !! x = Some n → node_allocated (p_store p) n.

(** The headers stay allocated, the store grows and the shapes stay. *)
Definition sound (p p' : Pass) : Prop :=
  pass_allocated p →
  pass_allocated p' ∧ p_store p `prefix_of` p_store p' ∧
  shape <$> p_nodes p' = shape <$> p_nodes p.

(** The buffer that connection [c] hands to node [x], and the input pin
    that receives it, [O] giving the pixels in the output pins. *)
Definition handed (ns : list BaseNode) (O : nat → list (option Buf))
    (x : nat) (c : Connection) : option (nat * Buf) :=
  j ← edge ns x c;
  outNode ← ns !! j;
  node ← ns !! x;
  oi ← findPinIndex (outputs outNode) (outputPin c);
  ii ← findPinIndex (inputs node) (inputPin c);
  b ← mjoin (O j !! oi);
  Some (ii, b).

Definition feed (ns : list BaseNode) (O : nat → list (option Buf))
    (x : nat) (v : list (option Buf)) (c : Connection) : list (option Buf) :=
  match handed ns O x c with
  | Some (ii, b) => <[ii := Some b]> v
  | None => v
  end.

(** The pixels in the input pins of [x] after the connections [cs] have
    been served, in order. *)
Definition replay (ns : list BaseNode) (O : nat → list (option Buf))
    (x : nat) (cs : list Connection) (v : list (option Buf))
  : list (option Buf) :=
  foldl (feed ns O x) v cs.

(** The pin that a list of assignments leaves with a buffer, and the
    buffer: the last assignment wins. *)
Fixpoint final (asg : list (nat * Buf)) (k : nat) : option Buf :=
  match asg with
  | [] => None
  | (k0, b0) :: rest =>
      match final rest k with
      | Some b => Some b
      | None => if decide (k0 = k) then Some b0 else None
      end
  end.

Definition assign (v : list (option Buf)) (kb : nat * Buf) : list (option Buf) :=
  <[kb.1 := Some kb.2]> v.

(** [O] is what [process()] leaves in the output pins of a node of
    shape [s] whose input pins hold [I]. *)
Definition result_of (K : NodeClasses)
    (s : Z * list Z * list Z * NodeType * list Z)
    (I O : list (option Buf)) : Prop :=
  ∃ n h, node_allocated h n ∧ shape n = s ∧
         pin_pixels h <$> inputs n = I ∧
         pin_pixels (process K n h).2 <$> outputs (process K n h).1 = O.

Definition good (conns : list Connection) (ns0 : list BaseNode) (p : Pass) : Prop :=
  pass_allocated p ∧ shape <$> p_nodes p = shape <$> ns0 ∧
  logged p ∧ preceded conns ns0 (p_trace p).

(** [char K ns0 p p' x cs]: from [p] to [p'] the input pins of [x] were
    served by the connections [cs], with the pixels that the output
    pins hold in [p'], and the output pins of [x] hold what
    [process()] makes of these inputs. *)
Definition char (K : NodeClasses) (ns0 : list BaseNode) (p p' : Pass)
    (x : nat) (cs : list Connection) : Prop :=
  ins p' x = replay ns0 (outs p') x cs (ins p x) ∧
  ∀ n0, ns0 !! x = Some n0 → result_of K (shape n0) (ins p' x) (outs p' x).

(** The pixels that a node of the small classes publishes. *)
Definition demo_result (k : NodeType) (ps : list Z) (I : list (option Buf))
  : option Buf :=
  let first := match I with x :: _ => x | [] => None end in
  match k with
  | ImageInput => Some ps
  | BrightnessContrast => map (Z.mul 2) <$> first
  | Threshold => map Z.opp <$> first
  | _ => first
  end.

(* ================================================================== *)
(** * Proofs: identifiers *)
(* ================================================================== *)

Section Identifiers.
Variable K : NodeClasses.

Lemma assignPinIds_ids c pins :
  (pin_id <$> (assignPinIds c pins).1) = seqZ c (Z.of_nat (length pins)) ∧
  (assignPinIds c pins).2 = (c + Z.of_nat (length pins))%Z.
Proof.
  revert c. induction pins as [|pin rest IH]; intros c.
  - simpl. split; [done | lia].
  - simpl assignPinIds. specialize (IH (c + 1)%Z).
    destruct (assignPinIds (c + 1) rest) as [rest' c'] eqn:E.
    csimpl in *. destruct IH as [IH1 IH2]. split.
    + rewrite IH1.
      replace (Z.of_nat (S (length rest))) with (Z.succ (Z.of_nat (length rest))) by lia.
      rewrite (seqZ_cons c) by lia.
      f_equal. f_equal; lia.
    + lia.
Qed.

Lemma createNode_recognised T :
  createNode K T = None ↔ ∃ tag, T = OtherType tag.
Proof.
  split.
  - destruct T; simpl; try discriminate. eauto.
  - intros [tag ->]. reflexivity.
Qed.

Lemma addNode_known T node e :
  createNode K T = Some node →
  ∃ n', nodes (addNode K T e) = nodes e ++ [n'] ∧
        numbered_from (currentId e) node n' ∧
        currentId (addNode K T e) =
          (currentId e + 1 + Z.of_nat (length (inputs node))
           + Z.of_nat (length (outputs node)))%Z ∧
        connections (addNode K T e) = connections e ∧
        selectedNode (addNode K T e) = selectedNode e ∧
        store (addNode K T e) = store e.
Proof.
  intros Hc. unfold addNode. rewrite Hc.
  pose proof (assignPinIds_ids (currentId e + 1) (inputs node)) as [Hi1 Hi2].
  destruct (assignPinIds (currentId e + 1) (inputs node)) as [ins c1] eqn:E1.
  pose proof (assignPinIds_ids c1 (outputs node)) as [Ho1 Ho2].
  destruct (assignPinIds c1 (outputs node)) as [outs c2] eqn:E2.
  simpl in *. subst c1.
  eexists. split; [reflexivity|].
  repeat split; simpl; try done; lia.
Qed.

Lemma numbered_from_ids c node n' :
  numbered_from c node n' →
  node_ids n' =
    seqZ c (1 + Z.of_nat (length (inputs node)) + Z.of_nat (length (outputs node))).
Proof.
  intros (Hid & Hin & Hout). unfold node_ids. rewrite Hid, Hin, Hout.
  rewrite <- seqZ_app by lia.
  replace (1 + Z.of_nat (length (inputs node)) + Z.of_nat (length (outputs node)))%Z
    with (Z.succ (Z.of_nat (length (inputs node)) + Z.of_nat (length (outputs node)))) by lia.
  rewrite (seqZ_cons c) by lia.
  f_equal. f_equal; lia.
Qed.

Lemma all_ids_snoc ns n : all_ids (ns ++ [n]) = all_ids ns ++ node_ids n.
Proof.
  unfold all_ids. rewrite bind_app. simpl. by rewrite app_nil_r.
Qed.

Lemma addNode_ids_fresh T e : ids_fresh e → ids_fresh (addNode K T e).
Proof.
  intros [Hnd Hlt].
  destruct (createNode K T) as [node|] eqn:Hc.
  - destruct (addNode_known T node e Hc) as (n' & Hn & Hnum & Hcur & _).
    unfold ids_fresh. rewrite Hn, Hcur, all_ids_snoc.
    rewrite (numbered_from_ids _ _ _ Hnum).
    split.
    + apply NoDup_app. split; [done|]. split; [|apply NoDup_seqZ].
      intros x Hx Hx'. apply Hlt in Hx. apply elem_of_seqZ in Hx'. lia.
    + intros x [Hx|Hx]%elem_of_app.
      * apply Hlt in Hx. lia.
      * apply elem_of_seqZ in Hx. lia.
  - unfold addNode. rewrite Hc. done.
Qed.

Lemma clear_ids_fresh e : ids_fresh (clear e).
Proof.
  split; simpl.
  - apply NoDup_nil_2.
  - intros x Hx. by apply elem_of_nil in Hx.
Qed.

Lemma addNodes_ids_fresh Ts e : ids_fresh e → ids_fresh (addNodes K Ts e).
Proof.
  revert e. induction Ts as [|T Ts IH]; intros e He; simpl; [done|].
  apply IH. by apply addNode_ids_fresh.
Qed.

(** C4 (unique ids): after any run of [addNode] calls on a cleared
    editor no node id or pin id of the graph occurs twice, and the next
    [addNode] numbers the node first, then its input pins in order, then
    its output pins in order, consecutively from the counter. *)
Theorem addNode_ids_unique_and_ordered (Ts : list NodeType) (e0 : NodeEditor) (T : NodeType) :
  let e := addNodes K Ts (clear e0) in
  NoDup (all_ids (nodes e)) ∧
  match createNode K T with
  | Some node =>
      ∃ n', nodes (addNode K T e) = nodes e ++ [n'] ∧
            numbered_from (currentId e) node n' ∧
            currentId (addNode K T e) =
              (currentId e + 1 + Z.of_nat (length (inputs node))
               + Z.of_nat (length (outputs node)))%Z
  | None => addNode K T e = e
  end.
Proof.
  intros e. split.
  - apply (addNodes_ids_fresh Ts (clear e0)), clear_ids_fresh.
  - destruct (createNode K T) as [node|] eqn:Hc.
    + destruct (addNode_known T node e Hc) as (n' & ? & ? & ? & _). eauto.
    + unfold addNode. by rewrite Hc.
Qed.

(** C7 (unknown kind): for a kind that the factory does not know,
    [createNode] returns no node and [addNode] leaves the editor as it
    was: no node is added and the counter keeps its value. *)
Theorem addNode_unknown_kind (tag : Z) (e : NodeEditor) :
  createNode K (OtherType tag) = None ∧
  addNode K (OtherType tag) e = e ∧
  nodes (addNode K (OtherType tag) e) = nodes e ∧
  currentId (addNode K (OtherType tag) e) = currentId e.
Proof. repeat split. Qed.

End Identifiers.

(* ================================================================== *)
(** * Proofs: lookups and the static part of the graph *)
(* ================================================================== *)

Lemma findNodeById_Some ns x i :
  findNodeById ns x = Some i ↔
  ∃ n, ns !! i = Some n ∧ node_id n = x ∧
       ∀ j m, ns !! j = Some m → j < i → node_id m ≠ x.
Proof.
  unfold findNodeById. split.
  - intros H. apply fmap_Some in H as ([i' n] & H & ->).
    apply list_find_Some in H. naive_solver.
  - intros (n & H1 & H2 & H3). apply fmap_Some. exists (i, n). split; [|done].
    apply list_find_Some. naive_solver.
Qed.

Lemma findNodeById_None ns x :
  findNodeById ns x = None ↔ ∀ n, n ∈ ns → node_id n ≠ x.
Proof.
  unfold findNodeById. rewrite fmap_None, list_find_None, Forall_forall.
  done.
Qed.

Lemma findNodeById_lt ns x i : findNodeById ns x = Some i → i < length ns.
Proof.
  intros (n & H & _)%findNodeById_Some. by apply lookup_lt_Some in H.
Qed.

Lemma findNodeById_ids ns ns' x :
  node_id <$> ns = node_id <$> ns' → findNodeById ns x = findNodeById ns' x.
Proof.
  revert ns'. induction ns as [|n ns IH]; intros [|n' ns'] H; try done.
  injection H as Hn Hns. unfold findNodeById in *. simpl.
  rewrite Hn. case_decide; [done|].
  specialize (IH ns' Hns).
  destruct (list_find _ ns) as [[]|], (list_find _ ns') as [[]|];
    simpl in *; congruence.
Qed.

Lemma findPinIndex_ids pins pins' x :
  pin_id <$> pins = pin_id <$> pins' → findPinIndex pins x = findPinIndex pins' x.
Proof.
  revert pins'. induction pins as [|n ns IH]; intros [|n' ns'] H; try done.
  injection H as Hn Hns. unfold findPinIndex in *. simpl.
  rewrite Hn. case_decide; [done|].
  specialize (IH ns' Hns).
  destruct (list_find _ ns) as [[]|], (list_find _ ns') as [[]|];
    simpl in *; congruence.
Qed.

Lemma findPinIndex_Some pins x k :
  findPinIndex pins x = Some k →
  ∃ pin, pins !! k = Some pin ∧ pin_id pin = x.
Proof.
  unfold findPinIndex. intros H.
  apply fmap_Some in H as ([k' pin] & H & ->).
  apply list_find_Some in H. naive_solver.
Qed.

Lemma skeleton_ids ns ns' :
  skeleton ns = skeleton ns' → node_id <$> ns = node_id <$> ns'.
Proof.
  intros H. unfold skeleton in H.
  assert (node_id <$> ns = (λ s, s.1.1) <$> (skel <$> ns)) as ->.
  { rewrite <- list_fmap_compose. done. }
  rewrite H, <- list_fmap_compose. done.
Qed.

Lemma skeleton_lookup ns ns' i n :
  skeleton ns = skeleton ns' → ns !! i = Some n →
  ∃ n', ns' !! i = Some n' ∧ skel n' = skel n.
Proof.
  intros H Hn. unfold skeleton in H.
  assert ((skel <$> ns') !! i = Some (skel n)) as H'.
  { rewrite <- H, list_lookup_fmap, Hn. done. }
  rewrite list_lookup_fmap in H'. apply fmap_Some in H' as (n' & ? & ?).
  eauto.
Qed.

Lemma skeleton_length ns ns' : skeleton ns = skeleton ns' → length ns = length ns'.
Proof.
  intros H. unfold skeleton in H.
  rewrite <- (length_fmap skel ns), H, length_fmap. done.
Qed.

Lemma skeleton_insert ns i n n' :
  ns !! i = Some n → skel n' = skel n → skeleton (<[i := n']> ns) = skeleton ns.
Proof.
  intros H Hs. unfold skeleton. rewrite list_fmap_insert, Hs.
  apply list_insert_id. rewrite list_lookup_fmap, H. done.
Qed.

Lemma edge_skeleton ns ns' i c :
  skeleton ns = skeleton ns' → edge ns i c = edge ns' i c.
Proof.
  intros H. unfold edge.
  rewrite (findNodeById_ids ns ns') by by apply skeleton_ids.
  destruct (ns !! i) as [n|] eqn:Hn.
  - destruct (skeleton_lookup _ _ _ _ H Hn) as (n' & -> & Hs).
    injection Hs as Hid _ _. rewrite Hid. done.
  - destruct (ns' !! i) as [n'|] eqn:Hn'; [|done].
    symmetry in H.
    destruct (skeleton_lookup _ _ _ _ H Hn') as (n & Hn2 & _). congruence.
Qed.

Lemma upstream_edge ns conns i j :
  upstream ns conns i j ↔ ∃ c, c ∈ conns ∧ edge ns i c = Some j.
Proof.
  unfold upstream, edge. split.
  - intros (n & c & Hn & Hc & Hid & Hf). exists c. split; [done|].
    rewrite Hn. by rewrite decide_True.
  - intros (c & Hc & He). destruct (ns !! i) as [n|] eqn:Hn; [|done].
    case_decide; [|done]. eauto 10.
Qed.

Lemma upstream_skeleton ns ns' conns i j :
  skeleton ns = skeleton ns' → upstream ns conns i j → upstream ns' conns i j.
Proof.
  intros H. rewrite !upstream_edge. intros (c & ? & ?). exists c.
  by rewrite <- (edge_skeleton ns ns').
Qed.

Lemma upstream_valid ns conns i j :
  upstream ns conns i j → i < length ns ∧ j < length ns.
Proof.
  intros (n & c & Hn & _ & _ & Hf). split.
  - by apply lookup_lt_Some in Hn.
  - by apply findNodeById_lt in Hf.
Qed.

Lemma upstream_prune ns conns i j :
  upstream ns (prune ns conns) i j ↔ upstream ns conns i j.
Proof.
  unfold upstream, prune. split.
  - intros (n & c & ? & [? ?]%list_elem_of_filter & ? & ?). eauto 10.
  - intros (n & c & Hn & Hc & Hid & Hf). exists n, c. repeat split; try done.
    apply list_elem_of_filter. split; [|done]. split.
    + destruct (findNodeById ns (inputNode c)) eqn:E; [done|].
      rewrite findNodeById_None in E. exfalso. eapply E; [|by symmetry].
      by eapply list_elem_of_lookup_2.
    + by rewrite Hf.
Qed.

Lemma upstream_mono ns conns conns' i j :
  conns ⊆ conns' → upstream ns conns i j → upstream ns conns' i j.
Proof. intros H (n & c & ? & ? & ? & ?). exists n, c. naive_solver. Qed.

(* ================================================================== *)
(** * Proofs: the shape of a pass *)
(* ================================================================== *)

Lemma forEach_app {A} (body : A → Pass → option Pass) xs ys p :
  forEach body (xs ++ ys) p =
  match forEach body xs p with
  | Some p' => forEach body ys p'
  | None => None
  end.
Proof.
  revert p. induction xs as [|x xs IH]; intros p; simpl; [done|].
  destruct (body x p); [apply IH | done].
Qed.

Lemma forEach_inv {A} (I : Pass → Prop) (body : A → Pass → option Pass) xs p p' :
  (∀ x q q', x ∈ xs → I q → body x q = Some q' → I q') →
  I p → forEach body xs p = Some p' → I p'.
Proof.
  revert p. induction xs as [|x xs IH]; intros p Hstep Hp H; simpl in H.
  - by injection H as <-.
  - destruct (body x p) as [q|] eqn:E; [|done].
    apply (IH q); [| |done].
    + intros y q1 q2 Hy. apply Hstep. by right.
    + eapply Hstep; [|done..]. by left.
Qed.

Lemma forEach_is_Some {A} (I : Pass → Prop) (body : A → Pass → option Pass) xs p :
  (∀ x q, x ∈ xs → I q → ∃ q', body x q = Some q' ∧ I q') →
  I p → ∃ p', forEach body xs p = Some p' ∧ I p'.
Proof.
  revert p. induction xs as [|x xs IH]; intros p Hstep Hp; simpl.
  - eauto.
  - destruct (Hstep x p) as (q & -> & Hq); [by left | done |].
    apply IH; [|done]. intros y q1 Hy. apply Hstep. by right.
Qed.

Lemma dependency_edge rec i c p :
  dependency rec i c p =
  match edge (p_nodes p) i c with
  | Some j =>
      match rec j p with
      | Some p1 => Some (copyPin c i j p1)
      | None => None
      end
  | None => Some p
  end.
Proof.
  unfold dependency, edge. destruct (p_nodes p !! i); [|done].
  case_decide; [|done]. by destruct findNodeById.
Qed.

Lemma copyPin_processed c i j p : p_processed (copyPin c i j p) = p_processed p.
Proof.
  unfold copyPin.
  destruct (p_nodes p !! j) as [m|]; [|done].
  destruct (p_nodes p !! i) as [n|]; [|done].
  destruct (findPinIndex (outputs m) _) as [oi|]; [|done].
  destruct (findPinIndex (inputs n) _) as [ii|]; [|done].
  destruct (outputs m !! oi) as [src|]; [|done].
  destruct (Mat_empty (pin_data src)); [done|].
  by destruct (Mat_clone _ _).
Qed.

Lemma copyPin_trace c i j p :
  p_trace (copyPin c i j p) =
  p_trace p ++ option_list (copy_event (p_nodes p) c i j).
Proof.
  unfold copyPin, copy_event.
  destruct (p_nodes p !! j) as [m|]; simpl; [|by rewrite app_nil_r].
  destruct (p_nodes p !! i) as [n|]; simpl; [|by rewrite app_nil_r].
  destruct (findPinIndex (outputs m) _) as [oi|]; simpl; [|by rewrite app_nil_r].
  destruct (findPinIndex (inputs n) _) as [ii|]; simpl; [|by rewrite app_nil_r].
  destruct (outputs m !! oi) as [src|]; simpl; [|by rewrite app_nil_r].
  destruct (pin_data src) as [l|]; simpl; [done | by rewrite app_nil_r].
Qed.

Lemma skel_set_input k m n : skel (node_set_input k m n) = skel n.
Proof.
  unfold skel, node_set_input. simpl. f_equal. f_equal.
  apply list_eq. intros x. rewrite !list_lookup_fmap.
  destruct (decide (x = k)) as [->|Hne].
  - rewrite list_lookup_alter_eq. by destruct (inputs n !! k).
  - by rewrite list_lookup_alter_ne.
Qed.

Lemma copyPin_nodes c i j p :
  p_nodes (copyPin c i j p) = p_nodes p ∨
  ∃ n k m, p_nodes p !! i = Some n ∧
           p_nodes (copyPin c i j p) = <[i := node_set_input k m n]> (p_nodes p).
Proof.
  unfold copyPin.
  destruct (p_nodes p !! j) as [mj|] eqn:Hj; [|by left].
  destruct (p_nodes p !! i) as [n|] eqn:Hi; [|by left].
  destruct (findPinIndex (outputs mj) _) as [oi|]; [|by left].
  destruct (findPinIndex (inputs n) _) as [ii|]; [|by left].
  destruct (outputs mj !! oi) as [src|]; [|by left].
  destruct (Mat_empty (pin_data src)); [by left|].
  destruct (Mat_clone _ _) as [m h']. right. simpl. eauto.
Qed.

Lemma copyPin_skeleton c i j p :
  skeleton (p_nodes (copyPin c i j p)) = skeleton (p_nodes p).
Proof.
  destruct (copyPin_nodes c i j p) as [->|(n & k & m & Hn & ->)]; [done|].
  eapply skeleton_insert; [done|]. apply skel_set_input.
Qed.

Lemma copyPin_other c i j p x :
  x ≠ i → p_nodes (copyPin c i j p) !! x = p_nodes p !! x.
Proof.
  intros Hx.
  destruct (copyPin_nodes c i j p) as [->|(n & k & m & Hn & ->)]; [done|].
  by rewrite list_lookup_insert_ne.
Qed.

Section Evaluator.
Variable K : NodeClasses.
Variable conns : list Connection.

Lemma invoke_processed i p :
  p_processed (invoke K i p) ⊆ {[i]} ∪ p_processed p ∧
  p_processed p ⊆ p_processed (invoke K i p).
Proof.
  unfold invoke. destruct (p_nodes p !! i); [|set_solver].
  destruct (process K _ _). simpl. set_solver.
Qed.

Lemma invoke_valid i p n :
  p_nodes p !! i = Some n →
  invoke K i p =
    mkPass (<[i := (process K n (p_store p)).1]> (p_nodes p))
           (process K n (p_store p)).2
           ({[i]} ∪ p_processed p) (p_trace p ++ [Processed i]).
Proof.
  intros H. unfold invoke. rewrite H. by destruct (process K n (p_store p)).
Qed.

Lemma invoke_other i p x :
  x ≠ i → p_nodes (invoke K i p) !! x = p_nodes p !! x.
Proof.
  intros Hx. unfold invoke. destruct (p_nodes p !! i); [|done].
  destruct (process K _ _). simpl. by rewrite list_lookup_insert_ne.
Qed.

Lemma invoke_skeleton i p :
  process_keeps_ids K →
  skeleton (p_nodes (invoke K i p)) = skeleton (p_nodes p).
Proof.
  intros HK. unfold invoke. destruct (p_nodes p !! i) as [n|] eqn:Hn; [|done].
  specialize (HK n (p_store p)). destruct (process K _ _). simpl in *.
  by eapply skeleton_insert.
Qed.

(** [processNode] either finds its node processed or runs [exec]. *)
Lemma processNode_exec fuel i p p' :
  processNode K fuel conns i p = Some p' →
  (i ∈ p_processed p ∧ p' = p) ∨
  ((i ∉ p_processed p) ∧ exec K conns i conns p p').
Proof.
  revert i p p'. induction fuel as [|fuel IH]; intros i p p' H; [done|].
  simpl in H. case_decide as Hi; [left; split; congruence|].
  right. split; [done|].
  destruct (forEach _ conns p) as [q|] eqn:E; [|done].
  injection H as <-.
  clear Hi. revert p E.
  cut (∀ cs p, forEach (dependency (processNode K fuel conns) i) cs p = Some q →
               exec K conns i cs p (invoke K i q)); [by auto|].
  induction cs as [|c cs IHcs]; intros p E; simpl in E.
  - injection E as <-. constructor.
  - rewrite dependency_edge in E.
    destruct (edge (p_nodes p) i c) as [j|] eqn:He.
    + destruct (processNode K fuel conns j p) as [p1|] eqn:Hj; [|done].
      destruct (IH _ _ _ Hj) as [[Hin ->]|[Hnin Hex]].
      * eapply exec_ready; [done..|]. by apply IHcs.
      * eapply exec_wait; [done..|]. by apply IHcs.
    + apply exec_skip; [done|]. by apply IHcs.
Qed.

(** A relation that holds across [copyPin] and across [process()] holds
    across [processNode]. *)
Lemma exec_rel (R : relation Pass) :
  Reflexive R → Transitive R →
  (∀ c i j p, R p (copyPin c i j p)) →
  (∀ i p, R p (invoke K i p)) →
  ∀ i cs p p', exec K conns i cs p p' → R p p'.
Proof.
  intros Hrefl Htrans Hcopy Hinv i cs p p' H.
  induction H; eauto.
Qed.

Lemma processNode_rel (R : relation Pass) :
  Reflexive R → Transitive R →
  (∀ c i j p, R p (copyPin c i j p)) →
  (∀ i p, R p (invoke K i p)) →
  ∀ fuel i p p', processNode K fuel conns i p = Some p' → R p p'.
Proof.
  intros Hrefl Htrans Hcopy Hinv fuel i p p' H.
  destruct (processNode_exec _ _ _ _ H) as [[_ ->]|[_ Hex]]; [done|].
  by eapply exec_rel.
Qed.

End Evaluator.

Lemma grows_refl p : grows p p.
Proof. by repeat split. Qed.

Lemma grows_trans p q r : grows p q → grows q r → grows p r.
Proof.
  intros (H1 & H2 & H3) (H4 & H5 & H6). repeat split.
  - congruence.
  - set_solver.
  - by etrans.
Qed.

Lemma copyPin_grows c i j p : grows p (copyPin c i j p).
Proof.
  repeat split.
  - apply copyPin_skeleton.
  - by rewrite copyPin_processed.
  - rewrite copyPin_trace. by apply prefix_app_r.
Qed.

Section Traversal.
Variable K : NodeClasses.
Variable conns : list Connection.
Hypothesis HK : process_keeps_ids K.

Lemma invoke_grows i p : grows p (invoke K i p).
Proof.
  repeat split.
  - by apply invoke_skeleton.
  - apply invoke_processed.
  - unfold invoke. destruct (p_nodes p !! i); [|done].
    destruct (process K _ _). simpl. by apply prefix_app_r.
Qed.

Lemma exec_grows i cs p p' : exec K conns i cs p p' → grows p p'.
Proof.
  apply exec_rel.
  - exact grows_refl.
  - exact grows_trans.
  - exact copyPin_grows.
  - exact invoke_grows.
Qed.

Lemma processNode_grows fuel i p p' :
  processNode K fuel conns i p = Some p' → grows p p'.
Proof.
  apply processNode_rel.
  - exact grows_refl.
  - exact grows_trans.
  - exact copyPin_grows.
  - exact invoke_grows.
Qed.

(** The node of a finished [processNode] is in the processed set. *)
Lemma exec_marks i cs p p' :
  exec K conns i cs p p' → i < length (p_nodes p) → i ∈ p_processed p'.
Proof.
  induction 1 as [i p|i c cs p p' He H IH|i c cs j p p' He Hj H IH
                  |i c cs j p p1 p' He Hj H1 IH1 H IH]; intros Hi.
  - apply lookup_lt_is_Some in Hi as [n Hn].
    rewrite (invoke_valid _ _ _ _ Hn). simpl. set_solver.
  - by apply IH.
  - apply IH. destruct (copyPin_grows c i j p) as (Hs & _).
    by rewrite (skeleton_length _ _ Hs).
  - apply IH. destruct (copyPin_grows c i j p1) as (Hs & _).
    destruct (exec_grows _ _ _ _ H1) as (Hs1 & _).
    by rewrite (skeleton_length _ _ Hs), (skeleton_length _ _ Hs1).
Qed.

Lemma processNode_marks fuel i p p' :
  processNode K fuel conns i p = Some p' →
  i < length (p_nodes p) → i ∈ p_processed p'.
Proof.
  intros H Hi.
  destruct (processNode_exec _ _ _ _ _ _ H) as [[? ->]|[_ Hex]]; [done|].
  by eapply exec_marks.
Qed.

(** ** What a nested call can reach *)

Variable ns0 : list BaseNode.

Local Abbreviation stable := (stable ns0).

Lemma grows_stable p p' : grows p p' → stable p → stable p'.
Proof. intros (H & _) Hp. unfold stable in *. congruence. Qed.

Lemma stable_edge p i c : stable p → edge (p_nodes p) i c = edge ns0 i c.
Proof. intros H. by apply edge_skeleton. Qed.

Lemma exec_reach i cs p p' :
  exec K conns i cs p p' → stable p → cs ⊆ conns →
  ∀ x, x ∈ p_processed p' →
       x ∈ p_processed p ∨ x = i ∨ tc (upstream ns0 conns) i x.
Proof.
  induction 1 as [i p|i c cs p p' He H IH|i c cs j p p' He Hj H IH
                  |i c cs j p p1 p' He Hj H1 IH1 H IH]; intros Hst Hcs x Hx.
  - apply invoke_processed in Hx. set_solver.
  - apply IH; [done| |done]. set_solver.
  - destruct (IH (grows_stable _ _ (copyPin_grows _ _ _ _) Hst)
                 ltac:(set_solver) x Hx) as [Hx'|Hx']; [|by right].
    left. by rewrite copyPin_processed in Hx'.
  - pose proof (grows_stable _ _ (exec_grows _ _ _ _ H1) Hst) as Hst1.
    destruct (IH (grows_stable _ _ (copyPin_grows _ _ _ _) Hst1)
                 ltac:(set_solver) x Hx) as [Hx'|Hx']; [|by right].
    rewrite copyPin_processed in Hx'.
    assert (upstream ns0 conns i j) as Hup.
    { apply upstream_edge. exists c. split; [set_solver|].
      by rewrite <- (stable_edge p). }
    destruct (IH1 Hst ltac:(done) x Hx') as [?|[->|?]].
    + by left.
    + right. right. by apply tc_once.
    + right. right. by eapply tc_l.
Qed.

(** In a graph without cycles a node that waits for its producers is
    not processed by them. *)
Lemma exec_waiting i j p p1 :
  (∀ x, ¬ tc (upstream ns0 conns) x x) →
  upstream ns0 conns i j →
  exec K conns j conns p p1 → stable p →
  i ∉ p_processed p → i ∉ p_processed p1.
Proof.
  intros Hacyc Hup H Hst Hi Hi1.
  destruct (exec_reach _ _ _ _ H Hst ltac:(done) i Hi1) as [?|[->|?]].
  - done.
  - apply (Hacyc j). by apply tc_once.
  - apply (Hacyc i). by eapply tc_l.
Qed.

Lemma edge_lt ns i c j : edge ns i c = Some j → i < length ns ∧ j < length ns.
Proof.
  unfold edge. destruct (ns !! i) as [n|] eqn:Hn; [|done].
  case_decide; [|done]. intros Hf. split.
  - by apply lookup_lt_Some in Hn.
  - by apply findNodeById_lt in Hf.
Qed.

Lemma stable_length p : stable p → length (p_nodes p) = length ns0.
Proof. apply skeleton_length. Qed.

(** Processed nodes, and nodes that a call does not process, are not
    touched. *)
Lemma exec_frame i cs p p' :
  (∀ x, ¬ tc (upstream ns0 conns) x x) →
  exec K conns i cs p p' → stable p → cs ⊆ conns →
  i < length ns0 → i ∉ p_processed p →
  ∀ x, x ∈ p_processed p ∨ x ∉ p_processed p' →
       p_nodes p' !! x = p_nodes p !! x.
Proof.
  intros Hacyc H.
  assert (∀ i cs p p', exec K conns i cs p p' → stable p → i < length ns0 →
          i ∉ p_processed p →
          ∀ x, x ∈ p_processed p ∨ x ∉ p_processed p' → x ≠ i) as Hne.
  { clear H. intros i0 cs0 q q' H Hst Hv Hi x [Hx|Hx] ->; [done|].
    apply Hx. eapply exec_marks; [done|]. by rewrite stable_length. }
  induction H as [i p|i c cs p p' He H IH|i c cs j p p' He Hj H IH
                  |i c cs j p p1 p' He Hj H1 IH1 H IH];
    intros Hst Hcs Hv Hi x Hx.
  - apply invoke_other. eapply Hne; [constructor|done..].
  - apply IH; [done|set_solver|done..].
  - pose proof (copyPin_grows c i j p) as Hg.
    assert (x ≠ i) as Hxi.
    { eapply Hne; [by eapply exec_ready|done..]. }
    trans (p_nodes (copyPin c i j p) !! x); [|by apply copyPin_other].
    apply IH.
    + by eapply grows_stable.
    + set_solver.
    + done.
    + by rewrite copyPin_processed.
    + by rewrite copyPin_processed.
  - pose proof (exec_grows _ _ _ _ H1) as Hg1.
    pose proof (copyPin_grows c i j p1) as Hg.
    pose proof (exec_grows _ _ _ _ H) as Hg'.
    pose proof (grows_stable _ _ Hg1 Hst) as Hst1.
    assert (x ≠ i) as Hxi.
    { eapply Hne; [by eapply exec_wait|done..]. }
    assert (upstream ns0 conns i j) as Hup.
    { apply upstream_edge. exists c. split; [set_solver|].
      by rewrite <- (stable_edge p). }
    assert (i ∉ p_processed p1) as Hi1 by by eapply exec_waiting.
    destruct Hg1 as (_ & Hsub1 & _), Hg as (_ & Hsub & _), Hg' as (_ & Hsub' & _).
    trans (p_nodes (copyPin c i j p1) !! x).
    { apply IH.
      - eapply grows_stable; [apply copyPin_grows|done].
      - set_solver.
      - done.
      - by rewrite copyPin_processed.
      - rewrite copyPin_processed. destruct Hx as [Hx|Hx]; [left|right]; set_solver. }
    rewrite copyPin_other by done.
    apply IH1; [done|done| |done|].
    + rewrite <- (stable_length p) by done. by apply edge_lt in He as [_ ?].
    + destruct Hx as [Hx|Hx]; [by left|right]. set_solver.
Qed.

End Traversal.

(* ================================================================== *)
(** * Proofs: termination *)
(* ================================================================== *)

Section Chains.
Variable ns : list BaseNode.
Variable conns : list Connection.

Lemma chain_valid l x : chain ns conns l → x ∈ l → x < length ns.
Proof.
  induction 1 as [i [n Hn]|i j l Hup Hc IH]; intros Hx.
  - apply list_elem_of_singleton in Hx as ->. by apply lookup_lt_Some in Hn.
  - apply elem_of_cons in Hx as [->|Hx]; [|by apply IH].
    by apply upstream_valid in Hup as [? _].
Qed.

Lemma chain_rtc l j x :
  chain ns conns (j :: l) → x ∈ j :: l → rtc (upstream ns conns) j x.
Proof.
  revert j. induction l as [|k l IH]; intros j Hc Hx.
  - apply list_elem_of_singleton in Hx as ->. done.
  - inversion Hc as [|? ? ? Hup Hc']; subst.
    apply elem_of_cons in Hx as [->|Hx]; [done|].
    eapply rtc_l; [done|]. by apply IH.
Qed.

Lemma chain_NoDup l :
  (∀ x, ¬ tc (upstream ns conns) x x) → chain ns conns l → NoDup l.
Proof.
  intros Hacyc. induction 1 as [i _|i j l Hup Hc IH].
  - apply NoDup_singleton.
  - apply NoDup_cons. split; [|done].
    intros Hi. apply (Hacyc i). eapply tc_rtc_r; [by apply tc_once|].
    by apply chain_rtc with l.
Qed.

Lemma chain_short l :
  (∀ x, ¬ tc (upstream ns conns) x x) → chain ns conns l →
  length l ≤ length ns.
Proof.
  intros Hacyc Hc.
  trans (length (seq 0 (length ns))); [|by rewrite length_seq].
  apply submseteq_length, NoDup_submseteq; [by apply chain_NoDup|].
  intros x Hx. apply elem_of_seq. split; [lia|].
  simpl. by eapply chain_valid.
Qed.

Lemma chain_mono conns' l :
  (∀ i j, upstream ns conns i j → upstream ns conns' i j) →
  chain ns conns l → chain ns conns' l.
Proof. intros Hm. induction 1; constructor; auto. Qed.

End Chains.

Section Termination.
Variable K : NodeClasses.
Variable conns : list Connection.
Hypothesis HK : process_keeps_ids K.
Variable ns0 : list BaseNode.

(** A node is evaluated within as many nested calls as the longest
    chain that starts at it has nodes. *)
Lemma processNode_terminates d i p :
  stable ns0 p → i < length ns0 →
  (∀ l, chain ns0 conns (i :: l) → length (i :: l) ≤ d) →
  ∃ p', processNode K d conns i p = Some p'.
Proof.
  revert i p. induction d as [|d IH]; intros i p Hst Hi Hd.
  - specialize (Hd [] (chain_one _ _ _ (lookup_lt_is_Some_2 _ _ Hi))).
    simpl in Hd. lia.
  - simpl. case_decide; [eauto|].
    cut (∀ cs q, cs ⊆ conns → stable ns0 q →
           ∃ q', forEach (dependency (processNode K d conns) i) cs q = Some q').
    { intros Hloop. destruct (Hloop conns p) as [q' ->]; eauto. }
    induction cs as [|c cs IHcs]; intros q Hcs Hq; simpl; [eauto|].
    rewrite dependency_edge, (stable_edge ns0) by done.
    destruct (edge ns0 i c) as [j|] eqn:He; [|apply IHcs; [set_solver|done]].
    assert (upstream ns0 conns i j) as Hup.
    { apply upstream_edge. exists c. split; [set_solver|done]. }
    destruct (IH j q) as [q1 Hq1]; [done|by apply edge_lt in He as [_ ?]| |].
    { intros l Hl. specialize (Hd (j :: l)). simpl in *.
      cut (S (S (length l)) ≤ S d); [lia|]. apply Hd. by constructor. }
    rewrite Hq1. apply IHcs; [set_solver|].
    eapply grows_stable; [apply copyPin_grows|].
    eapply grows_stable; [by eapply processNode_grows|done].
Qed.

(** ** The order of the calls *)

Local Abbreviation preceded := (preceded conns ns0).

Lemma preceded_app t u :
  preceded t → (∀ x, Processed x ∉ u) → preceded (t ++ u).
Proof.
  intros Ht Hu k x y Hk Hup.
  destruct (decide (k < length t)) as [Hlt|Hge].
  - rewrite lookup_app_l in Hk by done.
    destruct (Ht k x y Hk Hup) as (k' & ? & ?). exists k'. split; [done|].
    rewrite lookup_app_l by lia. done.
  - rewrite lookup_app_r in Hk by lia.
    exfalso. apply (Hu x). by eapply list_elem_of_lookup_2.
Qed.

Lemma preceded_snoc t i :
  preceded t →
  (∀ c j, c ∈ conns → edge ns0 i c = Some j → Processed j ∈ t) →
  preceded (t ++ [Processed i]).
Proof.
  intros Ht Hi k x y Hk Hup.
  destruct (decide (k < length t)) as [Hlt|Hge].
  - rewrite lookup_app_l in Hk by done.
    destruct (Ht k x y Hk Hup) as (k' & ? & ?). exists k'. split; [done|].
    rewrite lookup_app_l by lia. done.
  - rewrite lookup_app_r in Hk by lia.
    apply list_lookup_singleton_Some in Hk as [Hk [= <-]].
    apply upstream_edge in Hup as (c & Hc & He).
    apply Hi in He; [|done].
    apply list_elem_of_lookup_1 in He as [k' Hk'].
    exists k'. pose proof (lookup_lt_Some _ _ _ Hk'). split; [lia|].
    by rewrite lookup_app_l.
Qed.

Lemma copy_event_not_processed ns c i j x :
  Processed x ∉ option_list (copy_event ns c i j).
Proof.
  unfold copy_event. intros H.
  destruct (ns !! j) as [m|]; simpl in H; [|by apply elem_of_nil in H].
  destruct (ns !! i) as [n|]; simpl in H; [|by apply elem_of_nil in H].
  destruct (findPinIndex (outputs m) _) as [oi|]; simpl in H; [|by apply elem_of_nil in H].
  destruct (findPinIndex (inputs n) _) as [ii|]; simpl in H; [|by apply elem_of_nil in H].
  destruct (outputs m !! oi) as [src|]; simpl in H; [|by apply elem_of_nil in H].
  destruct (Mat_empty (pin_data src)); simpl in H; [by apply elem_of_nil in H|].
  by apply list_elem_of_singleton in H.
Qed.

Lemma copyPin_logged c i j p : logged p → logged (copyPin c i j p).
Proof.
  intros H x. rewrite copyPin_processed, copyPin_trace, elem_of_app, (H x).
  pose proof (copy_event_not_processed (p_nodes p) c i j x). tauto.
Qed.

Lemma exec_trace i cs p p' :
  exec K conns i cs p p' → stable ns0 p → cs ⊆ conns → i < length ns0 →
  logged p → preceded (p_trace p) →
  ∃ t, p_trace p' = p_trace p ++ t ++ [Processed i] ∧
       logged p' ∧ preceded (p_trace p ++ t) ∧
       ∀ c j, c ∈ cs → edge ns0 i c = Some j → Processed j ∈ p_trace p ++ t.
Proof.
  induction 1 as [i p|i c cs p p' He H IH|i c cs j p p' He Hj H IH
                  |i c cs j p p1 p' He Hj H1 IH1 H IH];
    intros Hst Hcs Hv Hlog Hpre.
  - exists []. rewrite app_nil_r.
    rewrite <- (stable_length ns0 p) in Hv by done.
    apply lookup_lt_is_Some in Hv as [n Hn].
    rewrite (invoke_valid _ _ _ _ Hn). simpl. split; [done|]. split; [|split].
    + intros x. simpl. split.
      * intros [Hx|Hx]%elem_of_union; apply elem_of_app.
        -- apply elem_of_singleton in Hx as ->. right. by left.
        -- left. by apply Hlog.
      * intros [Hx|Hx]%elem_of_app; apply elem_of_union.
        -- right. by apply Hlog.
        -- apply list_elem_of_singleton in Hx as [= ->]. left. set_solver.
    + done.
    + intros c j Hc. by apply elem_of_nil in Hc.
  - destruct IH as (t & Ht & Hlog' & Hpre' & Hdeps); [done|set_solver|done..|].
    exists t. split; [done|]. split; [done|]. split; [done|].
    intros c' j [->|Hc]%elem_of_cons; [|by apply Hdeps].
    rewrite <- (stable_edge ns0 p) by done. congruence.
  - destruct IH as (t & Ht & Hlog' & Hpre' & Hdeps).
    { eapply grows_stable; [apply copyPin_grows|done]. }
    { set_solver. }
    { done. }
    { by apply copyPin_logged. }
    { rewrite copyPin_trace. apply preceded_app; [done|].
      intros x. apply copy_event_not_processed. }
    rewrite copyPin_trace in *.
    exists (option_list (copy_event (p_nodes p) c i j) ++ t).
    rewrite !app_assoc in *. split; [done|]. split; [done|]. split; [done|].
    intros c' j' [->|Hc]%elem_of_cons; [|by apply Hdeps].
    rewrite <- (stable_edge ns0 p) by done. rewrite He. intros [= <-].
    rewrite <- app_assoc, elem_of_app. left. by apply Hlog.
  - destruct IH1 as (t1 & Ht1 & Hlog1 & Hpre1 & Hdeps1); [done..| |done|done|].
    { rewrite <- (stable_length ns0 p) by done. by apply edge_lt in He as [_ ?]. }
    assert (stable ns0 p1) as Hst1.
    { eapply grows_stable; [by eapply exec_grows|done]. }
    destruct IH as (t & Ht & Hlog' & Hpre' & Hdeps).
    { eapply grows_stable; [apply copyPin_grows|done]. }
    { set_solver. }
    { done. }
    { by apply copyPin_logged. }
    { rewrite copyPin_trace. apply preceded_app.
      - rewrite Ht1, app_assoc. by apply preceded_snoc.
      - intros x. apply copy_event_not_processed. }
    rewrite copyPin_trace, Ht1 in *.
    exists (t1 ++ [Processed j] ++ option_list (copy_event (p_nodes p1) c i j) ++ t).
    rewrite <- !app_assoc in *. split; [done|]. split; [done|]. split; [done|].
    intros c' j' [->|Hc]%elem_of_cons; [|by apply Hdeps].
    rewrite <- (stable_edge ns0 p) by done. rewrite He. intros [= <-].
    rewrite !elem_of_app, list_elem_of_singleton. auto.
Qed.

End Termination.

Lemma tc_subrel {A} (R1 R2 : relation A) x y :
  (∀ a b, R1 a b → R2 a b) → tc R1 x y → tc R2 x y.
Proof.
  intros Hsub. induction 1.
  - apply tc_once. auto.
  - eapply tc_l; eauto.
Qed.

Section Pass.
Variable K : NodeClasses.
Hypothesis HK : process_keeps_ids K.
Variable e : NodeEditor.

Local Abbreviation ns0 := (nodes e).
Local Abbreviation conns := (prune (nodes e) (connections e)).

Lemma start_stable : stable ns0 (start_pass e).
Proof. done. Qed.

Lemma acyclic_pruned :
  acyclic e → ∀ x, ¬ tc (upstream ns0 conns) x x.
Proof.
  intros Hacyc x Hx. apply (Hacyc x).
  eapply tc_subrel; [|done]. intros a b. apply upstream_prune.
Qed.

Lemma pass_grows fuel p :
  processGraph_pass K fuel e = Some p → grows (start_pass e) p.
Proof.
  unfold processGraph_pass. intros H.
  eapply (forEach_inv (grows (start_pass e))); [|apply grows_refl|exact H].
  intros i q q' _ Hq Hi. apply (grows_trans _ q); [done|].
  by eapply processNode_grows.
Qed.

Lemma pass_stable fuel p :
  processGraph_pass K fuel e = Some p → stable ns0 p.
Proof. intros H. eapply grows_stable; [by eapply pass_grows|done]. Qed.

(** A finished pass has processed every node. *)
Lemma pass_complete fuel p i :
  processGraph_pass K fuel e = Some p → i < length ns0 → i ∈ p_processed p.
Proof.
  unfold processGraph_pass. intros H Hi.
  assert (i ∈ seq 0 (length ns0)) as Hin by (apply elem_of_seq; lia).
  revert H Hin. generalize (start_stable). generalize (start_pass e).
  induction (seq 0 (length ns0)) as [|x xs IH]; intros q Hq H Hin.
  - by apply elem_of_nil in Hin.
  - simpl in H. destruct (processNode K fuel conns x q) as [q1|] eqn:E; [|done].
    assert (stable ns0 q1) as Hq1.
    { eapply grows_stable; [by eapply processNode_grows|done]. }
    apply elem_of_cons in Hin as [->|Hin]; [|by eapply IH].
    assert (x ∈ p_processed q1) as Hx.
    { eapply processNode_marks; [done..|]. by rewrite (stable_length ns0). }
    eapply (forEach_inv (λ r, x ∈ p_processed r)); [|exact Hx|exact H].
    intros y r r' _ Hr Hy.
    apply (processNode_grows _ _ HK) in Hy as (_ & ? & _). set_solver.
Qed.

(** Along a finished pass every call of [process()] comes after the
    calls for the upstream producers. *)
Lemma pass_ordered fuel p :
  processGraph_pass K fuel e = Some p →
  logged p ∧ preceded conns ns0 (p_trace p).
Proof.
  unfold processGraph_pass. intros H.
  cut (stable ns0 p ∧ logged p ∧ preceded conns ns0 (p_trace p)); [tauto|].
  eapply (forEach_inv (λ q, stable ns0 q ∧ logged q ∧ preceded conns ns0 (p_trace q)));
    [| |exact H].
  - intros i q q' Hi (Hst & Hlog & Hpre) Hq.
    destruct (processNode_exec _ _ _ _ _ _ Hq) as [[_ ->]|[_ Hex]]; [done|].
    apply elem_of_seq in Hi.
    destruct (exec_trace K conns HK ns0 _ _ _ _ Hex) as (t & Ht & ? & ? & Hdeps);
      [done..|lia|done|done|].
    split; [|split; [done|]].
    + eapply grows_stable; [by eapply exec_grows|done].
    + rewrite Ht, app_assoc. by apply preceded_snoc.
  - split; [done|]. split.
    + intros x. simpl. split; [set_solver|]. by intros ?%elem_of_nil.
    + intros k x y Hk. done.
Qed.

Lemma preceded_acyclic t k x :
  preceded conns ns0 t → t !! k = Some (Processed x) →
  ¬ tc (upstream ns0 conns) x x.
Proof.
  intros Hpre.
  assert (∀ k x z, t !! k = Some (Processed x) → tc (upstream ns0 conns) x z →
                   ∃ k', k' < k ∧ t !! k' = Some (Processed z)) as Hdown.
  { clear k x. intros k. induction (lt_wf k) as [k _ IH]. intros x z Hk Hxz.
    inversion Hxz as [? ? Hup|? y ? Hup Hyz]; subst.
    - by eapply Hpre.
    - destruct (Hpre _ _ _ Hk Hup) as (k1 & Hlt & Hk1).
      destruct (IH k1 Hlt y z Hk1 Hyz) as (k2 & ? & ?).
      exists k2. split; [lia|done]. }
  revert x. induction (lt_wf k) as [k _ IH]. intros x Hk Hxx.
  destruct (Hdown _ _ _ Hk Hxx) as (k' & Hlt & Hk').
  by apply (IH k' Hlt x).
Qed.

(** Only a graph without cycles lets a pass finish. *)
Lemma pass_acyclic fuel p : processGraph_pass K fuel e = Some p → acyclic e.
Proof.
  intros H i Hi.
  assert (tc (upstream ns0 conns) i i) as Hi'.
  { eapply tc_subrel; [|done]. intros a b. apply upstream_prune. }
  assert (i < length ns0) as Hv.
  { inversion Hi as [? ? Hup|? ? ? Hup _]; by apply upstream_valid in Hup as [? _]. }
  destruct (pass_ordered _ _ H) as [Hlog Hpre].
  pose proof (pass_complete _ _ _ H Hv) as Hp.
  apply Hlog, list_elem_of_lookup_1 in Hp as [k Hk].
  by eapply preceded_acyclic.
Qed.

Lemma pass_terminates d :
  chains_within e d → ∃ p, processGraph_pass K d e = Some p.
Proof.
  intros Hd. unfold processGraph_pass.
  destruct (forEach_is_Some (stable ns0) (processNode K d conns)
              (seq 0 (length ns0)) (start_pass e)) as (p & Hp & _); [|done|eauto].
  intros i q Hi Hq. apply elem_of_seq in Hi.
  destruct (processNode_terminates K conns HK ns0 d i q) as [q' Hq']; [done|lia| |].
  - intros l Hl. apply Hd. eapply chain_mono; [|done].
    intros a b. apply upstream_prune.
  - exists q'. split; [done|].
    eapply grows_stable; [by eapply processNode_grows|done].
Qed.

End Pass.

(** C2 (termination): when no dependency chain of the graph has more than
    [d] nodes, the pass finishes within [d] nested calls of [processNode];
    in a graph without cycles no chain has more nodes than the graph; and
    on a graph with a cycle the pass does not finish, whatever the depth
    allowed. *)
Theorem evaluation_terminates (K : NodeClasses) (e : NodeEditor) :
  process_keeps_ids K →
  (∀ d, chains_within e d → is_Some (processGraph K d e)) ∧
  (acyclic e → chains_within e (length (nodes e))) ∧
  (¬ acyclic e → ∀ fuel, processGraph K fuel e = None).
Proof.
  intros HK. split; [|split].
  - intros d Hd. destruct (pass_terminates K HK e d Hd) as [p Hp].
    unfold processGraph. rewrite Hp. done.
  - intros Hacyc l Hl. by eapply chain_short.
  - intros Hcyc fuel. unfold processGraph.
    destruct (processGraph_pass K fuel e) as [p|] eqn:Hp; [|done].
    exfalso. apply Hcyc. by eapply pass_acyclic.
Qed.

(* ================================================================== *)
(** * Proofs: every node once, producers first *)
(* ================================================================== *)

Lemma copy_event_ext ns ns' c x j :
  skeleton ns = skeleton ns' → ns !! j = ns' !! j →
  copy_event ns c x j = copy_event ns' c x j.
Proof.
  intros Hs Hj. unfold copy_event. rewrite <- Hj.
  destruct (ns !! j) as [m|]; simpl; [|done].
  destruct (ns !! x) as [n|] eqn:Hn.
  - destruct (skeleton_lookup _ _ _ _ Hs Hn) as (n' & -> & Hsk). simpl.
    injection Hsk as _ Hin _.
    destruct (findPinIndex (outputs m) _); simpl; [|done].
    by rewrite (findPinIndex_ids _ _ _ Hin).
  - destruct (ns' !! x) as [n'|] eqn:Hn'; [|done].
    symmetry in Hs. destruct (skeleton_lookup _ _ _ _ Hs Hn') as (n & ? & _).
    congruence.
Qed.

Lemma copy_event_shape ns c x j ev :
  copy_event ns c x j = Some ev → ∃ ii oi, ev = Copied x ii j oi.
Proof.
  unfold copy_event. intros H.
  destruct (ns !! j) as [m|]; simpl in H; [|done].
  destruct (ns !! x) as [n|]; simpl in H; [|done].
  destruct (findPinIndex (outputs m) _) as [oi|]; simpl in H; [|done].
  destruct (findPinIndex (inputs n) _) as [ii|]; simpl in H; [|done].
  destruct (outputs m !! oi) as [src|]; simpl in H; [|done].
  destruct (Mat_empty (pin_data src)); [done|]. injection H as <-. eauto.
Qed.

Section Order.
Variable K : NodeClasses.
Variable conns : list Connection.
Hypothesis HK : process_keeps_ids K.
Variable ns0 : list BaseNode.
Hypothesis Hacyc : ∀ x, ¬ tc (upstream ns0 conns) x x.

Local Abbreviation placed := (placed ns0).
Local Abbreviation ordered := (ordered conns ns0).
Local Abbreviation post := (post conns ns0).

Lemma once_app t u : once t → (∀ x, Processed x ∉ u) → once (t ++ u).
Proof.
  intros Ht Hu k k' x Hk Hk'.
  destruct (decide (k < length t)) as [?|?];
    [|rewrite lookup_app_r in Hk by lia; apply list_elem_of_lookup_2 in Hk;
      by apply Hu in Hk].
  destruct (decide (k' < length t)) as [?|?];
    [|rewrite lookup_app_r in Hk' by lia; apply list_elem_of_lookup_2 in Hk';
      by apply Hu in Hk'].
  rewrite lookup_app_l in Hk, Hk' by done. by eapply Ht.
Qed.

Lemma once_snoc t i : once t → Processed i ∉ t → once (t ++ [Processed i]).
Proof.
  intros Ht Hi k k' x Hk Hk'.
  apply lookup_snoc_Some in Hk as [[? Hk]|[-> Hk]];
    apply lookup_snoc_Some in Hk' as [[? Hk']|[-> Hk']]; try done.
  - by eapply Ht.
  - injection Hk' as <-. apply list_elem_of_lookup_2 in Hk. done.
  - injection Hk as <-. apply list_elem_of_lookup_2 in Hk'. done.
Qed.

Lemma placed_unprocessed p x cs : logged p → x ∉ p_processed p → placed p x cs.
Proof.
  intros Hlog Hx c j ii oi kx _ _ _ Hk.
  apply list_elem_of_lookup_2, Hlog in Hk. done.
Qed.

(** What was established for a processed node stays. *)
Lemma placed_keep p q x cs :
  stable ns0 p → grows p q →
  (∀ y, y ∈ p_processed p → p_nodes q !! y = p_nodes p !! y) →
  logged p → preceded conns ns0 (p_trace p) → once (p_trace q) →
  cs ⊆ conns → x ∈ p_processed p → placed p x cs → placed q x cs.
Proof.
  intros Hst (Hsk & Hsub & [u Hu]) Hsame Hlog Hpre Honce Hcs Hx Hp.
  intros c j ii oi kx Hc He Hev Hkx.
  apply Hlog, list_elem_of_lookup_1 in Hx as [k0 Hk0].
  assert (kx = k0) as ->.
  { eapply Honce; [done|]. rewrite Hu. apply lookup_app_l_Some. done. }
  assert (upstream ns0 conns x j) as Hup.
  { apply upstream_edge. exists c. split; [set_solver|done]. }
  destruct (Hpre _ _ _ Hk0 Hup) as (k1 & Hlt & Hk1).
  assert (j ∈ p_processed p) as Hj.
  { apply Hlog. by eapply list_elem_of_lookup_2. }
  rewrite (copy_event_ext _ (p_nodes p)) in Hev; [|done|by apply Hsame].
  destruct (Hp c j ii oi k0 Hc He Hev Hk0) as (kj & kc & ? & ? & Hkj & Hkc).
  exists kj, kc. rewrite Hu. repeat split; try done.
  - by apply lookup_app_l_Some.
  - by apply lookup_app_l_Some.
Qed.

Lemma copyPin_ordered c i j p :
  i ∉ p_processed p → ordered p → ordered (copyPin c i j p).
Proof.
  intros Hi (Hst & Hlog & Hpre & Honce & Hpl).
  assert (once (p_trace (copyPin c i j p))) as Honce'.
  { rewrite copyPin_trace. apply once_app; [done|].
    intros x. apply copy_event_not_processed. }
  split; [|split; [|split; [|split]]].
  - eapply grows_stable; [apply copyPin_grows|done].
  - by apply copyPin_logged.
  - rewrite copyPin_trace. apply preceded_app; [done|].
    intros x. apply copy_event_not_processed.
  - done.
  - intros x. destruct (decide (x ∈ p_processed p)) as [Hx|Hx].
    + eapply (placed_keep p); try done.
      * apply copyPin_grows.
      * intros y Hy. apply copyPin_other. by intros ->.
    + apply placed_unprocessed; [by apply copyPin_logged|].
      by rewrite copyPin_processed.
Qed.

Lemma ready_step i c cs j p p' :
  edge (p_nodes p) i c = Some j → j ∈ p_processed p →
  exec K conns i cs (copyPin c i j p) p' →
  c :: cs ⊆ conns → i < length ns0 → i ∉ p_processed p → ordered p →
  (ordered (copyPin c i j p) → post i cs p') →
  post i (c :: cs) p'.
Proof.
  intros He Hj Hex Hcs Hv Hi Hord IH.
  pose proof (copyPin_ordered c i j p Hi Hord) as Hq.
  destruct (IH Hq) as (Honce' & Hothers & Hmine).
  split; [done|]. split; [done|].
  destruct Hord as (Hst & Hlog & Hpre & Honce & Hpl).
  destruct Hq as (Hstq & Hlogq & Hpreq & Honceq & Hplq).
  intros c' j' ii oi kx [->|Hc']%elem_of_cons He' Hev Hkx;
    [|by eapply Hmine].
  rewrite <- (stable_edge ns0 p), He in He' by done. injection He' as <-.
  assert (j ≠ i) as Hji by (by intros ->).
  pose proof (exec_grows K conns HK _ _ _ _ Hex) as (Hsk' & Hsub' & [t' Ht']).
  assert (p_nodes p' !! j = p_nodes p !! j) as Hsame.
  { rewrite <- (copyPin_other c i j p j) by done.
    eapply (exec_frame K conns HK ns0); try done.
    - set_solver.
    - by rewrite copyPin_processed.
    - left. by rewrite copyPin_processed. }
  rewrite (copy_event_ext _ (p_nodes p)) in Hev; [|  |done].
  2: { rewrite Hsk'. apply copyPin_skeleton. }
  rewrite copyPin_trace, Hev in Ht'. simpl in Ht'.
  apply Hlog, list_elem_of_lookup_1 in Hj as [kj Hkj].
  pose proof (lookup_lt_Some _ _ _ Hkj) as Hlt.
  exists kj, (length (p_trace p)). split; [done|]. split; [|split].
  - destruct (decide (length (p_trace p) < kx)) as [|Hge]; [done|].
    exfalso. apply Hi, Hlog.
    rewrite Ht', <- app_assoc in Hkx.
    destruct (decide (kx < length (p_trace p))).
    + rewrite lookup_app_l in Hkx by done. by eapply list_elem_of_lookup_2.
    + assert (kx = length (p_trace p)) as -> by lia.
      rewrite lookup_app_r, Nat.sub_diag in Hkx by lia. done.
  - rewrite Ht', <- app_assoc. by apply lookup_app_l_Some.
  - rewrite Ht', <- app_assoc, lookup_app_r, Nat.sub_diag by lia. done.
Qed.

Lemma exec_post i cs p p' :
  exec K conns i cs p p' →
  cs ⊆ conns → i < length ns0 → i ∉ p_processed p → ordered p →
  post i cs p'.
Proof.
  induction 1 as [i p|i c cs p p' He H IH|i c cs j p p' He Hj H IH
                  |i c cs j p p1 p' He Hj H1 IH1 H IH];
    intros Hcs Hv Hi Hord.
  - destruct Hord as (Hst & Hlog & Hpre & Honce & Hpl).
    destruct (exec_trace K conns HK ns0 _ _ _ _ (exec_invoke K conns i p))
      as (t & Ht & Hlog' & _); [done..|].
    pose proof (invoke_grows K HK i p) as Hg.
    rewrite <- (stable_length ns0 p) in Hv by done.
    apply lookup_lt_is_Some in Hv as [n Hn].
    assert (once (p_trace (invoke K i p))) as Honce'.
    { rewrite (invoke_valid _ _ _ _ Hn). simpl. apply once_snoc; [done|].
      by intros ?%Hlog. }
    split; [done|]. split.
    + intros x Hx. destruct (decide (x ∈ p_processed p)) as [Hxp|Hxp].
      * eapply (placed_keep p); try done.
        intros y Hy. apply invoke_other. by intros ->.
      * apply placed_unprocessed; [done|].
        rewrite (invoke_valid _ _ _ _ Hn). simpl. set_solver.
    + intros c j ii oi kx Hc. by apply elem_of_nil in Hc.
  - destruct IH as (Honce' & Hothers & Hmine); [set_solver|done..|].
    split; [done|]. split; [done|].
    intros c' j' ii oi kx [->|Hc']%elem_of_cons He'; [|by eapply Hmine].
    destruct Hord as (Hst & _).
    rewrite <- (stable_edge ns0 p) in He' by done. congruence.
  - eapply ready_step; try done.
    intros Hq. apply IH; [set_solver|done| |done].
    by rewrite copyPin_processed.
  - destruct Hord as (Hst & Hlog & Hpre & Honce & Hpl).
    assert (j < length ns0) as Hvj.
    { rewrite <- (stable_length ns0 p) by done. by apply edge_lt in He as [_ ?]. }
    assert (upstream ns0 conns i j) as Hup.
    { apply upstream_edge. exists c. split; [set_solver|].
      by rewrite <- (stable_edge ns0 p). }
    destruct IH1 as (Honce1 & Hothers1 & Hmine1); [done..|].
    destruct (exec_trace K conns HK ns0 _ _ _ _ H1)
      as (t1 & Ht1 & Hlog1 & Hpre1 & Hdeps1); [done..|].
    assert (stable ns0 p1) as Hst1.
    { eapply grows_stable; [by eapply exec_grows|done]. }
    assert (i ∉ p_processed p1) as Hi1 by by eapply exec_waiting.
    assert (ordered p1) as Hord1.
    { split; [done|]. split; [done|]. split; [|split; [done|]].
      - rewrite Ht1, app_assoc. by apply preceded_snoc.
      - intros x. destruct (decide (x = j)) as [->|?]; auto. }
    eapply (ready_step i c cs j p1); try done.
    + by rewrite (stable_edge ns0), <- (stable_edge ns0 p).
    + eapply exec_marks; [done..|]. by rewrite (stable_length ns0).
    + intros Hq. apply IH; [set_solver|done| |done].
      by rewrite copyPin_processed.
Qed.

Lemma exec_ordered i p p' :
  exec K conns i conns p p' → i < length ns0 → i ∉ p_processed p →
  ordered p → ordered p'.
Proof.
  intros Hex Hv Hi Hord.
  destruct (exec_post _ _ _ _ Hex) as (Honce' & Hothers & Hmine); [done..|].
  destruct Hord as (Hst & Hlog & Hpre & Honce & Hpl).
  destruct (exec_trace K conns HK ns0 _ _ _ _ Hex)
    as (t & Ht & Hlog' & Hpre' & Hdeps); [done..|].
  split; [|split; [done|split; [|split; [done|]]]].
  - eapply grows_stable; [by eapply exec_grows|done].
  - rewrite Ht, app_assoc. by apply preceded_snoc.
  - intros x. destruct (decide (x = i)) as [->|?]; auto.
Qed.

End Order.

Section PassOrder.
Variable K : NodeClasses.
Hypothesis HK : process_keeps_ids K.
Variable e : NodeEditor.
Hypothesis Hacyc : acyclic e.

Local Abbreviation ns0 := (nodes e).
Local Abbreviation conns := (prune (nodes e) (connections e)).

Lemma start_ordered : ordered conns ns0 (start_pass e).
Proof.
  split; [done|]. split; [|split; [|split]].
  - intros x. simpl. split; [set_solver|]. by intros ?%elem_of_nil.
  - intros k x y Hk. done.
  - intros k k' x Hk. done.
  - intros x c j ii oi kx _ _ _ Hk. done.
Qed.

Lemma pass_ordered_once fuel p :
  processGraph_pass K fuel e = Some p → ordered conns ns0 p.
Proof.
  unfold processGraph_pass. intros H.
  eapply (forEach_inv (ordered conns ns0)); [|apply start_ordered|exact H].
  intros i q q' Hi Hq Hstep. apply elem_of_seq in Hi.
  destruct (processNode_exec _ _ _ _ _ _ Hstep) as [[_ ->]|[Hni Hex]]; [done|].
  eapply (exec_ordered K conns HK ns0); try done.
  - by apply acyclic_pruned.
  - lia.
Qed.

End PassOrder.

(* ================================================================== *)
(** * Proofs: what a pass leaves alone *)
(* ================================================================== *)

Lemma label_skel n n' : label n' = label n → skel n' = skel n.
Proof.
  unfold label, skel. intros [= Hid _ Hin Hout]. rewrite Hid. f_equal; [f_equal|].
  - apply (f_equal (fmap (λ x : Z * string * bool, x.1.1))) in Hin.
    by rewrite <- !list_fmap_compose in Hin.
  - apply (f_equal (fmap (λ x : Z * string * bool, x.1.1))) in Hout.
    by rewrite <- !list_fmap_compose in Hout.
Qed.

Lemma process_writes_keeps_ids K : process_writes_outputs K → process_keeps_ids K.
Proof.
  intros HW n h. destruct (HW n h) as (H1 & H2 & H3 & H4).
  apply label_skel. unfold label. by rewrite H1, H2, H3, H4.
Qed.

Lemma label_set_input k m n : label (node_set_input k m n) = label n.
Proof.
  unfold label, node_set_input. simpl. f_equal. f_equal.
  apply list_eq. intros x. rewrite !list_lookup_fmap.
  destruct (decide (x = k)) as [->|Hne].
  - rewrite list_lookup_alter_eq. by destruct (inputs n !! k).
  - by rewrite list_lookup_alter_ne.
Qed.

Lemma labels_insert (ns : list BaseNode) i n n' :
  ns !! i = Some n → label n' = label n →
  label <$> <[i := n']> ns = label <$> ns.
Proof.
  intros H Hs. rewrite list_fmap_insert, Hs.
  apply list_insert_id. rewrite list_lookup_fmap, H. done.
Qed.

Section Frame.
Variable K : NodeClasses.
Hypothesis HW : process_writes_outputs K.

Lemma copyPin_labels c i j p : same_labels p (copyPin c i j p).
Proof.
  unfold same_labels.
  destruct (copyPin_nodes c i j p) as [->|(n & k & m & Hn & ->)]; [done|].
  eapply labels_insert; [done|]. apply label_set_input.
Qed.

Lemma invoke_labels i p : same_labels p (invoke K i p).
Proof.
  unfold same_labels, invoke. destruct (p_nodes p !! i) as [n|] eqn:Hn; [|done].
  destruct (HW n (p_store p)) as (H1 & H2 & H3 & H4).
  destruct (process K n (p_store p)) as [n' h']. simpl in *.
  eapply labels_insert; [done|]. unfold label. by rewrite H1, H2, H3, H4.
Qed.

Lemma pass_labels fuel e p :
  processGraph_pass K fuel e = Some p → label <$> p_nodes p = label <$> nodes e.
Proof.
  unfold processGraph_pass. intros H.
  eapply (forEach_inv (same_labels (start_pass e))); [|done|exact H].
  intros i q q' _ Hq Hstep. unfold same_labels in *. rewrite <- Hq.
  revert Hstep. apply (processNode_rel K _ (λ a b, same_labels a b)).
  - done.
  - intros a b c Hab Hbc. unfold same_labels in *. congruence.
  - apply copyPin_labels.
  - apply invoke_labels.
Qed.

End Frame.

(* ================================================================== *)
(** * Proofs: the hand-over of a buffer *)
(* ================================================================== *)

Lemma pixels_clone h l :
  l < length h →
  pixels (Mat_clone h (Some l)).2 (Mat_clone h (Some l)).1 = pixels h (Some l).
Proof.
  intros Hl. simpl. rewrite lookup_app_r, Nat.sub_diag by lia. simpl.
  apply lookup_lt_is_Some in Hl as [b Hb]. by rewrite Hb.
Qed.

Lemma pixels_clone_old h m l :
  l < length h → pixels (Mat_clone h m).2 (Some l) = pixels h (Some l).
Proof.
  intros Hl. destruct m as [l0|]; simpl; [|done]. by rewrite lookup_app_l.
Qed.

(** C5 (deep copy): when the pins of the connection resolve and the
    upstream buffer is not empty, [copyPin] gives the input pin a header
    on a new buffer with the pixels of the upstream buffer; a write
    through the input pin's header changes the pixels seen through no
    header that named a buffer before the copy, the upstream output pin's
    among them, which the copy has left as it was.  When the upstream
    buffer is empty, [copyPin] changes nothing. *)
Theorem copy_is_deep (conn : Connection) (i j : nat) (p : Pass)
    (node outNode : BaseNode) (ii oi : nat) (src : Pin) :
  p_nodes p !! i = Some node →
  p_nodes p !! j = Some outNode →
  findPinIndex (inputs node) (inputPin conn) = Some ii →
  findPinIndex (outputs outNode) (outputPin conn) = Some oi →
  outputs outNode !! oi = Some src →
  pin_allocated (p_store p) src →
  match pin_data src with
  | None => copyPin conn i j p = p
  | Some l =>
      ∃ node' dst l',
        p_nodes (copyPin conn i j p) !! i = Some node' ∧
        inputs node' !! ii = Some dst ∧
        outputs node' = outputs node ∧
        (∀ x, x ≠ i → p_nodes (copyPin conn i j p) !! x = p_nodes p !! x) ∧
        pin_data dst = Some l' ∧ l' ≠ l ∧
        pixels (p_store (copyPin conn i j p)) (Some l') = pixels (p_store p) (Some l) ∧
        ∀ l0 b, l0 < length (p_store p) →
          pixels (Mat_write (p_store (copyPin conn i j p)) (pin_data dst) b) (Some l0)
          = pixels (p_store p) (Some l0)
  end.
Proof.
  intros Hn Hm Hii Hoi Hsrc Hal.
  unfold copyPin. rewrite Hn, Hm, Hii, Hoi, Hsrc.
  destruct (pin_data src) as [l|] eqn:Hd; simpl; [|done].
  specialize (Hal l Hd).
  apply findPinIndex_Some in Hii as (old & Hold & _).
  exists (node_set_input ii (Some (length (p_store p))) node),
         (pin_set_data (Some (length (p_store p))) old), (length (p_store p)).
  split; [|split; [|split; [|split; [|split; [|split; [|split]]]]]].
  - apply list_lookup_insert_eq. by apply lookup_lt_Some in Hn.
  - simpl. by rewrite list_lookup_alter_eq, Hold.
  - done.
  - intros x Hx. by rewrite list_lookup_insert_ne.
  - done.
  - lia.
  - rewrite lookup_app_r, Nat.sub_diag by lia. simpl.
    apply lookup_lt_is_Some in Hal as [b Hb]. by rewrite Hb.
  - intros l0 b Hl0. simpl.
    rewrite list_lookup_insert_ne by lia. by rewrite lookup_app_l.
Qed.

(* ================================================================== *)
(** * Proofs: the connections stay valid *)
(* ================================================================== *)

Lemma has_pin_ids x pins : has_pin x pins ↔ x ∈ pin_id <$> pins.
Proof.
  unfold has_pin. rewrite Exists_exists, list_elem_of_fmap. naive_solver.
Qed.

Lemma node_ids_skel n n' : skel n = skel n' → node_ids n = node_ids n'.
Proof. unfold skel, node_ids. by intros [= -> -> ->]. Qed.

Lemma all_ids_skeleton ns ns' : skeleton ns = skeleton ns' → all_ids ns = all_ids ns'.
Proof.
  revert ns'. induction ns as [|n ns IH]; intros [|n' ns'] H; try done.
  injection H as H1 H2 H3 Hns. unfold all_ids in *. csimpl.
  rewrite (IH _ Hns). unfold node_ids. by rewrite H1, H2, H3.
Qed.

Lemma connection_ok_skeleton ns ns' c :
  skeleton ns = skeleton ns' → connection_ok ns c → connection_ok ns' c.
Proof.
  intros Hs (n & m & Hn & Hnid & Hnp & Hm & Hmid & Hmp).
  apply list_elem_of_lookup_1 in Hn as [kn Hn], Hm as [km Hm].
  destruct (skeleton_lookup _ _ _ _ Hs Hn) as (n' & Hn' & [= Hid1 Hin1 _]).
  destruct (skeleton_lookup _ _ _ _ Hs Hm) as (m' & Hm' & [= Hid2 _ Hout2]).
  exists n', m'. repeat split.
  - by eapply list_elem_of_lookup_2.
  - congruence.
  - apply has_pin_ids. rewrite Hin1. by apply has_pin_ids.
  - by eapply list_elem_of_lookup_2.
  - congruence.
  - apply has_pin_ids. rewrite Hout2. by apply has_pin_ids.
Qed.

Lemma connection_ok_mono ns ns' c :
  ns ⊆ ns' → connection_ok ns c → connection_ok ns' c.
Proof.
  intros Hsub (n & m & Hn & ? & ? & Hm & ? & ?). exists n, m.
  repeat split; try done; by apply Hsub.
Qed.

Lemma all_ids_app ns ns' : all_ids (ns ++ ns') = all_ids ns ++ all_ids ns'.
Proof. unfold all_ids. apply bind_app. Qed.

Lemma all_ids_middle A r B :
  NoDup (all_ids (A ++ r :: B)) →
  NoDup (all_ids (A ++ B)) ∧ ∀ x, x ∈ all_ids (A ++ B) → x ∈ all_ids (A ++ r :: B).
Proof.
  rewrite !all_ids_app. change (r :: B) with ([r] ++ B). rewrite all_ids_app.
  intros (H1 & H2 & H3)%NoDup_app.
  apply NoDup_app in H3 as (H4 & H5 & H6).
  split.
  - apply NoDup_app. split; [done|]. split; [|done].
    intros x Hx Hx'. apply (H2 x Hx). apply elem_of_app. by right.
  - intros x. rewrite !elem_of_app. tauto.
Qed.

Lemma all_ids_delete i ns :
  NoDup (all_ids ns) →
  NoDup (all_ids (delete i ns)) ∧ ∀ x, x ∈ all_ids (delete i ns) → x ∈ all_ids ns.
Proof.
  intros Hnd. destruct (ns !! i) as [r|] eqn:Hr.
  - pose proof (all_ids_middle (take i ns) r (drop (S i) ns)) as H.
    rewrite (take_drop_middle ns i r Hr), <- delete_take_drop in H. auto.
  - apply lookup_ge_None in Hr.
    rewrite delete_take_drop, take_ge, drop_ge, app_nil_r by lia. done.
Qed.

Lemma elem_of_delete_ne {A} (l : list A) i x :
  x ∈ l → l !! i ≠ Some x → x ∈ delete i l.
Proof.
  intros [k Hk]%list_elem_of_lookup_1 Hne.
  destruct (decide (k < i)).
  - apply (list_elem_of_lookup_2 _ k). by rewrite list_lookup_delete_lt.
  - assert (k ≠ i) by (intros ->; done).
    apply (list_elem_of_lookup_2 _ (k - 1)).
    rewrite list_lookup_delete_ge by lia.
    by replace (S (k - 1)) with k by lia.
Qed.

Lemma NoDup_node_ids ns : NoDup (all_ids ns) → NoDup (node_id <$> ns).
Proof.
  induction ns as [|n ns IH]; intros H; [constructor|].
  change (all_ids (n :: ns)) with (node_ids n ++ all_ids ns) in H.
  apply NoDup_app in H as (H1 & H2 & H3).
  csimpl. apply NoDup_cons. split; [|by apply IH].
  intros (m & Hid & Hm)%list_elem_of_fmap.
  apply (H2 (node_id n)).
  - unfold node_ids. by left.
  - unfold all_ids. apply list_elem_of_bind. exists m. split; [|done].
    rewrite Hid. unfold node_ids. by left.
Qed.

Section Invariant.
Variable K : NodeClasses.
Hypothesis HK : process_keeps_ids K.

Lemma processGraph_skeleton fuel e e' :
  processGraph K fuel e = Some e' → skeleton (nodes e') = skeleton (nodes e).
Proof.
  unfold processGraph. intros H.
  destruct (processGraph_pass K fuel e) as [p|] eqn:Hp; [|done].
  injection H as <-. simpl. by apply (pass_stable K HK e fuel).
Qed.

Lemma processGraph_ok fuel e e' :
  processGraph K fuel e = Some e' → graph_ok e → graph_ok e'.
Proof.
  intros H [[Hnd Hlt] Hc].
  pose proof (processGraph_skeleton _ _ _ H) as Hs.
  unfold processGraph in H.
  destruct (processGraph_pass K fuel e) as [p|] eqn:Hp; [|done].
  injection H as <-. simpl in *.
  split; [split|]; simpl.
  - by rewrite (all_ids_skeleton _ _ Hs).
  - by rewrite (all_ids_skeleton _ _ Hs).
  - intros c [_ Hin]%list_elem_of_filter.
    eapply connection_ok_skeleton; [symmetry; exact Hs|]. by apply Hc.
Qed.

Lemma addNode_ok T e : graph_ok e → graph_ok (addNode K T e).
Proof.
  intros [Hf Hc]. split; [by apply addNode_ids_fresh|].
  destruct (createNode K T) as [node|] eqn:Hcn.
  - destruct (addNode_known K T node e Hcn) as (n' & Hn & _ & _ & Hcs & _).
    rewrite Hn, Hcs. intros c Hin.
    eapply connection_ok_mono; [|by apply Hc]. set_solver.
  - unfold addNode. by rewrite Hcn.
Qed.

Lemma skeleton_alter (f : BaseNode → BaseNode) i ns :
  (∀ n, skel (f n) = skel n) → skeleton (alter f i ns) = skeleton ns.
Proof.
  intros Hf. unfold skeleton. apply list_eq. intros k.
  rewrite !list_lookup_fmap.
  destruct (decide (k = i)) as [->|].
  - rewrite list_lookup_alter_eq. destruct (ns !! i); simpl; [|done].
    by rewrite Hf.
  - by rewrite list_lookup_alter_ne.
Qed.

Lemma findNodeByPin_Some ns x b i :
  findNodeByPin ns x b = Some i →
  ∃ n, ns !! i = Some n ∧ has_pin x (if b then inputs n else outputs n).
Proof.
  unfold findNodeByPin. intros H.
  apply fmap_Some in H as ([i' n] & H & ->).
  apply list_find_Some in H as (? & ? & _). eauto.
Qed.

Lemma handleConnections_ok s t e : graph_ok e → graph_ok (handleConnections s t e).
Proof.
  intros [[Hnd Hlt] Hc]. unfold handleConnections.
  destruct (findNodeByPin (nodes e) s false) as [j|] eqn:Hj; [|done].
  destruct (findNodeByPin (nodes e) t true) as [i|] eqn:Hi; [|done].
  apply findNodeByPin_Some in Hj as (m & Hm & Hmp).
  apply findNodeByPin_Some in Hi as (n & Hn & Hnp).
  rewrite Hm, Hn.
  assert (skeleton (alter (node_set_dirty true) i
                      (alter (node_set_dirty true) j (nodes e)))
          = skeleton (nodes e)) as Hs.
  { rewrite !skeleton_alter; done. }
  split; [split|]; simpl.
  - by rewrite (all_ids_skeleton _ _ Hs).
  - by rewrite (all_ids_skeleton _ _ Hs).
  - intros c Hin. eapply connection_ok_skeleton; [symmetry; exact Hs|].
    apply elem_of_app in Hin as [Hin|Hin]; [by apply Hc|].
    apply list_elem_of_singleton in Hin as ->.
    exists n, m. simpl. repeat split; try done; by eapply list_elem_of_lookup_2.
Qed.

Lemma removeNode_ok fuel x e e' :
  removeNode K fuel x e = Some e' → graph_ok e → graph_ok e'.
Proof.
  unfold removeNode. intros H [[Hnd Hlt] Hc].
  destruct (findNodeById (nodes e) x) as [i|] eqn:Hi.
  - apply (processGraph_ok _ _ _ H).
    apply findNodeById_Some in Hi as (r & Hr & Hrid & _).
    destruct (all_ids_delete i (nodes e) Hnd) as [Hnd' Hsub].
    split; [split|]; simpl; [done|by auto|].
    intros c [Hne Hin]%list_elem_of_filter.
    destruct (Hc c Hin) as (n & m & Hn & Hnid & Hnp & Hm & Hmid & Hmp).
    exists n, m. repeat split; try done.
    + apply elem_of_delete_ne; [done|]. rewrite Hr. intros [= ->].
      apply Hne. left. congruence.
    + apply elem_of_delete_ne; [done|]. rewrite Hr. intros [= ->].
      apply Hne. right. congruence.
  - injection H as <-. split; [done|]. simpl.
    intros c [_ Hin]%list_elem_of_filter. by apply Hc.
Qed.

Lemma skel_clear_inputs x n :
  skel (node_set_inputs (clearInputPin x <$> inputs n) n) = skel n.
Proof.
  unfold skel. simpl. f_equal. f_equal.
  rewrite <- list_fmap_compose. apply list_fmap_ext. intros _ pin _.
  unfold clearInputPin. simpl. by case_decide.
Qed.

Lemma skel_clear_outputs x n :
  skel (node_set_outputs (clearOutputPin x <$> outputs n) n) = skel n.
Proof.
  unfold skel. simpl. f_equal.
  rewrite <- list_fmap_compose. apply list_fmap_ext. intros _ pin _.
  unfold clearOutputPin. simpl. by case_decide.
Qed.

Lemma unlink_skeleton k c e :
  skeleton (nodes (unlink k c e)) = skeleton (nodes e).
Proof.
  simpl. unfold clearOutputs, clearInputs.
  destruct (findNodeById (nodes e) (inputNode c)) as [i|];
    destruct (findNodeById _ (outputNode c)) as [j|];
    rewrite ?skeleton_alter; auto using skel_clear_inputs, skel_clear_outputs.
Qed.

Lemma deleteConnection_ok fuel idx e e' :
  deleteConnection K fuel idx e = Some e' → graph_ok e → graph_ok e'.
Proof.
  unfold deleteConnection. intros H Hok.
  case_decide; [by injection H as <-|].
  destruct (connections e !! Z.to_nat idx) as [c|] eqn:Hc; [|by injection H as <-].
  apply (processGraph_ok _ _ _ H).
  destruct Hok as [[Hnd Hlt] Hcs].
  pose proof (unlink_skeleton (Z.to_nat idx) c e) as Hs.
  split; [split|].
  - by rewrite (all_ids_skeleton _ _ Hs).
  - by rewrite (all_ids_skeleton _ _ Hs).
  - intros c' Hin. eapply connection_ok_skeleton; [symmetry; exact Hs|].
    apply Hcs. simpl in Hin. by eapply list_elem_of_delete_inv.
Qed.

Lemma run_ops_ok fuel ops e e' :
  run_ops K fuel ops e = Some e' → graph_ok e → graph_ok e'.
Proof.
  revert e. induction ops as [|op ops IH]; intros e H Hok; simpl in H.
  - by injection H as <-.
  - destruct (apply_op K fuel op e) as [e1|] eqn:Hop; [|done].
    apply (IH e1 H). destruct op; simpl in Hop.
    + injection Hop as <-. by apply addNode_ok.
    + by eapply removeNode_ok.
    + injection Hop as <-. by apply handleConnections_ok.
    + by eapply deleteConnection_ok.
Qed.

End Invariant.

Lemma clear_ok e : graph_ok (clear e).
Proof.
  split; [apply clear_ids_fresh|]. simpl. intros c Hc. by apply elem_of_nil in Hc.
Qed.

(** C3 (connection validity): after any sequence of [addNode], node
    removal, [handleConnections] and [deleteConnection] on a cleared
    editor, followed by a pass, no two nodes have the same id, and every
    connection names, as input node and as output node, the ids of nodes
    of the graph that have its input pin among their inputs and its output
    pin among their outputs. *)
Theorem connections_stay_valid (K : NodeClasses) (fuel : nat) (ops : list Op)
    (e0 e1 e2 : NodeEditor) :
  process_keeps_ids K →
  run_ops K fuel ops (clear e0) = Some e1 →
  processGraph K fuel e1 = Some e2 →
  NoDup (node_id <$> nodes e2) ∧
  ∀ conn, conn ∈ connections e2 → connection_ok (nodes e2) conn.
Proof.
  intros HK Hops Hpass.
  assert (graph_ok e2) as [[Hnd _] Hc].
  { eapply processGraph_ok; [done..|].
    eapply run_ops_ok; [done..|]. apply clear_ok. }
  split; [by apply NoDup_node_ids|done].
Qed.

(* ================================================================== *)
(** * Proofs: disconnecting *)
(* ================================================================== *)

Lemma copyPin_target c i j p :
  p_nodes (copyPin c i j p) = p_nodes p ∨
  ∃ n k m, p_nodes p !! i = Some n ∧
           findPinIndex (inputs n) (inputPin c) = Some k ∧
           p_nodes (copyPin c i j p) = <[i := node_set_input k m n]> (p_nodes p).
Proof.
  unfold copyPin.
  destruct (p_nodes p !! j) as [mj|] eqn:Hj; [|by left].
  destruct (p_nodes p !! i) as [n|] eqn:Hi; [|by left].
  destruct (findPinIndex (outputs mj) _) as [oi|]; [|by left].
  destruct (findPinIndex (inputs n) _) as [ii|] eqn:Hii; [|by left].
  destruct (outputs mj !! oi) as [src|]; [|by left].
  destruct (Mat_empty (pin_data src)); [by left|].
  destruct (Mat_clone _ _) as [m h']. right. simpl. eauto 10.
Qed.

Lemma edge_Some ns i c j :
  edge ns i c = Some j →
  ∃ n, ns !! i = Some n ∧ inputNode c = node_id n ∧
       findNodeById ns (outputNode c) = Some j.
Proof.
  unfold edge. destruct (ns !! i) as [n|]; [|done].
  case_decide; [|done]. eauto.
Qed.

Section InputFrame.
Variable K : NodeClasses.
Variable conns : list Connection.
Hypothesis HW : process_writes_outputs K.

Local Abbreviation untargeted := (untargeted conns).
Local Abbreviation keeps_inputs := (keeps_inputs conns).

Lemma untargeted_label n n' k :
  label n' = label n → untargeted n k → untargeted n' k.
Proof.
  intros Hl Hu c Hc Hid. apply label_skel in Hl as [= Hid' Hin _].
  rewrite (findPinIndex_ids _ (inputs n)) by done.
  apply Hu; [done|congruence].
Qed.

Lemma keeps_inputs_refl p : keeps_inputs p p.
Proof. split; [done|]. intros x n n' k H1 H2 _. congruence. Qed.

Lemma labels_lookup (ns ns' : list BaseNode) x n :
  label <$> ns' = label <$> ns → ns !! x = Some n →
  ∃ n', ns' !! x = Some n' ∧ label n' = label n.
Proof.
  intros H Hn.
  assert ((label <$> ns') !! x = Some (label n)) as H'.
  { rewrite H, list_lookup_fmap, Hn. done. }
  rewrite list_lookup_fmap in H'. apply fmap_Some in H' as (n' & ? & ?).
  eauto.
Qed.

Lemma keeps_inputs_trans p q r :
  keeps_inputs p q → keeps_inputs q r → keeps_inputs p r.
Proof.
  intros [Hl1 H1] [Hl2 H2]. split.
  - unfold same_labels in *. congruence.
  - intros x n n'' k Hn Hn'' Hu.
    destruct (labels_lookup _ _ _ _ Hl1 Hn) as (n' & Hn' & Hl).
    rewrite (H2 x n' n'' k), (H1 x n n' k); try done.
    by eapply untargeted_label.
Qed.

Lemma invoke_keeps_inputs i p : keeps_inputs p (invoke K i p).
Proof.
  split; [by apply invoke_labels|].
  intros x n n' k Hn Hn' _. unfold invoke in Hn'.
  destruct (p_nodes p !! i) as [ni|] eqn:Hi; [|congruence].
  destruct (HW ni (p_store p)) as (_ & _ & Hin & _).
  destruct (process K ni (p_store p)) as [ni' h']. simpl in *.
  destruct (decide (x = i)) as [->|Hne].
  - rewrite list_lookup_insert_eq in Hn' by by eapply lookup_lt_Some.
    injection Hn' as <-. congruence.
  - rewrite list_lookup_insert_ne in Hn' by done. congruence.
Qed.

Lemma copyPin_keeps_inputs c i j p n :
  c ∈ conns → p_nodes p !! i = Some n → inputNode c = node_id n →
  keeps_inputs p (copyPin c i j p).
Proof.
  intros Hc Hn Hid. split; [apply copyPin_labels|].
  intros x nx nx' k Hx Hx' Hu.
  destruct (copyPin_target c i j p) as [Heq|(n0 & k0 & m & Hn0 & Hk0 & Heq)];
    rewrite Heq in Hx'; [congruence|].
  assert (n0 = n) as -> by congruence.
  destruct (decide (x = i)) as [->|Hne].
  - rewrite list_lookup_insert_eq in Hx' by by eapply lookup_lt_Some.
    injection Hx' as <-. assert (nx = n) as -> by congruence.
    simpl. apply list_lookup_alter_ne. intros ->. by eapply Hu.
  - rewrite list_lookup_insert_ne in Hx' by done. congruence.
Qed.

Lemma exec_keeps_inputs i cs p p' :
  exec K conns i cs p p' → cs ⊆ conns → keeps_inputs p p'.
Proof.
  induction 1 as [i p|i c cs p p' He H IH|i c cs j p p' He Hj H IH
                  |i c cs j p p1 p' He Hj H1 IH1 H IH]; intros Hcs.
  - apply invoke_keeps_inputs.
  - apply IH. set_solver.
  - apply edge_Some in He as (n & Hn & Hid & _).
    eapply keeps_inputs_trans; [|apply IH; set_solver].
    eapply copyPin_keeps_inputs; [set_solver|done..].
  - apply edge_Some in He as (n & Hn & Hid & _).
    assert (conns ⊆ conns) as Hrefl by set_solver.
    specialize (IH1 Hrefl).
    destruct (labels_lookup _ _ _ _ (proj1 IH1) Hn) as (n1 & Hn1 & [= Hid1 _ _ _]).
    eapply keeps_inputs_trans; [exact IH1|].
    eapply keeps_inputs_trans; [|apply IH; set_solver].
    eapply copyPin_keeps_inputs; [set_solver|done|congruence].
Qed.

Lemma pass_keeps_inputs fuel e p :
  conns = prune (nodes e) (connections e) →
  processGraph_pass K fuel e = Some p → keeps_inputs (start_pass e) p.
Proof.
  intros Hconns H. unfold processGraph_pass in H. rewrite <- Hconns in H.
  eapply (forEach_inv (keeps_inputs (start_pass e)));
    [|apply keeps_inputs_refl|exact H].
  intros i q q' _ Hq Hstep. eapply keeps_inputs_trans; [exact Hq|].
  destruct (processNode_exec _ _ _ _ _ _ Hstep) as [[_ ->]|[_ Hex]].
  - apply keeps_inputs_refl.
  - by eapply exec_keeps_inputs.
Qed.

End InputFrame.

(** C9 (frame of a pass): a pass keeps the nodes in place with their ids
    and names, keeps the id, the name and the connected flag of every
    pin, keeps the id counter and the selection, keeps of the
    connections exactly those whose two node ids resolve, in their
    order, and leaves alone every input pin that no remaining connection
    resolves to; provided that [process()] writes nothing of its node
    but the buffers of the output pins and its own members. *)
Theorem pass_frame (K : NodeClasses) (fuel : nat) (e e' : NodeEditor) :
  process_writes_outputs K →
  processGraph K fuel e = Some e' →
  length (nodes e') = length (nodes e) ∧
  label <$> nodes e' = label <$> nodes e ∧
  currentId e' = currentId e ∧
  selectedNode e' = selectedNode e ∧
  connections e' = filter (isConnectionValid (nodes e)) (connections e) ∧
  connections e' `sublist_of` connections e ∧
  (∀ x n n' k, nodes e !! x = Some n → nodes e' !! x = Some n' →
               untargeted (connections e') n k →
               inputs n' !! k = inputs n !! k).
Proof.
  intros HW H. unfold processGraph in H.
  destruct (processGraph_pass K fuel e) as [p|] eqn:Hp; [|done].
  injection H as <-. simpl.
  destruct (pass_keeps_inputs K _ HW fuel e p eq_refl Hp) as [Hl Hin].
  split; [|split; [done|]].
  - by rewrite <- (length_fmap label), Hl, length_fmap.
  - repeat split; [apply sublist_filter|].
    intros x n n' k Hn Hn'. by apply (Hin x).
Qed.

Lemma ids_alter (f : BaseNode → BaseNode) (i : nat) (ns : list BaseNode) :
  (∀ n, node_id (f n) = node_id n) →
  node_id <$> alter f i ns = node_id <$> ns.
Proof.
  intros Hf. apply list_eq. intros k. rewrite !list_lookup_fmap.
  destruct (decide (k = i)) as [->|].
  - rewrite list_lookup_alter_eq. destruct (ns !! i); simpl; [|done]. by rewrite Hf.
  - by rewrite list_lookup_alter_ne.
Qed.

Lemma unlink_input_node k conn e i :
  findNodeById (nodes e) (inputNode conn) = Some i →
  ∃ n n1, nodes e !! i = Some n ∧ nodes (unlink k conn e) !! i = Some n1 ∧
          node_id n1 = inputNode conn ∧
          inputs n1 = clearInputPin (inputPin conn) <$> inputs n.
Proof.
  intros Hi. pose proof Hi as (n & Hn & Hid & _)%findNodeById_Some.
  exists n. simpl. unfold clearOutputs, clearInputs. rewrite Hi.
  destruct (findNodeById _ (outputNode conn)) as [j|].
  - destruct (decide (j = i)) as [->|Hne].
    + rewrite !list_lookup_alter_eq, Hn. simpl. eauto.
    + rewrite list_lookup_alter_ne, list_lookup_alter_eq, Hn by done. simpl. eauto.
  - rewrite list_lookup_alter_eq, Hn. simpl. eauto.
Qed.

Lemma unlink_output_node k conn e j :
  findNodeById (nodes e) (outputNode conn) = Some j →
  ∃ m m1, nodes e !! j = Some m ∧ nodes (unlink k conn e) !! j = Some m1 ∧
          outputs m1 = clearOutputPin (outputPin conn) <$> outputs m.
Proof.
  intros Hj. pose proof Hj as (m & Hm & Hid & _)%findNodeById_Some.
  exists m. simpl. unfold clearOutputs, clearInputs.
  destruct (findNodeById (nodes e) (inputNode conn)) as [i|].
  - rewrite (findNodeById_ids _ (nodes e)) by (by apply ids_alter).
    rewrite Hj, list_lookup_alter_eq.
    destruct (decide (i = j)) as [->|Hne].
    + rewrite list_lookup_alter_eq, Hm. simpl. eauto.
    + rewrite list_lookup_alter_ne, Hm by done. simpl. eauto.
  - rewrite Hj, list_lookup_alter_eq, Hm. simpl. eauto.
Qed.

Lemma prune_ids ns ns' conns :
  node_id <$> ns = node_id <$> ns' → prune ns conns = prune ns' conns.
Proof.
  intros H. unfold prune. apply list_filter_iff. intros c.
  unfold isConnectionValid. by rewrite !(findNodeById_ids ns ns').
Qed.

Lemma pin_label_lookup (pins pins' : list Pin) k pin' :
  pin_label <$> pins' = pin_label <$> pins → pins' !! k = Some pin' →
  ∃ pin, pins !! k = Some pin ∧ pin_label pin' = pin_label pin.
Proof.
  intros H Hk.
  assert ((pin_label <$> pins) !! k = Some (pin_label pin')) as H'.
  { rewrite <- H, list_lookup_fmap, Hk. done. }
  rewrite list_lookup_fmap in H'. apply fmap_Some in H' as (pin & ? & ?).
  eauto.
Qed.

Lemma chain_skeleton ns ns' conns l :
  skeleton ns = skeleton ns' → chain ns conns l → chain ns' conns l.
Proof.
  intros Hs. induction 1 as [i [n Hn]|i j l Hup Hc IH].
  - constructor. destruct (skeleton_lookup _ _ _ _ Hs Hn) as (n' & -> & _). done.
  - constructor; [|done]. by eapply upstream_skeleton.
Qed.

(** C6, as the code has it: an index out of range leaves the editor as
    it is.  For an index in range, the connections that remain are the
    others, pruned; the pins of the two resolved end nodes that carry the
    connection's pin ids have their connected flag off; and the input
    pin's buffer is empty unless a remaining connection names the same
    input node and input pin, in which case the pass that ends
    [deleteConnection] may have filled it again.  On a graph without
    cycles [deleteConnection] returns.  [process()] is assumed to write
    nothing of its node but output buffers and its own members. *)
Theorem disconnect_effect (K : NodeClasses) (fuel : nat) (idx : Z) (e : NodeEditor) :
  process_writes_outputs K →
  ((idx < 0 ∨ idx >= Z.of_nat (length (connections e)))%Z →
   deleteConnection K fuel idx e = Some e) ∧
  (acyclic e → is_Some (deleteConnection K (length (nodes e)) idx e)) ∧
  ∀ conn e',
    (0 <= idx)%Z → connections e !! Z.to_nat idx = Some conn →
    deleteConnection K fuel idx e = Some e' →
    connections e' = prune (nodes e) (delete (Z.to_nat idx) (connections e)) ∧
    (∀ i n pin,
        findNodeById (nodes e) (inputNode conn) = Some i →
        nodes e' !! i = Some n → pin ∈ inputs n → pin_id pin = inputPin conn →
        pin_connected pin = false ∧
        ((∀ c', c' ∈ connections e' →
                ¬ (inputNode c' = inputNode conn ∧ inputPin c' = inputPin conn)) →
         pin_data pin = None)) ∧
    (∀ j m pin,
        findNodeById (nodes e) (outputNode conn) = Some j →
        nodes e' !! j = Some m → pin ∈ outputs m → pin_id pin = outputPin conn →
        pin_connected pin = false).
Proof.
  intros HW. split.
  { intros Hout. unfold deleteConnection. by rewrite decide_True. }
  split.
  { intros Hacyc. unfold deleteConnection. case_decide; [done|].
    destruct (connections e !! Z.to_nat idx) as [conn|] eqn:Hconn; [|done].
    pose proof (process_writes_keeps_ids K HW) as HK.
    destruct (pass_terminates K HK (unlink (Z.to_nat idx) conn e)
                (length (nodes e))) as [p Hp].
    - intros l Hl. eapply (chain_short (nodes e) (connections e)); [done|].
      eapply chain_mono; [|eapply chain_skeleton; [|exact Hl]].
      + intros i j. apply upstream_mono. intros c Hc. simpl in Hc.
        by eapply list_elem_of_delete_inv.
      + apply unlink_skeleton.
    - unfold processGraph. by rewrite Hp. }
  intros conn e' Hpos Hconn H.
  unfold deleteConnection in H. rewrite Hconn in H.
  apply lookup_lt_Some in Hconn as Hlt.
  rewrite decide_False in H by lia.
  set (e1 := unlink (Z.to_nat idx) conn e) in *.
  unfold processGraph in H.
  destruct (processGraph_pass K fuel e1) as [p|] eqn:Hp; [|done].
  injection H as <-.
  assert (prune (nodes e1) (connections e1)
          = prune (nodes e) (delete (Z.to_nat idx) (connections e))) as Hpr.
  { apply prune_ids, skeleton_ids, unlink_skeleton. }
  destruct (pass_keeps_inputs K _ HW fuel e1 p eq_refl Hp) as [Hl Hin].
  unfold same_labels in Hl. simpl in Hl.
  split; [done|]. split.
  - intros i n pin Hi Hn [k Hk]%list_elem_of_lookup_1 Hid.
    destruct (unlink_input_node (Z.to_nat idx) conn e i Hi)
      as (n0 & n1 & Hn0 & Hn1 & Hid1 & Hins). fold e1 in Hn1.
    destruct (labels_lookup _ _ _ _ Hl Hn1) as (n' & Hn' & [= _ _ Hlin _]).
    simpl in Hn, Hn'. assert (n' = n) as -> by congruence.
    destruct (pin_label_lookup _ _ _ _ Hlin Hk) as (pin1 & Hk1 & [= Hpid _ Hpc]).
    rewrite Hins, list_lookup_fmap in Hk1.
    apply fmap_Some in Hk1 as (pin0 & Hk0 & ->).
    unfold clearInputPin in Hpid, Hpc |- *.
    case_decide as Hd; simpl in *; [|congruence].
    split; [done|]. intros Hfree.
    assert (inputs n !! k = inputs n1 !! k) as Hsame.
    { apply (Hin i n1 n k Hn1 Hn). intros c' Hc' Hcid Hfind.
      apply (Hfree c'); [exact Hc'|].
      split; [congruence|].
      apply findPinIndex_Some in Hfind as (pin' & Hk' & <-).
      rewrite Hins, list_lookup_fmap, Hk0 in Hk'. injection Hk' as <-.
      unfold clearInputPin. rewrite decide_True by done. done. }
    rewrite Hk, Hins, list_lookup_fmap, Hk0 in Hsame. injection Hsame as ->.
    unfold clearInputPin. rewrite decide_True by done. done.
  - intros j m pin Hj Hm [k Hk]%list_elem_of_lookup_1 Hid.
    destruct (unlink_output_node (Z.to_nat idx) conn e j Hj)
      as (m0 & m1 & Hm0 & Hm1 & Houts). fold e1 in Hm1.
    destruct (labels_lookup _ _ _ _ Hl Hm1) as (m' & Hm' & [= _ _ _ Hlout]).
    simpl in Hm, Hm'. assert (m' = m) as -> by congruence.
    destruct (pin_label_lookup _ _ _ _ Hlout Hk) as (pin1 & Hk1 & [= Hpid _ Hpc]).
    rewrite Houts, list_lookup_fmap in Hk1.
    apply fmap_Some in Hk1 as (pin0 & Hk0 & ->).
    unfold clearOutputPin in Hpid, Hpc.
    case_decide as Hd; simpl in *; congruence.
Qed.

(* ================================================================== *)
(** * Proofs: buffers as values *)
(* ================================================================== *)

Lemma allocated_mono h h' pin :
  h `prefix_of` h' → pin_allocated h pin → pin_allocated h' pin.
Proof.
  intros Hp Ha l Hl. apply Ha in Hl. apply prefix_length in Hp. lia.
Qed.

Lemma node_allocated_mono h h' n :
  h `prefix_of` h' → node_allocated h n → node_allocated h' n.
Proof.
  intros Hp [H1 H2]. split; eapply Forall_impl; eauto using allocated_mono.
Qed.

Lemma pin_pixels_prefix h h' pin :
  h `prefix_of` h' → pin_allocated h pin → pin_pixels h' pin = pin_pixels h pin.
Proof.
  intros [k ->] Ha. unfold pin_pixels, pixels.
  destruct (pin_data pin) as [l|] eqn:Hd; [|done].
  apply lookup_app_l. by apply Ha.
Qed.

Lemma pins_pixels_prefix h h' pins :
  h `prefix_of` h' → Forall (pin_allocated h) pins →
  pin_pixels h' <$> pins = pin_pixels h <$> pins.
Proof.
  intros Hp Ha. apply Forall_fmap_ext. eapply Forall_impl; [done|].
  intros pin. by apply pin_pixels_prefix.
Qed.

Lemma shape_skel n n' : shape n' = shape n → skel n' = skel n.
Proof. intros H. by apply (f_equal (λ s, s.1.1)) in H. Qed.

Lemma shape_set_input k m n : shape (node_set_input k m n) = shape n.
Proof. unfold shape. rewrite skel_set_input. done. Qed.

Lemma shapes_insert (ns : list BaseNode) i n n' :
  ns !! i = Some n → shape n' = shape n →
  shape <$> <[i := n']> ns = shape <$> ns.
Proof.
  intros H Hs. rewrite list_fmap_insert, Hs.
  apply list_insert_id. rewrite list_lookup_fmap, H. done.
Qed.

Lemma shapes_skeleton ns ns' :
  shape <$> ns = shape <$> ns' → skeleton ns = skeleton ns'.
Proof.
  intros H. unfold skeleton.
  assert (∀ l : list BaseNode, skel <$> l = (λ s, s.1.1) <$> (shape <$> l)) as E.
  { intros l. rewrite <- list_fmap_compose. done. }
  by rewrite !E, H.
Qed.

Lemma shapes_lookup (ns ns' : list BaseNode) x n :
  shape <$> ns' = shape <$> ns → ns !! x = Some n →
  ∃ n', ns' !! x = Some n' ∧ shape n' = shape n.
Proof.
  intros H Hn.
  assert ((shape <$> ns') !! x = Some (shape n)) as H'.
  { rewrite H, list_lookup_fmap, Hn. done. }
  rewrite list_lookup_fmap in H'. apply fmap_Some in H' as (n' & ? & ?).
  eauto.
Qed.

Lemma fmap_alter_insert {A B} (f : A → B) (g : A → A) (l : list A) k x :
  l !! k = Some x → f <$> alter g k l = <[k := f (g x)]> (f <$> l).
Proof.
  intros Hk. apply list_eq. intros i. rewrite list_lookup_fmap.
  destruct (decide (i = k)) as [->|Hne].
  - rewrite list_lookup_alter_eq, Hk. simpl.
    rewrite list_lookup_insert_eq; [done|].
    rewrite length_fmap. by eapply lookup_lt_Some.
  - rewrite list_lookup_alter_ne, list_lookup_insert_ne, list_lookup_fmap by done.
    done.
Qed.

Section Values.
Variable K : NodeClasses.
Hypothesis HF : process_is_function K.

Local Abbreviation result_of := (result_of K).

Lemma function_keeps_ids : process_keeps_ids K.
Proof.
  intros n h. destruct HF as (H1 & _). destruct (H1 n h) as (Hs & _).
  by apply shape_skel.
Qed.

Lemma sound_refl p : sound p p.
Proof. intros H. done. Qed.

Lemma sound_trans p q r : sound p q → sound q r → sound p r.
Proof.
  intros H1 H2 Hp. destruct (H1 Hp) as (Hq & Hpq & Hsq).
  destruct (H2 Hq) as (Hr & Hqr & Hsr).
  split; [done|]. split; [by etrans|congruence].
Qed.

Lemma copyPin_store c i j p : p_store p `prefix_of` p_store (copyPin c i j p).
Proof.
  unfold copyPin.
  destruct (p_nodes p !! j) as [m|]; [|done].
  destruct (p_nodes p !! i) as [n|]; [|done].
  destruct (findPinIndex (outputs m) _) as [oi|]; [|done].
  destruct (findPinIndex (inputs n) _) as [ii|]; [|done].
  destruct (outputs m !! oi) as [src|]; [|done].
  destruct (pin_data src) as [l|]; simpl; [|done].
  by apply prefix_app_r.
Qed.

Lemma copyPin_sound c i j p : sound p (copyPin c i j p).
Proof.
  intros Hp. pose proof (copyPin_store c i j p) as Hst.
  split; [|split; [done|]].
  - intros x nx Hx.
    destruct (decide (x = i)) as [->|Hne].
    2: { rewrite copyPin_other in Hx by done.
         eapply node_allocated_mono; [done|]. by eapply Hp. }
    revert Hx Hst. unfold copyPin.
    destruct (p_nodes p !! j) as [m|] eqn:Hm; [|by intros ??; eapply Hp].
    destruct (p_nodes p !! i) as [n|] eqn:Hn; [|by intros ??; eapply Hp].
    destruct (findPinIndex (outputs m) _) as [oi|]; [|by intros ??; eapply Hp].
    destruct (findPinIndex (inputs n) _) as [ii|]; [|by intros ??; eapply Hp].
    destruct (outputs m !! oi) as [src|]; [|by intros ??; eapply Hp].
    destruct (pin_data src) as [l|]; simpl; [|by intros ??; eapply Hp].
    rewrite list_lookup_insert_eq by by eapply lookup_lt_Some.
    intros [= <-] Hst. destruct (Hp _ _ Hn) as [Hin Hout]. split; simpl.
    + apply Forall_lookup. intros k pin Hk.
      destruct (decide (k = ii)) as [->|Hne].
      * rewrite list_lookup_alter_eq in Hk.
        apply fmap_Some in Hk as (pin0 & _ & ->).
        intros l' [= <-]. rewrite length_app. simpl. lia.
      * rewrite list_lookup_alter_ne in Hk by done.
        eapply allocated_mono; [done|].
        by eapply (Forall_lookup_1 _ _ _ _ Hin).
    + eapply Forall_impl; [done|]. intros pin. by apply allocated_mono.
  - destruct (copyPin_nodes c i j p) as [->|(n & k & m & Hn & ->)]; [done|].
    eapply shapes_insert; [done|]. apply shape_set_input.
Qed.

Lemma invoke_sound i p : sound p (invoke K i p).
Proof.
  intros Hp. unfold invoke.
  destruct (p_nodes p !! i) as [n|] eqn:Hn; [|done].
  destruct HF as (H1 & H2 & _).
  destruct (H1 n (p_store p)) as (Hs & Hin & Hpre).
  specialize (H2 n (p_store p) (Hp _ _ Hn)).
  destruct (process K n (p_store p)) as [n' h']. simpl in *.
  split; [|split; [done|by eapply shapes_insert]].
  intros x nx Hx. simpl in Hx. destruct (decide (x = i)) as [->|Hne].
  - rewrite list_lookup_insert_eq in Hx by by eapply lookup_lt_Some.
    injection Hx as <-. split; [|done]. rewrite Hin.
    destruct (Hp _ _ Hn) as [Ha _].
    eapply Forall_impl; [done|]. intros pin. by apply allocated_mono.
  - rewrite list_lookup_insert_ne in Hx by done.
    eapply node_allocated_mono; [done|]. by eapply Hp.
Qed.

Lemma exec_sound conns i cs p p' : exec K conns i cs p p' → sound p p'.
Proof.
  apply exec_rel.
  - exact sound_refl.
  - exact sound_trans.
  - exact copyPin_sound.
  - exact invoke_sound.
Qed.

Lemma processNode_sound conns fuel i p p' :
  processNode K fuel conns i p = Some p' → sound p p'.
Proof.
  apply processNode_rel.
  - exact sound_refl.
  - exact sound_trans.
  - exact copyPin_sound.
  - exact invoke_sound.
Qed.

(** ** The views across a step *)

(** A node whose headers did not change holds the same pixels. *)
Lemma views_same p p' x :
  pass_allocated p → p_store p `prefix_of` p_store p' →
  p_nodes p' !! x = p_nodes p !! x →
  ins p' x = ins p x ∧ outs p' x = outs p x.
Proof.
  intros Hp Hpre Hx. unfold ins, outs. rewrite Hx.
  destruct (p_nodes p !! x) as [n|] eqn:Hn; [|done].
  destruct (Hp _ _ Hn) as [Hin Hout].
  split; by apply pins_pixels_prefix.
Qed.

Lemma copyPin_outs c i j p x :
  pass_allocated p → outs (copyPin c i j p) x = outs p x.
Proof.
  intros Hp. pose proof (copyPin_store c i j p) as Hst.
  destruct (decide (x = i)) as [->|Hne];
    [|by apply views_same; [..|apply copyPin_other]].
  unfold outs.
  destruct (copyPin_nodes c i j p) as [Heq|(n & k & m & Hn & Heq)]; rewrite Heq.
  - destruct (p_nodes p !! i) as [n|] eqn:Hn; [|done].
    apply pins_pixels_prefix; [done|]. by apply (Hp _ _ Hn).
  - rewrite list_lookup_insert_eq, Hn by by eapply lookup_lt_Some. simpl.
    apply pins_pixels_prefix; [done|]. by apply (Hp _ _ Hn).
Qed.

Lemma copyPin_ins_other c i j p x :
  pass_allocated p → x ≠ i → ins (copyPin c i j p) x = ins p x.
Proof.
  intros Hp Hne. apply views_same; [done|apply copyPin_store|].
  by apply copyPin_other.
Qed.

Lemma copyPin_ins c i j p :
  pass_allocated p → edge (p_nodes p) i c = Some j →
  ins (copyPin c i j p) i = feed (p_nodes p) (outs p) i (ins p i) c.
Proof.
  intros Hp He.
  destruct (edge_Some _ _ _ _ He) as (n & Hn & _ & Hf).
  apply findNodeById_Some in Hf as (m & Hm & _).
  unfold feed, handed. rewrite He. simpl. rewrite Hm, Hn. simpl.
  unfold copyPin, ins, outs. rewrite Hm, Hn.
  destruct (findPinIndex (outputs m) _) as [oi|]; simpl; [|by rewrite Hn].
  destruct (findPinIndex (inputs n) _) as [ii|] eqn:Hii; simpl; [|by rewrite Hn].
  rewrite list_lookup_fmap.
  destruct (outputs m !! oi) as [src|] eqn:Hsrc; simpl; [|by rewrite Hn].
  destruct (Hp _ _ Hm) as [_ Hout]. destruct (Hp _ _ Hn) as [Hin _].
  pose proof (Forall_lookup_1 _ _ _ _ Hout Hsrc) as Hal.
  destruct (pin_data src) as [l|] eqn:Hd; simpl.
  2: { assert (pin_pixels (p_store p) src = None) as ->
         by (unfold pin_pixels; by rewrite Hd).
       simpl. by rewrite Hn. }
  specialize (Hal l Hd). apply lookup_lt_is_Some in Hal as [b Hb].
  assert (pin_pixels (p_store p) src = Some b) as ->
    by (unfold pin_pixels; by rewrite Hd).
  rewrite Hb. simpl.
  rewrite list_lookup_insert_eq by by eapply lookup_lt_Some. simpl.
  apply findPinIndex_Some in Hii as (old & Hold & _).
  rewrite (fmap_alter_insert _ _ _ _ _ Hold). f_equal.
  - unfold pin_pixels. simpl. rewrite lookup_app_r, Nat.sub_diag by lia. done.
  - apply pins_pixels_prefix; [by apply prefix_app_r|done].
Qed.

Lemma invoke_views_other i p x :
  pass_allocated p → x ≠ i →
  ins (invoke K i p) x = ins p x ∧ outs (invoke K i p) x = outs p x.
Proof.
  intros Hp Hne. apply views_same; [done| |by apply invoke_other].
  by apply invoke_sound.
Qed.

Lemma invoke_ins i p : pass_allocated p → ins (invoke K i p) i = ins p i.
Proof.
  intros Hp. unfold ins, invoke.
  destruct (p_nodes p !! i) as [n|] eqn:Hn; [|by rewrite Hn].
  destruct HF as (H1 & _). destruct (H1 n (p_store p)) as (_ & Hin & Hpre).
  destruct (process K n (p_store p)) as [n' h']. simpl in *.
  rewrite list_lookup_insert_eq by by eapply lookup_lt_Some.
  rewrite Hin. apply pins_pixels_prefix; [done|]. by apply (Hp _ _ Hn).
Qed.

Lemma result_of_functional s I O O' :
  result_of s I O → result_of s I O' → O = O'.
Proof.
  intros (n & h & Ha & Hs & HI & HO) (n' & h' & Ha' & Hs' & HI' & HO').
  destruct HF as (_ & _ & Hdet). rewrite <- HO, <- HO'.
  apply Hdet; congruence.
Qed.

Lemma invoke_outs i p n :
  pass_allocated p → p_nodes p !! i = Some n →
  result_of (shape n) (ins p i) (outs (invoke K i p) i).
Proof.
  intros Hp Hn. exists n, (p_store p). split; [by eapply Hp|]. split; [done|].
  unfold ins, outs. rewrite Hn. split; [done|].
  rewrite (invoke_valid _ _ _ _ Hn). simpl.
  rewrite list_lookup_insert_eq by by eapply lookup_lt_Some. done.
Qed.

End Values.

(* ================================================================== *)
(** * Proofs: what a pass computes *)
(* ================================================================== *)

Lemma handed_ext ns ns' O O' x c :
  skeleton ns = skeleton ns' →
  (∀ j, edge ns x c = Some j → O j = O' j) →
  handed ns O x c = handed ns' O' x c.
Proof.
  intros Hs HO. unfold handed. rewrite <- (edge_skeleton ns ns') by done.
  destruct (edge ns x c) as [j|] eqn:He; simpl; [|done].
  rewrite <- (HO j eq_refl).
  destruct (edge_Some _ _ _ _ He) as (n & Hn & _ & Hf).
  apply findNodeById_Some in Hf as (m & Hm & _).
  destruct (skeleton_lookup _ _ _ _ Hs Hn) as (n' & Hn' & [= _ Hin _]).
  destruct (skeleton_lookup _ _ _ _ Hs Hm) as (m' & Hm' & [= _ _ Hout]).
  rewrite Hn, Hm, Hn', Hm'. simpl.
  by rewrite (findPinIndex_ids _ _ _ Hin), (findPinIndex_ids _ _ _ Hout).
Qed.

Lemma replay_ext ns ns' O O' x cs v :
  skeleton ns = skeleton ns' →
  (∀ c j, c ∈ cs → edge ns x c = Some j → O j = O' j) →
  replay ns O x cs v = replay ns' O' x cs v.
Proof.
  intros Hs. revert v. induction cs as [|c cs IH]; intros v HO; [done|].
  unfold replay in *. simpl. unfold feed at 2 4.
  rewrite (handed_ext ns ns' O O') by (try done; intros j; apply HO; by left).
  apply IH. intros c' j Hc'. apply HO. by right.
Qed.

Lemma assign_length asg v : length (foldl assign v asg) = length v.
Proof.
  revert v. induction asg as [|kb asg IH]; intros v; simpl; [done|].
  rewrite IH. apply length_insert.
Qed.

Lemma assign_lookup asg v k :
  foldl assign v asg !! k =
  match final asg k with
  | Some b => if decide (k < length v) then Some (Some b) else None
  | None => v !! k
  end.
Proof.
  revert v. induction asg as [|[k0 b0] asg IH]; intros v; simpl; [done|].
  rewrite IH. unfold assign. simpl. rewrite length_insert.
  destruct (final asg k) as [b|]; [done|].
  rewrite list_lookup_insert.
  destruct (decide (k0 = k)) as [->|Hne].
  - destruct (decide (k < length v)).
    + by rewrite decide_True.
    + rewrite decide_False by tauto. apply lookup_ge_None. lia.
  - by rewrite decide_False by tauto.
Qed.

Lemma assign_idem asg v : foldl assign (foldl assign v asg) asg = foldl assign v asg.
Proof.
  apply list_eq. intros k. rewrite !assign_lookup, assign_length.
  by destruct (final asg k).
Qed.

Lemma replay_assign ns O x cs v :
  replay ns O x cs v = foldl assign v (omap (handed ns O x) cs).
Proof.
  revert v. induction cs as [|c cs IH]; intros v; [done|].
  unfold replay in *. simpl. rewrite IH. unfold feed.
  by destruct (handed ns O x c) as [[ii b]|].
Qed.

Lemma replay_idem ns O x cs v :
  replay ns O x cs (replay ns O x cs v) = replay ns O x cs v.
Proof. rewrite !replay_assign. apply assign_idem. Qed.

Section Meaning.
Variable K : NodeClasses.
Hypothesis HF : process_is_function K.
Variable conns : list Connection.
Variable ns0 : list BaseNode.
Hypothesis Hacyc : ∀ x, ¬ tc (upstream ns0 conns) x x.

Local Abbreviation HK := (function_keeps_ids K HF).
Local Abbreviation good := (good conns ns0).
Local Abbreviation char := (char K ns0).

Lemma good_stable p : good p → stable ns0 p.
Proof. intros (_ & Hs & _). by apply shapes_skeleton. Qed.

Lemma good_closed p x j :
  good p → x ∈ p_processed p → upstream ns0 conns x j → j ∈ p_processed p.
Proof.
  intros (_ & _ & Hlog & Hpre) Hx Hup.
  apply Hlog, list_elem_of_lookup_1 in Hx as [k Hk].
  destruct (Hpre _ _ _ Hk Hup) as (k' & _ & Hk').
  apply Hlog. by eapply list_elem_of_lookup_2.
Qed.

Lemma copyPin_good c i j p : good p → good (copyPin c i j p).
Proof.
  intros (Ha & Hs & Hlog & Hpre).
  destruct (copyPin_sound c i j p Ha) as (Ha' & _ & Hs').
  split; [done|]. split; [congruence|]. split; [by apply copyPin_logged|].
  rewrite copyPin_trace. apply preceded_app; [done|].
  intros x. apply copy_event_not_processed.
Qed.

Lemma exec_good i p p' :
  exec K conns i conns p p' → i < length ns0 → good p → good p'.
Proof.
  intros Hex Hv Hg. pose proof (good_stable _ Hg) as Hst.
  destruct Hg as (Ha & Hs & Hlog & Hpre).
  destruct (exec_sound K HF _ _ _ _ _ Hex Ha) as (Ha' & _ & Hs').
  destruct (exec_trace K conns HK ns0 _ _ _ _ Hex)
    as (t & Ht & Hlog' & Hpre' & Hdeps); [done..|].
  split; [done|]. split; [congruence|]. split; [done|].
  rewrite Ht, app_assoc. by apply preceded_snoc.
Qed.

(** Nodes that were processed before, and nodes that are not processed
    after, hold the pixels they held. *)
Lemma exec_views i cs p p' x :
  exec K conns i cs p p' → good p → cs ⊆ conns →
  i < length ns0 → i ∉ p_processed p →
  x ∈ p_processed p ∨ x ∉ p_processed p' →
  ins p' x = ins p x ∧ outs p' x = outs p x.
Proof.
  intros Hex Hg Hcs Hv Hi Hx. pose proof (good_stable _ Hg) as Hst.
  destruct Hg as (Ha & _).
  destruct (exec_sound K HF _ _ _ _ _ Hex Ha) as (_ & Hpre & _).
  apply views_same; [done..|].
  by eapply (exec_frame K conns HK ns0).
Qed.

Lemma char_keep p0 q q' x cs :
  char p0 q x cs → cs ⊆ conns →
  ins q' x = ins q x → outs q' x = outs q x →
  (∀ j, upstream ns0 conns x j → outs q' j = outs q j) →
  char p0 q' x cs.
Proof.
  intros [H1 H2] Hcs Hin Hout Hup. split.
  - rewrite Hin, H1. apply replay_ext; [done|].
    intros c j Hc He. symmetry. apply Hup. apply upstream_edge.
    exists c. split; [set_solver|done].
  - intros n0 Hn0. rewrite Hin, Hout. by apply H2.
Qed.

Lemma char_entry p0 p q' x cs :
  char p q' x cs → ins p x = ins p0 x → char p0 q' x cs.
Proof. intros [H1 H2] Hin. split; [by rewrite <- Hin|done]. Qed.

End Meaning.

Section Char.
Variable K : NodeClasses.
Hypothesis HF : process_is_function K.
Variable conns : list Connection.
Variable ns0 : list BaseNode.
Hypothesis Hacyc : ∀ x, ¬ tc (upstream ns0 conns) x x.

Local Abbreviation HK := (function_keeps_ids K HF).
Local Abbreviation good := (good conns ns0).
Local Abbreviation char := (char K ns0).

Lemma ready_views i c cs j pa p' x :
  good pa → exec K conns i cs (copyPin c i j pa) p' →
  cs ⊆ conns → i < length ns0 → i ∉ p_processed pa →
  x ∈ p_processed pa →
  ins p' x = ins pa x ∧ outs p' x = outs pa x.
Proof.
  intros Hg Hex Hcs Hv Hi Hx.
  assert (x ≠ i) as Hxi by (by intros ->).
  destruct (exec_views K HF conns ns0 Hacyc i cs _ p' x Hex) as [H1 H2].
  - by apply copyPin_good.
  - done.
  - done.
  - by rewrite copyPin_processed.
  - left. by rewrite copyPin_processed.
  - destruct Hg as (Ha & _).
    by rewrite H1, H2, copyPin_ins_other, copyPin_outs.
Qed.

Lemma ready_char i c cs j pa p' :
  edge (p_nodes pa) i c = Some j → j ∈ p_processed pa →
  exec K conns i cs (copyPin c i j pa) p' →
  c :: cs ⊆ conns → i < length ns0 → i ∉ p_processed pa → good pa →
  (char (copyPin c i j pa) p' i cs ∧
   ∀ x, x ∈ p_processed p' → x ∉ p_processed (copyPin c i j pa) → x ≠ i →
        char (copyPin c i j pa) p' x conns) →
  char pa p' i (c :: cs) ∧
  ∀ x, x ∈ p_processed p' → x ∉ p_processed pa → x ≠ i → char pa p' x conns.
Proof.
  intros He Hj Hex Hcs Hv Hi Hg [[H1 H2] H3].
  pose proof (good_stable _ _ _ Hg) as Hst.
  pose proof Hg as (Ha & _).
  split.
  - split; [|done]. rewrite H1, (copyPin_ins c i j pa Ha He).
    unfold replay. simpl. f_equal. unfold feed.
    rewrite (handed_ext (p_nodes pa) ns0 (outs pa) (outs p')); [done..|].
    intros j' Hj'. assert (j' = j) as -> by congruence.
    destruct (ready_views i c cs j pa p' j Hg Hex) as [_ Ho];
      [set_solver|done|done|done|by symmetry].
  - intros x Hx Hnx Hxi. apply (char_entry _ _ _ (copyPin c i j pa)).
    + apply H3; [done| |done]. by rewrite copyPin_processed.
    + by apply copyPin_ins_other.
Qed.

Lemma exec_char i cs p p' :
  exec K conns i cs p p' →
  cs ⊆ conns → i < length ns0 → i ∉ p_processed p → good p →
  char p p' i cs ∧
  ∀ x, x ∈ p_processed p' → x ∉ p_processed p → x ≠ i → char p p' x conns.
Proof.
  induction 1 as [i p|i c cs p p' He H IH|i c cs j p p' He Hj H IH
                  |i c cs j p p1 p' He Hj H1 IH1 H IH];
    intros Hcs Hv Hi Hg.
  - pose proof Hg as (Ha & Hs & _). split.
    + split; [by apply invoke_ins|].
      intros n0 Hn0.
      destruct (shapes_lookup _ _ _ _ Hs Hn0) as (n & Hn & <-).
      rewrite invoke_ins by done. by apply invoke_outs.
    + intros x Hx Hnx Hxi. apply invoke_processed in Hx. set_solver.
  - destruct IH as [[H1 H2] H3]; [set_solver|done..|].
    split; [|done]. split; [|done].
    rewrite H1. unfold replay. simpl. f_equal. unfold feed, handed.
    rewrite <- (stable_edge ns0 p), He by apply (good_stable _ _ _ Hg).
    done.
  - eapply ready_char; try done.
    apply IH; [set_solver|done| |by apply copyPin_good].
    by rewrite copyPin_processed.
  - pose proof (good_stable _ _ _ Hg) as Hst.
    assert (j < length ns0) as Hvj.
    { rewrite <- (stable_length ns0 p) by done. by apply edge_lt in He as [_ ?]. }
    assert (upstream ns0 conns i j) as Hup.
    { apply upstream_edge. exists c. split; [set_solver|].
      by rewrite <- (stable_edge ns0 p). }
    assert (conns ⊆ conns) as Hrefl by set_solver.
    destruct (IH1 Hrefl Hvj Hj Hg) as [Hcj Hcx].
    pose proof (exec_good K HF conns ns0 j p p1 H1 Hvj Hg) as Hg1.
    pose proof (good_stable _ _ _ Hg1) as Hst1.
    assert (i ∉ p_processed p1) as Hi1
      by by eapply (exec_waiting K conns HK ns0).
    assert (j ∈ p_processed p1) as Hj1.
    { eapply (exec_marks K conns HK); [done|]. by rewrite (stable_length ns0). }
    assert (edge (p_nodes p1) i c = Some j) as He1.
    { by rewrite (stable_edge ns0), <- (stable_edge ns0 p). }
    destruct (ready_char i c cs j p1 p' He1 Hj1 H Hcs Hv Hi1 Hg1) as [HA HB].
    { apply IH; [set_solver|done| |by apply copyPin_good].
      by rewrite copyPin_processed. }
    assert (∀ x, x ∉ p_processed p1 → ins p1 x = ins p x) as Hentry.
    { intros x Hx.
      eapply (exec_views K HF conns ns0 Hacyc); [done..|]. by right. }
    assert (∀ y, y ∈ p_processed p1 →
                 ins p' y = ins p1 y ∧ outs p' y = outs p1 y) as Hkeep.
    { intros y Hy.
      eapply (ready_views i c cs j p1 p'); [done|done|set_solver|done|done|done]. }
    split.
    + apply (char_entry _ _ _ p1); [done|]. by apply Hentry.
    + intros x Hx Hnx Hxi.
      destruct (decide (x ∈ p_processed p1)) as [Hx1|Hx1].
      * assert (char p p1 x conns) as Hc.
        { destruct (decide (x = j)) as [->|Hxj]; [done|]. by apply Hcx. }
        eapply char_keep with (q := p1); try done.
        -- by apply Hkeep.
        -- by apply Hkeep.
        -- intros j' Hj'. apply Hkeep. by eapply good_closed.
      * apply (char_entry _ _ _ p1); [by apply HB|by apply Hentry].
Qed.

End Char.

Lemma prune_idem ns ns' cs :
  node_id <$> ns' = node_id <$> ns → prune ns' (prune ns cs) = prune ns cs.
Proof.
  intros H. rewrite (prune_ids ns' ns) by done. unfold prune.
  rewrite list_filter_filter. apply list_filter_iff. intros c. tauto.
Qed.

Section PassMeaning.
Variable K : NodeClasses.
Hypothesis HF : process_is_function K.
Variable e : NodeEditor.
Hypothesis Halloc : editor_allocated e.
Hypothesis Hacyc : acyclic e.

Local Abbreviation HK := (function_keeps_ids K HF).
Local Abbreviation ns0 := (nodes e).
Local Abbreviation conns := (prune (nodes e) (connections e)).

Lemma start_good : good conns ns0 (start_pass e).
Proof.
  split; [|split; [done|split]].
  - intros x n Hn. apply Halloc. by eapply list_elem_of_lookup_2.
  - intros x. simpl. split; [set_solver|]. by intros ?%elem_of_nil.
  - intros k x y Hk. done.
Qed.

(** What a finished pass has computed, node by node. *)
Lemma pass_char fuel p :
  processGraph_pass K fuel e = Some p →
  good conns ns0 p ∧
  ∀ x, x < length ns0 → char K ns0 (start_pass e) p x conns.
Proof.
  intros H.
  pose proof (acyclic_pruned e Hacyc) as Hacyc'.
  cut (good conns ns0 p ∧
       (∀ y, y ∈ p_processed p → char K ns0 (start_pass e) p y conns) ∧
       (∀ y, y ∉ p_processed p → ins p y = ins (start_pass e) y)).
  { intros (Hg & Hc & _). split; [done|]. intros x Hx. apply Hc.
    by eapply (pass_complete K HK e fuel). }
  unfold processGraph_pass in H.
  eapply (forEach_inv (λ q,
    good conns ns0 q ∧
    (∀ y, y ∈ p_processed q → char K ns0 (start_pass e) q y conns) ∧
    (∀ y, y ∉ p_processed q → ins q y = ins (start_pass e) y)));
    [| |exact H].
  - intros i q q' Hi (Hg & Hc & Hu) Hstep. apply elem_of_seq in Hi.
    destruct (processNode_exec _ _ _ _ _ _ Hstep) as [[_ ->]|[Hni Hex]]; [done|].
    assert (i < length ns0) as Hv by lia.
    assert (prune ns0 (connections e) ⊆ prune ns0 (connections e)) as Hrefl
      by set_solver.
    pose proof (exec_good K HF conns ns0 i q q' Hex Hv Hg) as Hg'.
    destruct (exec_char K HF conns ns0 Hacyc' i _ q q' Hex Hrefl Hv Hni Hg)
      as [Hci Hcx].
    pose proof (exec_grows K conns HK _ _ _ _ Hex) as (_ & Hsub & _).
    assert (∀ y, y ∈ p_processed q ∨ y ∉ p_processed q' →
                 ins q' y = ins q y ∧ outs q' y = outs q y) as Hkeep.
    { intros y Hy. by eapply (exec_views K HF conns ns0 Hacyc'). }
    split; [done|]. split.
    + intros y Hy. destruct (decide (y ∈ p_processed q)) as [Hyq|Hyq].
      * eapply char_keep with (q := q); try done.
        -- by apply Hc.
        -- apply Hkeep. by left.
        -- apply Hkeep. by left.
        -- intros j Hj. apply Hkeep. left. by eapply good_closed.
      * eapply char_entry with (p := q); [|by apply Hu].
        destruct (decide (y = i)) as [->|Hyi]; [done|]. by apply Hcx.
    + intros y Hy. assert (y ∉ p_processed q) as Hyq by set_solver.
      rewrite <- (Hu y Hyq). apply Hkeep. by right.
  - split; [apply start_good|]. split; [|done].
    intros y Hy. simpl in Hy. set_solver.
Qed.

End PassMeaning.

(** C8 (idempotent re-evaluation): on a graph without cycles whose
    headers name buffers of the store, two passes in a row finish, and
    after the second every output pin holds the pixels it held after the
    first; provided that [process()] is a function of the pixels in the
    input pins and of the parameters of its node. *)
Theorem evaluation_idempotent (K : NodeClasses) (e : NodeEditor) :
  process_is_function K → editor_allocated e → acyclic e →
  ∃ e1 e2,
    processGraph K (length (nodes e)) e = Some e1 ∧
    processGraph K (length (nodes e)) e1 = Some e2 ∧
    ∀ x n1 n2,
      nodes e1 !! x = Some n1 → nodes e2 !! x = Some n2 →
      pin_pixels (store e2) <$> outputs n2 = pin_pixels (store e1) <$> outputs n1.
Proof.
  intros HF Halloc Hacyc.
  pose proof (function_keeps_ids K HF) as HK.
  set (d := length (nodes e)).
  assert (chains_within e d) as Hd.
  { intros l Hl. by eapply chain_short. }
  destruct (pass_terminates K HK e d Hd) as [p1 Hp1].
  set (e1 := end_pass e p1).
  set (conns := prune (nodes e) (connections e)).
  pose proof (pass_stable K HK e d p1 Hp1) as Hst1.
  assert (prune (nodes e1) (connections e1) = conns) as Hconns.
  { apply prune_idem, skeleton_ids, Hst1. }
  assert (length (nodes e1) = d) as Hlen.
  { apply (skeleton_length _ _ Hst1). }
  assert (∀ x, ¬ tc (upstream (nodes e) conns) x x) as Hacyc0
    by by apply acyclic_pruned.
  assert (∀ i j, upstream (nodes e1) (connections e1) i j →
                 upstream (nodes e) (connections e) i j) as Hup1.
  { intros i j Hup. apply (upstream_prune (nodes e)).
    by apply (upstream_skeleton _ _ _ _ _ Hst1). }
  assert (acyclic e1) as Hacyc1.
  { intros x Hx. apply (Hacyc x). by eapply tc_subrel. }
  assert (chains_within e1 d) as Hd1.
  { intros l Hl. rewrite <- Hlen. by eapply chain_short. }
  destruct (pass_terminates K HK e1 d Hd1) as [p2 Hp2].
  exists e1, (end_pass e1 p2).
  split; [by unfold processGraph; rewrite Hp1|].
  split; [by unfold processGraph; rewrite Hp2|].
  destruct (pass_char K HF e Halloc Hacyc d p1 Hp1)
    as [(Ha1 & Hs1 & _) Hc1].
  assert (editor_allocated e1) as Halloc1.
  { intros n [x Hn]%list_elem_of_lookup_1. by apply (Ha1 x). }
  destruct (pass_char K HF e1 Halloc1 Hacyc1 d p2 Hp2) as [_ Hc2].
  rewrite Hconns, Hlen in Hc2.
  assert (∀ dd x, x < d →
            (∀ l, chain (nodes e) conns (x :: l) → length (x :: l) ≤ dd) →
            outs p2 x = outs p1 x) as Hsame.
  { induction dd as [|dd IH]; intros x Hx Hch.
    - specialize (Hch [] (chain_one _ _ _ (lookup_lt_is_Some_2 _ _ Hx))).
      simpl in Hch. lia.
    - assert (∀ j, upstream (nodes e) conns x j → outs p2 j = outs p1 j) as Hups.
      { intros j Hj. apply IH; [by apply upstream_valid in Hj as [_ ?]|].
        intros l Hl. specialize (Hch (j :: l)). simpl in *.
        cut (S (S (length l)) ≤ S dd); [lia|]. apply Hch. by constructor. }
      destruct (Hc1 x Hx) as [Hi1 Hr1]. destruct (Hc2 x Hx) as [Hi2 Hr2].
      assert (ins p2 x = ins p1 x) as Hins.
      { rewrite Hi2.
        change (ins (start_pass e1) x) with (ins p1 x).
        rewrite (replay_ext (nodes e1) (nodes e) (outs p2) (outs p1)).
        - rewrite Hi1. apply replay_idem.
        - exact Hst1.
        - intros c j Hc He. apply Hups, upstream_edge. exists c. split; [done|].
          by rewrite <- (edge_skeleton (nodes e1)). }
      apply lookup_lt_is_Some_2 in Hx as [n0 Hn0].
      destruct (shapes_lookup _ _ _ _ Hs1 Hn0) as (n1 & Hn1 & Hsh).
      specialize (Hr1 n0 Hn0). specialize (Hr2 n1 Hn1).
      rewrite Hsh, Hins in Hr2.
      by eapply (result_of_functional K HF). }
  intros x n1 n2 Hn1 Hn2. simpl in Hn1, Hn2.
  assert (x < d) as Hx.
  { rewrite <- Hlen. by eapply lookup_lt_Some. }
  specialize (Hsame d x Hx). unfold outs in Hsame. rewrite Hn1, Hn2 in Hsame.
  apply Hsame. intros l Hl. by eapply chain_short.
Qed.

(* ================================================================== *)
(** * Proofs: what a consumer sees *)
(* ================================================================== *)

Lemma final_elem asg k b : final asg k = Some b → (k, b) ∈ asg.
Proof.
  induction asg as [|[k0 b0] asg IH]; simpl; [done|].
  destruct (final asg k) as [b1|].
  - intros [= ->]. right. by apply IH.
  - case_decide as Hk; [|done]. intros [= ->]. subst. by left.
Qed.

Lemma final_None asg k b : final asg k = None → (k, b) ∉ asg.
Proof.
  induction asg as [|[k0 b0] asg IH]; simpl; [by intros _ ?%elem_of_nil|].
  destruct (final asg k) as [b1|]; [done|].
  case_decide as Hk; [done|]. intros _ [[= -> ->]|Hin]%elem_of_cons; [done|].
  by apply IH.
Qed.

Lemma final_sole asg k b :
  (k, b) ∈ asg → (∀ b', (k, b') ∈ asg → b' = b) → final asg k = Some b.
Proof.
  intros Hin Hall. destruct (final asg k) as [b1|] eqn:Hf.
  - f_equal. by apply Hall, final_elem.
  - by apply (final_None _ _ b) in Hf.
Qed.

Lemma handed_Some ns O x c ii b :
  handed ns O x c = Some (ii, b) →
  ∃ j n, edge ns x c = Some j ∧ ns !! x = Some n ∧
         findPinIndex (inputs n) (inputPin c) = Some ii.
Proof.
  unfold handed. intros H.
  destruct (edge ns x c) as [j|]; simpl in H; [|done].
  destruct (ns !! j) as [m|]; simpl in H; [|done].
  destruct (ns !! x) as [n|]; simpl in H; [|done].
  destruct (findPinIndex (outputs m) _) as [oi|]; simpl in H; [|done].
  destruct (findPinIndex (inputs n) _) as [ii'|] eqn:Hii; simpl in H; [|done].
  destruct (mjoin (O j !! oi)) as [b'|]; simpl in H; [|done].
  injection H as <- _. by exists j, n.
Qed.

Section Consumer.
Variable K : NodeClasses.
Hypothesis HF : process_is_function K.
Variable e : NodeEditor.
Hypothesis Halloc : editor_allocated e.
Hypothesis Hacyc : acyclic e.

Local Abbreviation ns0 := (nodes e).
Local Abbreviation conns := (prune (nodes e) (connections e)).

(** At the end of a pass the output pins of a node hold what
    [process()] makes of the pixels in its input pins. *)
Lemma pass_results fuel p i node :
  processGraph_pass K fuel e = Some p → p_nodes p !! i = Some node →
  result_of K (shape node) (pin_pixels (p_store p) <$> inputs node)
              (pin_pixels (p_store p) <$> outputs node).
Proof.
  intros Hp Hn.
  destruct (pass_char K HF e Halloc Hacyc fuel p Hp) as [(Ha & Hs & _) Hc].
  destruct (shapes_lookup _ _ _ _ (eq_sym Hs) Hn) as (n0 & Hn0 & Hsh).
  destruct (Hc i) as [_ Hr]; [by eapply lookup_lt_Some|].
  specialize (Hr n0 Hn0). unfold ins, outs in Hr. rewrite Hn in Hr.
  by rewrite <- Hsh.
Qed.

(** An input pin that a single connection feeds holds, at the end of a
    pass, the pixels of the producer's output pin. *)
Lemma pass_feeds fuel p conn i j node outNode ii oi src dst :
  processGraph_pass K fuel e = Some p →
  conn ∈ connections e → edge ns0 i conn = Some j →
  p_nodes p !! i = Some node → p_nodes p !! j = Some outNode →
  findPinIndex (inputs node) (inputPin conn) = Some ii →
  findPinIndex (outputs outNode) (outputPin conn) = Some oi →
  outputs outNode !! oi = Some src → Mat_empty (pin_data src) = false →
  inputs node !! ii = Some dst →
  (∀ conn', conn' ∈ connections e → inputNode conn' = node_id node →
            findPinIndex (inputs node) (inputPin conn') = Some ii →
            conn' = conn) →
  pin_pixels (p_store p) dst = pin_pixels (p_store p) src.
Proof.
  intros Hp Hc He Hn Hm Hii Hoi Hsrc Hne Hdst Hsole.
  destruct (pass_char K HF e Halloc Hacyc fuel p Hp) as [(Ha & Hs & _) Hch].
  pose proof (shapes_skeleton _ _ Hs) as Hsk.
  assert (i < length ns0) as Hi by (by apply edge_lt in He as [? _]).
  destruct (Hch i Hi) as [Hins _].
  assert (conn ∈ conns) as Hc'.
  { apply list_elem_of_filter. split; [|done].
    destruct (edge_Some _ _ _ _ He) as (n0 & Hn0 & Hid & Hf).
    split; [|by rewrite Hf].
    destruct (findNodeById ns0 (inputNode conn)) eqn:E; [done|].
    rewrite findNodeById_None in E. exfalso. eapply E; [|by symmetry].
    by eapply list_elem_of_lookup_2. }
  destruct (pin_data src) as [l|] eqn:Hd; [|done].
  destruct (Ha _ _ Hm) as [_ Hout].
  pose proof (Forall_lookup_1 _ _ _ _ Hout Hsrc l Hd) as Hl.
  apply lookup_lt_is_Some in Hl as [b Hb].
  assert (pin_pixels (p_store p) src = Some b) as Hpx.
  { unfold pin_pixels. by rewrite Hd. }
  assert (∀ c, handed ns0 (outs p) i c = handed (p_nodes p) (outs p) i c) as Hh.
  { intros c. by apply handed_ext. }
  assert (handed ns0 (outs p) i conn = Some (ii, b)) as Hconn.
  { rewrite Hh. unfold handed.
    rewrite (edge_skeleton _ ns0), He by done. simpl.
    rewrite Hm, Hn. simpl. rewrite Hoi, Hii. simpl.
    unfold outs. rewrite Hm, list_lookup_fmap, Hsrc. simpl. by rewrite Hpx. }
  rewrite replay_assign in Hins.
  assert (ins p i !! ii = Some (Some b)) as Hlook.
  { rewrite Hins, assign_lookup.
    rewrite (final_sole _ ii b).
    - rewrite decide_True; [done|].
      unfold ins. simpl.
      destruct (skeleton_lookup _ _ _ _ Hsk Hn) as (n0 & -> & [= _ Hin0 _]).
      rewrite length_fmap, <- (length_fmap pin_id), Hin0, length_fmap.
      by eapply lookup_lt_Some.
    - apply list_elem_of_omap. eauto.
    - intros b' (c' & Hc1 & Hc2)%list_elem_of_omap.
      assert (c' = conn) as ->; [|congruence].
      pose proof Hc1 as [_ Hc1']%list_elem_of_filter.
      rewrite Hh in Hc2.
      apply handed_Some in Hc2 as (j' & n' & He' & Hn' & Hii').
      assert (n' = node) as -> by congruence.
      apply Hsole; [done| |done].
      by apply edge_Some in He' as (n'' & Hn'' & Hid & _); congruence. }
  unfold ins in Hlook. rewrite Hn, list_lookup_fmap, Hdst in Hlook.
  injection Hlook as Hlook. congruence.
Qed.

End Consumer.

(** C1 (dependency order): on a graph without cycles a pass finishes, and
    along it [process()] is called exactly once for every node of the
    graph and for nothing else; the call for a node comes after the call
    for each of its upstream producers; and whenever the pins of a
    connection resolve and the producer's output buffer is not empty, the
    buffer was copied into the input pin after the producer's call and
    before the consumer's.  When moreover [process()] is a function of
    the input pixels, the output pins of every node hold, at the end of
    the pass, what [process()] makes of the pixels in its input pins, and
    an input pin fed by one connection holds the pixels of the
    producer's output pin: along a chain A, B, C the outputs of C are
    made from the outputs of B, which are made from the outputs of A. *)
Theorem evaluation_order (K : NodeClasses) (e : NodeEditor) :
  process_keeps_ids K → acyclic e →
  ∃ p, processGraph_pass K (length (nodes e)) e = Some p ∧
       processGraph K (length (nodes e)) e = Some (end_pass e p) ∧
       (∀ i, i < length (nodes e) →
             ∃ k, p_trace p !! k = Some (Processed i) ∧
                  ∀ k', p_trace p !! k' = Some (Processed i) → k' = k) ∧
       (∀ i k, p_trace p !! k = Some (Processed i) → i < length (nodes e)) ∧
       (∀ i j, upstream (nodes e) (connections e) i j →
               ∃ kj ki, kj < ki ∧
                        p_trace p !! kj = Some (Processed j) ∧
                        p_trace p !! ki = Some (Processed i)) ∧
       (∀ conn i j node outNode ii oi src,
           conn ∈ connections e → edge (nodes e) i conn = Some j →
           p_nodes p !! i = Some node → p_nodes p !! j = Some outNode →
           findPinIndex (inputs node) (inputPin conn) = Some ii →
           findPinIndex (outputs outNode) (outputPin conn) = Some oi →
           outputs outNode !! oi = Some src →
           Mat_empty (pin_data src) = false →
           ∃ kj kc ki, kj < kc ∧ kc < ki ∧
                       p_trace p !! kj = Some (Processed j) ∧
                       p_trace p !! kc = Some (Copied i ii j oi) ∧
                       p_trace p !! ki = Some (Processed i)) ∧
       (process_is_function K → editor_allocated e →
        (∀ i node,
            p_nodes p !! i = Some node →
            result_of K (shape node)
                      (pin_pixels (p_store p) <$> inputs node)
                      (pin_pixels (p_store p) <$> outputs node)) ∧
        (∀ conn i j node outNode ii oi src dst,
            conn ∈ connections e → edge (nodes e) i conn = Some j →
            p_nodes p !! i = Some node → p_nodes p !! j = Some outNode →
            findPinIndex (inputs node) (inputPin conn) = Some ii →
            findPinIndex (outputs outNode) (outputPin conn) = Some oi →
            outputs outNode !! oi = Some src →
            Mat_empty (pin_data src) = false →
            inputs node !! ii = Some dst →
            (∀ conn', conn' ∈ connections e →
                      inputNode conn' = node_id node →
                      findPinIndex (inputs node) (inputPin conn') = Some ii →
                      conn' = conn) →
            pin_pixels (p_store p) dst = pin_pixels (p_store p) src)).
Proof.
  intros HK Hacyc.
  destruct (pass_terminates K HK e (length (nodes e))) as [p Hp].
  { intros l Hl. by eapply chain_short. }
  exists p. split; [done|]. split; [by unfold processGraph; rewrite Hp|].
  destruct (pass_ordered_once K HK e Hacyc _ _ Hp)
    as (Hst & Hlog & Hpre & Honce & Hpl).
  assert (∀ i, i < length (nodes e) → ∃ k, p_trace p !! k = Some (Processed i))
    as Hcalled.
  { intros i Hi. apply list_elem_of_lookup_1, Hlog. by eapply pass_complete. }
  split; [|split; [|split; [|split]]].
  - intros i Hi. destruct (Hcalled i Hi) as [k Hk]. exists k. split; [done|].
    intros k' Hk'. by eapply Honce.
  - intros i k Hk. apply list_elem_of_lookup_2, Hlog in Hk.
    revert Hk. unfold processGraph_pass in Hp.
    cut (∀ x, x ∈ p_processed p → x < length (nodes e)); [by auto|].
    eapply (forEach_inv (λ q, stable (nodes e) q ∧
                              ∀ x, x ∈ p_processed q → x < length (nodes e)));
      [| |exact Hp].
    + intros y q q' Hy [Hq Hall] Hstep. split.
      { eapply grows_stable; [by eapply processNode_grows|done]. }
      intros x Hx.
      destruct (processNode_exec _ _ _ _ _ _ Hstep) as [[_ ->]|[_ Hex]]; [by auto|].
      destruct (exec_reach K _ HK (nodes e) _ _ _ _ Hex Hq ltac:(done) x Hx)
        as [?|[->|Htc]]; [by auto| |].
      * apply elem_of_seq in Hy. lia.
      * apply tc_rtc, rtc_inv_r in Htc as [->|(z & _ & Hup)].
        -- apply elem_of_seq in Hy. lia.
        -- by apply upstream_valid in Hup as [_ ?].
    + split; [done|]. intros x Hx. set_solver.
  - intros i j Hup. apply upstream_prune in Hup.
    destruct (Hcalled i) as [ki Hki]; [by apply upstream_valid in Hup as [? _]|].
    destruct (Hpre _ _ _ Hki Hup) as (kj & ? & ?). eauto.
  - intros c i j n m ii oi src Hc He Hn Hm Hii Hoi Hsrc Hne.
    assert (c ∈ prune (nodes e) (connections e)) as Hc'.
    { apply list_elem_of_filter. split; [|done].
      apply edge_lt in He as Hlt.
      unfold edge in He. destruct (nodes e !! i) as [n0|] eqn:Hn0; [|done].
      case_decide as Hid; [|done]. split; [|by rewrite He].
      destruct (findNodeById (nodes e) (inputNode c)) eqn:E; [done|].
      rewrite findNodeById_None in E. exfalso. eapply E; [|by symmetry].
      by eapply list_elem_of_lookup_2. }
    destruct (Hcalled i) as [ki Hki]; [by apply edge_lt in He as [? _]|].
    destruct (Hpl i c j ii oi ki Hc' He) as (kj & kc & ? & ? & ? & ?); [|done|].
    { unfold copy_event. rewrite Hm, Hn. simpl. rewrite Hoi, Hii. simpl.
      rewrite Hsrc. simpl. by rewrite Hne. }
    exists kj, kc, ki. eauto.
  - intros HF Halloc. split.
    + intros i node Hn. by eapply (pass_results K HF e Halloc Hacyc).
    + intros conn i j node outNode ii oi src dst.
      by eapply (pass_feeds K HF e Halloc Hacyc).
Qed.

(* ================================================================== *)
(** * The small node classes meet the assumptions *)
(* ================================================================== *)

Lemma demo_process_result n h :
  Demo.process n h =
  match demo_result (kind n) (params n) (pin_pixels h <$> inputs n) with
  | Some b => Demo.publish b n h
  | None => Demo.withdraw n h
  end.
Proof.
  unfold Demo.process, demo_result, Demo.transform, Demo.first_input.
  destruct (kind n); destruct (inputs n) as [|pin rest]; simpl; try done;
    unfold pin_pixels; by destruct (pixels h (pin_data pin)).
Qed.

Lemma demo_process_cases n h :
  ∃ m h', Demo.process n h = (node_set_outputs (pin_set_data m <$> outputs n) n, h') ∧
          h `prefix_of` h' ∧ (∀ l, m = Some l → l < length h').
Proof.
  rewrite demo_process_result.
  destruct (demo_result _ _ _) as [b|].
  - exists (Some (length h)), (h ++ [b]). split; [done|]. split.
    + by apply prefix_app_r.
    + intros l [= <-]. rewrite length_app. simpl. lia.
  - exists None, h. done.
Qed.

Lemma pin_label_set_data m (pins : list Pin) :
  pin_label <$> (pin_set_data m <$> pins) = pin_label <$> pins.
Proof. rewrite <- list_fmap_compose. by apply list_fmap_ext. Qed.

Lemma pin_id_set_data m (pins : list Pin) :
  pin_id <$> (pin_set_data m <$> pins) = pin_id <$> pins.
Proof. rewrite <- list_fmap_compose. by apply list_fmap_ext. Qed.

Lemma demo_writes_outputs : process_writes_outputs Demo.classes.
Proof.
  intros n h. simpl.
  destruct (demo_process_cases n h) as (m & h' & -> & _). simpl.
  repeat split. apply pin_label_set_data.
Qed.

Lemma demo_keeps_ids : process_keeps_ids Demo.classes.
Proof. apply process_writes_keeps_ids, demo_writes_outputs. Qed.

Lemma demo_outputs_pixels n h :
  pin_pixels (Demo.process n h).2 <$> outputs (Demo.process n h).1 =
  (λ _, demo_result (kind n) (params n) (pin_pixels h <$> inputs n))
    <$> (pin_id <$> outputs n).
Proof.
  rewrite demo_process_result.
  destruct (demo_result _ _ _) as [b|]; simpl;
    rewrite <- !list_fmap_compose; apply list_fmap_ext; intros k pin _; simpl.
  - unfold pin_pixels. simpl. by rewrite lookup_app_r, Nat.sub_diag by lia.
  - done.
Qed.

Lemma demo_is_function : process_is_function Demo.classes.
Proof.
  split; [|split].
  - intros n h. simpl. destruct (demo_process_cases n h) as (m & h' & -> & Hp & _).
    simpl. unfold shape, skel. simpl. by rewrite pin_id_set_data.
  - intros n h _. simpl.
    destruct (demo_process_cases n h) as (m & h' & -> & _ & Hm). simpl.
    apply Forall_fmap, Forall_forall. intros pin _ l Hl. simpl in Hl. auto.
  - intros n1 h1 n2 h2 _ _ Hs Hin. simpl. rewrite !demo_outputs_pixels.
    unfold shape, skel in Hs. injection Hs as _ _ Hout Hk Hp.
    by rewrite Hin, Hk, Hp, Hout.
Qed.

Lemma chain_acyclic : acyclic Graphs.chain.
Proof.
  destruct (processGraph_pass Demo.classes 3 Graphs.chain) as [p|] eqn:E.
  - by eapply (pass_acyclic Demo.classes demo_keeps_ids).
  - vm_compute in E. discriminate.
Qed.

Lemma chain_allocated : editor_allocated Graphs.chain.
Proof.
  intros n Hn. apply list_elem_of_In in Hn. vm_compute in Hn.
  destruct Hn as [<-|[<-|[<-|[]]]]; split; repeat constructor;
    intros l Hl; discriminate.
Qed.

(* ================================================================== *)
(** * The statements on the small graphs *)
(* ================================================================== *)

(** The chain of the specification: the source publishes a constant, the
    second node doubles it, the third negates it. *)
Example chain_result :
  ∃ e', processGraph Demo.classes 3 Graphs.chain = Some e' ∧
        (∀ n pin, nodes e' !! 2 = Some n → outputs n !! 0 = Some pin →
                  pin_pixels (store e') pin = Some [-14; -18]%Z) ∧
        (p_trace <$> processGraph_pass Demo.classes 3 Graphs.chain)
        = Some [Processed 0; Copied 1 0 0 0; Processed 1; Copied 2 0 1 0;
                Processed 2].
Proof.
  eexists. split; [vm_compute; reflexivity|]. split.
  - intros n pin [= <-] [= <-]. reflexivity.
  - vm_compute. reflexivity.
Qed.

(** A node wired to itself: no depth is enough. *)
Example loop_diverges fuel : processGraph Demo.classes fuel Graphs.loop = None.
Proof.
  unfold processGraph.
  destruct (processGraph_pass Demo.classes fuel Graphs.loop) as [p|] eqn:E; [|done].
  exfalso.
  apply (pass_acyclic Demo.classes demo_keeps_ids _ _ _ E 0).
  apply tc_once. eexists _, _. split; [reflexivity|].
  split; [by left|]. split; reflexivity.
Qed.

Lemma evaluation_order_witness :
  process_keeps_ids Demo.classes ∧ acyclic Graphs.chain ∧
  process_is_function Demo.classes ∧ editor_allocated Graphs.chain ∧
  ∃ p, processGraph_pass Demo.classes (length (nodes Graphs.chain)) Graphs.chain
       = Some p ∧
       (∃ kj ki, kj < ki ∧ p_trace p !! kj = Some (Processed 0) ∧
                 p_trace p !! ki = Some (Processed 1)) ∧
       (∀ i node, p_nodes p !! i = Some node →
                  result_of Demo.classes (shape node)
                            (pin_pixels (p_store p) <$> inputs node)
                            (pin_pixels (p_store p) <$> outputs node)).
Proof.
  split; [exact demo_keeps_ids|]. split; [exact chain_acyclic|].
  split; [exact demo_is_function|]. split; [exact chain_allocated|].
  destruct (evaluation_order Demo.classes Graphs.chain demo_keeps_ids chain_acyclic)
    as (p & Hp & _ & _ & _ & Hord & _ & Hdata).
  exists p. split; [exact Hp|]. split.
  - apply Hord.
    eexists _, _. split; [reflexivity|]. split; [by left|]. split; reflexivity.
  - exact (proj1 (Hdata demo_is_function chain_allocated)).
Defined.

Lemma evaluation_terminates_witness :
  process_keeps_ids Demo.classes ∧ acyclic Graphs.chain ∧
  is_Some (processGraph Demo.classes 3 Graphs.chain).
Proof.
  split; [exact demo_keeps_ids|]. split; [exact chain_acyclic|].
  destruct (evaluation_terminates Demo.classes Graphs.chain demo_keeps_ids)
    as (Hrun & Hbound & _).
  apply Hrun, Hbound, chain_acyclic.
Defined.

Lemma connections_stay_valid_witness :
  ∃ e1 e2,
    run_ops Demo.classes 3 Graphs.chain_ops (clear Graphs.blank) = Some e1 ∧
    processGraph Demo.classes 3 e1 = Some e2 ∧
    length (connections e2) = 2 ∧
    NoDup (node_id <$> nodes e2) ∧
    ∀ conn, conn ∈ connections e2 → connection_ok (nodes e2) conn.
Proof.
  eexists _, _. split; [vm_compute; reflexivity|].
  split; [vm_compute; reflexivity|]. split; [reflexivity|].
  eapply (connections_stay_valid Demo.classes 3 Graphs.chain_ops Graphs.blank).
  - exact demo_keeps_ids.
  - vm_compute. reflexivity.
  - vm_compute. reflexivity.
Defined.

Lemma copy_is_deep_witness :
  ∃ node' dst l',
    p_nodes (copyPin (mkConnection 2 0 3 1) 1 0 Graphs.chain_started) !! 1
      = Some node' ∧
    inputs node' !! 0 = Some dst ∧
    pin_data dst = Some l' ∧ l' ≠ 0 ∧
    pixels (p_store (copyPin (mkConnection 2 0 3 1) 1 0 Graphs.chain_started))
           (Some l') = Some [7; 9]%Z.
Proof.
  pose proof (copy_is_deep (mkConnection 2 0 3 1) 1 0 Graphs.chain_started
    (mkNode 2 "Filter" [mkPin 3 "In" None false] [mkPin 4 "Out" None false]
            true BrightnessContrast [])
    (mkNode 0 "Image Input" [] [mkPin 1 "Image" (Some 0) false]
            true ImageInput [7; 9]%Z)
    0 0 (mkPin 1 "Image" (Some 0) false)
    eq_refl eq_refl eq_refl eq_refl eq_refl) as H.
  simpl in H.
  destruct H as (node' & dst & l' & H1 & H2 & _ & _ & H3 & H4 & H5 & _).
  { intros l [= <-]. vm_compute. lia. }
  exists node', dst, l'. repeat split; try done.
Defined.

Lemma disconnect_effect_witness :
  process_writes_outputs Demo.classes ∧
  deleteConnection Demo.classes 3 (-1) Graphs.chain = Some Graphs.chain ∧
  ∃ e', deleteConnection Demo.classes 3 0 Graphs.chain = Some e' ∧
        connections e' = [mkConnection 5 2 6 4].
Proof.
  split; [exact demo_writes_outputs|].
  destruct (disconnect_effect Demo.classes 3 (-1) Graphs.chain demo_writes_outputs)
    as (Hout & _ & _).
  split; [apply Hout; left; lia|].
  destruct (deleteConnection Demo.classes 3 0 Graphs.chain) as [e'|] eqn:E;
    [|vm_compute in E; discriminate].
  exists e'. split; [reflexivity|].
  destruct (disconnect_effect Demo.classes 3 0 Graphs.chain demo_writes_outputs)
    as (_ & _ & Hin).
  destruct (Hin (mkConnection 2 0 3 1) e') as (Hc & _);
    [lia|reflexivity|exact E|].
  rewrite Hc. vm_compute. reflexivity.
Defined.

Lemma pass_frame_witness :
  process_writes_outputs Demo.classes ∧
  ∃ e', processGraph Demo.classes 3 Graphs.chain = Some e' ∧
        label <$> nodes e' = label <$> nodes Graphs.chain ∧
        currentId e' = currentId Graphs.chain ∧
        connections e' `sublist_of` connections Graphs.chain.
Proof.
  split; [exact demo_writes_outputs|].
  destruct (processGraph Demo.classes 3 Graphs.chain) as [e'|] eqn:E;
    [|vm_compute in E; discriminate].
  exists e'. split; [reflexivity|].
  destruct (pass_frame Demo.classes 3 Graphs.chain e' demo_writes_outputs E)
    as (_ & Hl & Hc & _ & _ & Hs & _).
  split; [exact Hl|]. split; [exact Hc|exact Hs].
Defined.

Lemma evaluation_idempotent_witness :
  process_is_function Demo.classes ∧ editor_allocated Graphs.chain ∧
  acyclic Graphs.chain ∧
  ∃ e1 e2,
    processGraph Demo.classes 3 Graphs.chain = Some e1 ∧
    processGraph Demo.classes 3 e1 = Some e2 ∧
    ∀ x n1 n2,
      nodes e1 !! x = Some n1 → nodes e2 !! x = Some n2 →
      pin_pixels (store e2) <$> outputs n2 = pin_pixels (store e1) <$> outputs n1.
Proof.
  split; [exact demo_is_function|]. split; [exact chain_allocated|].
  split; [exact chain_acyclic|].
  exact (evaluation_idempotent Demo.classes Graphs.chain demo_is_function
           chain_allocated chain_acyclic).
Defined.

(** C6 without the proviso fails when another connection feeds the
    same input pin: after [deleteConnection 0] the pass has copied the
    second source's buffer into the pin that was released. *)
Lemma disconnect_fan_in_counterexample :
  ∃ e e' conn n pin,
    run_ops Demo.classes 2 Graphs.fan_in_ops (clear Graphs.blank) = Some e ∧
    connections e !! 0 = Some conn ∧
    deleteConnection Demo.classes 2 0 e = Some e' ∧
    findNodeById (nodes e) (inputNode conn) = Some 2 ∧
    nodes e' !! 2 = Some n ∧
    inputs n !! 0 = Some pin ∧
    pin_id pin = inputPin conn ∧
    Mat_empty (pin_data pin) = false.
Proof.
  eexists _, _, _, _, _.
  split; [vm_compute; reflexivity|].
  split; [reflexivity|].
  split; [vm_compute; reflexivity|].
  split; [reflexivity|].
  split; [reflexivity|].
  split; [reflexivity|].
  split; reflexivity.
Qed.

(** C10 (fan-out): in the graph [fan_out] two connections leave the same
    output pin, whose connected flag is set; deleting the first one
    clears the flag while the second connection stays. *)
Theorem disconnect_clears_shared_flag :
  ∃ c0 c1 pin0 e' m pin,
    connections Graphs.fan_out = [c0; c1] ∧
    outputNode c0 = outputNode c1 ∧ outputPin c0 = outputPin c1 ∧
    findNodeById (nodes Graphs.fan_out) (outputNode c0) = Some 0 ∧
    (nodes Graphs.fan_out !! 0) ≫= (λ m0, outputs m0 !! 0) = Some pin0 ∧
    pin_id pin0 = outputPin c0 ∧ pin_connected pin0 = true ∧
    deleteConnection Demo.classes 2 0 Graphs.fan_out = Some e' ∧
    connections e' = [c1] ∧
    nodes e' !! 0 = Some m ∧ outputs m !! 0 = Some pin ∧
    pin_id pin = outputPin c1 ∧ pin_connected pin = false.
Proof.
  eexists _, _, _, _, _, _.
  split; [reflexivity|].
  split; [reflexivity|]. split; [reflexivity|]. split; [reflexivity|].
  split; [reflexivity|]. split; [reflexivity|]. split; [reflexivity|].
  split; [vm_compute; reflexivity|].
  split; [reflexivity|]. split; [reflexivity|]. split; [reflexivity|].
  split; reflexivity.
Qed.

(* ================================================================== *)
(** * Proofs: lookups by id *)
(* ================================================================== *)

Lemma findNodeByPin_None ns x b :
  findNodeByPin ns x b = None ↔
  ∀ n, n ∈ ns → ¬ has_pin x (if b then inputs n else outputs n).
Proof.
  unfold findNodeByPin. rewrite fmap_None, list_find_None, Forall_forall. done.
Qed.

Lemma findNodeByPin_first ns x b i :
  findNodeByPin ns x b = Some i ↔
  ∃ n, ns !! i = Some n ∧ has_pin x (if b then inputs n else outputs n) ∧
       ∀ j m, ns !! j = Some m → j < i →
              ¬ has_pin x (if b then inputs m else outputs m).
Proof.
  unfold findNodeByPin. rewrite fmap_Some. split.
  - intros ([k n] & H & ->). apply list_find_Some in H. naive_solver.
  - intros (n & Hn & Hp & Hf). exists (i, n). split; [|done].
    apply list_find_Some. naive_solver.
Qed.

Lemma findPinIndex_has_pin pins x : has_pin x pins → is_Some (findPinIndex pins x).
Proof.
  unfold has_pin, findPinIndex. intros H.
  destruct (list_find (λ pin, pin_id pin = x) pins) as [[k pin]|] eqn:E; [by eexists|].
  apply list_find_None in E. rewrite Exists_exists in H.
  destruct H as (pin & Hin & Hid). rewrite Forall_forall in E. by destruct (E pin Hin).
Qed.

Lemma node_ids_NoDup ns n : NoDup (all_ids ns) → n ∈ ns → NoDup (node_ids n).
Proof.
  unfold all_ids. induction ns as [|a ns IH]; intros Hnd Hin.
  - by apply elem_of_nil in Hin.
  - rewrite bind_cons in Hnd. apply NoDup_app in Hnd as (Ha & _ & Hns).
    apply elem_of_cons in Hin as [->|Hin]; auto.
Qed.

(** With distinct ids, an id belongs to one node. *)
Lemma ids_owner ns i j n m x :
  NoDup (all_ids ns) → ns !! i = Some n → ns !! j = Some m →
  x ∈ node_ids n → x ∈ node_ids m → i = j.
Proof.
  unfold all_ids. revert i j. induction ns as [|a ns IH]; intros i j Hnd Hi Hj Hn Hm.
  - done.
  - rewrite bind_cons in Hnd. apply NoDup_app in Hnd as (_ & Hdis & Hns).
    destruct i as [|i], j as [|j]; simpl in *.
    + done.
    + injection Hi as ->. exfalso. apply (Hdis x Hn).
      apply list_elem_of_bind. exists m. split; [done|].
      by eapply list_elem_of_lookup_2.
    + injection Hj as ->. exfalso. apply (Hdis x Hm).
      apply list_elem_of_bind. exists n. split; [done|].
      by eapply list_elem_of_lookup_2.
    + f_equal. by apply IH.
Qed.

Lemma pin_in_node_ids x (b : bool) n :
  has_pin x (if b then inputs n else outputs n) → x ∈ node_ids n.
Proof.
  rewrite has_pin_ids. unfold node_ids. intros H. right.
  apply elem_of_app. destruct b; auto.
Qed.

Lemma findNodeById_unique ns i n :
  NoDup (all_ids ns) → ns !! i = Some n → findNodeById ns (node_id n) = Some i.
Proof.
  intros Hnd Hn. apply findNodeById_Some. exists n. split; [done|]. split; [done|].
  intros j m Hm Hlt Hid.
  assert (j = i); [|lia].
  eapply (ids_owner ns j i m n (node_id n)); [done..| |]; unfold node_ids.
  - rewrite <- Hid. by left.
  - by left.
Qed.

Lemma findNodeByPin_unique ns i n x (b : bool) :
  NoDup (all_ids ns) → ns !! i = Some n →
  has_pin x (if b then inputs n else outputs n) →
  findNodeByPin ns x b = Some i.
Proof.
  intros Hnd Hn Hp. apply findNodeByPin_first. exists n. split; [done|]. split; [done|].
  intros j m Hm Hlt Hpm.
  assert (j = i); [|lia].
  eapply (ids_owner ns j i m n x); eauto using pin_in_node_ids.
Qed.

(** With distinct ids, an input pin is nobody's output pin, and an output
    pin nobody's input pin. *)
Lemma findNodeByPin_other_side ns n x (b : bool) :
  NoDup (all_ids ns) → n ∈ ns →
  has_pin x (if b then inputs n else outputs n) →
  findNodeByPin ns x (negb b) = None.
Proof.
  intros Hnd Hin Hp. apply findNodeByPin_None. intros m Hm Hpm.
  apply list_elem_of_lookup_1 in Hin as [i Hi].
  apply list_elem_of_lookup_1 in Hm as [j Hj].
  assert (i = j) as <-.
  { eapply (ids_owner ns i j n m x); eauto using pin_in_node_ids. }
  assert (m = n) as -> by congruence.
  assert (NoDup (node_ids n)) as Hn.
  { eapply node_ids_NoDup; [done|]. by eapply list_elem_of_lookup_2. }
  unfold node_ids in Hn. apply NoDup_cons in Hn as [_ Hn].
  apply NoDup_app in Hn as (_ & Hdis & _).
  rewrite !has_pin_ids in *. destruct b; simpl in *; by eapply Hdis.
Qed.

(* ================================================================== *)
(** * Proofs: creating links and nodes *)
(* ================================================================== *)

Lemma lookup_alter_dirty (ns : list BaseNode) i x n :
  ns !! x = Some n →
  alter (node_set_dirty true) i ns !! x
  = Some (if decide (x = i) then node_set_dirty true n else n).
Proof.
  intros Hn. destruct (decide (x = i)) as [->|Hne].
  - by rewrite list_lookup_alter_eq, Hn.
  - by rewrite list_lookup_alter_ne.
Qed.

Lemma skeleton_dirty i ns : skeleton (alter (node_set_dirty true) i ns) = skeleton ns.
Proof. by apply skeleton_alter. Qed.

(** X1 (links that are ignored): [handleConnections] changes nothing
    when the start pin is the output pin of no node or the end pin is the
    input pin of no node; with distinct ids this is the case for a link
    that starts at an input pin or ends at an output pin. *)
Theorem handleConnections_ignores (startPin endPin : Z) (e : NodeEditor) :
  ((∀ n, n ∈ nodes e → ¬ has_pin startPin (outputs n)) ∨
   (∀ n, n ∈ nodes e → ¬ has_pin endPin (inputs n)) →
   handleConnections startPin endPin e = e) ∧
  (NoDup (all_ids (nodes e)) →
   (∃ n, n ∈ nodes e ∧
         (has_pin startPin (inputs n) ∨ has_pin endPin (outputs n))) →
   handleConnections startPin endPin e = e).
Proof.
  assert (∀ s t, findNodeByPin (nodes e) s false = None ∨
                 findNodeByPin (nodes e) t true = None →
                 handleConnections s t e = e) as Hnone.
  { intros s t H. unfold handleConnections. destruct H as [-> | H]; [done|].
    rewrite H. by destruct (findNodeByPin (nodes e) s false). }
  split.
  - intros [H|H]; apply Hnone; [left|right]; by apply findNodeByPin_None.
  - intros Hnd (n & Hn & [H|H]); apply Hnone; [left|right].
    + by apply (findNodeByPin_other_side _ n _ true).
    + by apply (findNodeByPin_other_side _ n _ false).
Qed.

Lemma handleConnections_taken (startPin endPin : Z) (e : NodeEditor)
    (i j : nat) (inNode outNode : BaseNode) :
  NoDup (all_ids (nodes e)) →
  nodes e !! i = Some inNode → has_pin endPin (inputs inNode) →
  nodes e !! j = Some outNode → has_pin startPin (outputs outNode) →
  handleConnections startPin endPin e
  = set_nodes
      (alter (node_set_dirty true) i (alter (node_set_dirty true) j (nodes e)))
      (set_connections
         (connections e
          ++ [mkConnection (node_id inNode) (node_id outNode) endPin startPin])
         e).
Proof.
  intros Hnd Hi Hpi Hj Hpj.
  pose proof (findNodeByPin_unique _ _ _ _ true Hnd Hi Hpi) as Hfi.
  pose proof (findNodeByPin_unique _ _ _ _ false Hnd Hj Hpj) as Hfj.
  unfold handleConnections. by rewrite Hfi, Hfj, Hi, Hj.
Qed.

Lemma handleConnections_edge (startPin endPin : Z) (e : NodeEditor)
    (i j : nat) (inNode outNode : BaseNode) :
  NoDup (all_ids (nodes e)) →
  nodes e !! i = Some inNode → has_pin endPin (inputs inNode) →
  nodes e !! j = Some outNode → has_pin startPin (outputs outNode) →
  skeleton (nodes (handleConnections startPin endPin e)) = skeleton (nodes e) ∧
  edge (nodes (handleConnections startPin endPin e)) i
       (mkConnection (node_id inNode) (node_id outNode) endPin startPin) = Some j.
Proof.
  intros Hnd Hi Hpi Hj Hpj.
  rewrite (handleConnections_taken _ _ _ _ _ _ _ Hnd Hi Hpi Hj Hpj). simpl.
  assert (skeleton (alter (node_set_dirty true) i
                      (alter (node_set_dirty true) j (nodes e)))
          = skeleton (nodes e)) as Hsk.
  { by rewrite !skeleton_dirty. }
  split; [done|].
  rewrite (edge_skeleton _ _ _ _ Hsk). unfold edge. rewrite Hi. simpl.
  rewrite decide_True by done. by apply findNodeById_unique.
Qed.

(** X2 (links that are taken): with distinct ids, a link from an output
    pin to an input pin appends one connection, made of the ids of the
    two owners and of the two pins, whatever connections exist already;
    it sets the dirty flag of the two owners and writes nothing else;
    the new connection makes the owner of the input pin depend on the
    owner of the output pin, and its pins resolve. *)
Theorem handleConnections_appends (startPin endPin : Z) (e : NodeEditor)
    (i j : nat) (inNode outNode : BaseNode) :
  NoDup (all_ids (nodes e)) →
  nodes e !! i = Some inNode → has_pin endPin (inputs inNode) →
  nodes e !! j = Some outNode → has_pin startPin (outputs outNode) →
  connections (handleConnections startPin endPin e)
  = connections e ++ [mkConnection (node_id inNode) (node_id outNode) endPin startPin] ∧
  (∀ x n, nodes e !! x = Some n →
          nodes (handleConnections startPin endPin e) !! x
          = Some (if decide (x = i ∨ x = j) then node_set_dirty true n else n)) ∧
  length (nodes (handleConnections startPin endPin e)) = length (nodes e) ∧
  currentId (handleConnections startPin endPin e) = currentId e ∧
  selectedNode (handleConnections startPin endPin e) = selectedNode e ∧
  store (handleConnections startPin endPin e) = store e ∧
  edge (nodes (handleConnections startPin endPin e)) i
       (mkConnection (node_id inNode) (node_id outNode) endPin startPin) = Some j ∧
  is_Some (findPinIndex (inputs inNode) endPin) ∧
  is_Some (findPinIndex (outputs outNode) startPin).
Proof.
  intros Hnd Hi Hpi Hj Hpj.
  destruct (handleConnections_edge _ _ _ _ _ _ _ Hnd Hi Hpi Hj Hpj) as [_ He].
  revert He. rewrite (handleConnections_taken _ _ _ _ _ _ _ Hnd Hi Hpi Hj Hpj).
  simpl. intros He.
  split; [done|]. split; [|split; [|split; [done|split; [done|split; [done|]]]]].
  - intros x n Hn.
    erewrite lookup_alter_dirty; [|by erewrite lookup_alter_dirty].
    repeat case_decide; try done; naive_solver.
  - by rewrite !length_alter.
  - split; [done|]. split; by apply findPinIndex_has_pin.
Qed.

(** X3 (a new node is found by its ids): after [addNode] on an editor
    with fresh ids, [findNodeById] finds the new node under the old value
    of the counter, [findNodeByPin] finds it under each of its input pin
    ids as an input and under each of its output pin ids as an output,
    and not the other way round; every lookup that found a node before
    finds the same node. *)
Theorem addNode_lookup (K : NodeClasses) (T : NodeType) (node : BaseNode)
    (e : NodeEditor) :
  ids_fresh e → createNode K T = Some node →
  findNodeById (nodes (addNode K T e)) (currentId e) = Some (length (nodes e)) ∧
  (∀ k, k < length (inputs node) →
        findNodeByPin (nodes (addNode K T e)) (currentId e + 1 + Z.of_nat k) true
        = Some (length (nodes e)) ∧
        findNodeByPin (nodes (addNode K T e)) (currentId e + 1 + Z.of_nat k) false
        = None) ∧
  (∀ k, k < length (outputs node) →
        findNodeByPin (nodes (addNode K T e))
          (currentId e + 1 + Z.of_nat (length (inputs node)) + Z.of_nat k) false
        = Some (length (nodes e)) ∧
        findNodeByPin (nodes (addNode K T e))
          (currentId e + 1 + Z.of_nat (length (inputs node)) + Z.of_nat k) true
        = None) ∧
  (∀ x i, findNodeById (nodes e) x = Some i →
          findNodeById (nodes (addNode K T e)) x = Some i) ∧
  (∀ x b i, findNodeByPin (nodes e) x b = Some i →
            findNodeByPin (nodes (addNode K T e)) x b = Some i).
Proof.
  intros Hfresh Hc.
  destruct (addNode_ids_fresh K T e Hfresh) as [Hnd _].
  destruct (addNode_known K T node e Hc) as (n' & Hns & (Hid & Hin & Hout) & _).
  rewrite Hns in *.
  assert ((nodes e ++ [n']) !! length (nodes e) = Some n') as Hn'.
  { by rewrite lookup_app_r, Nat.sub_diag by lia. }
  assert (n' ∈ nodes e ++ [n']) as Hel by (by eapply list_elem_of_lookup_2).
  split; [|split; [|split; [|split]]].
  - rewrite <- Hid. by apply findNodeById_unique.
  - intros k Hk.
    assert (has_pin (currentId e + 1 + Z.of_nat k) (inputs n')) as Hp.
    { rewrite has_pin_ids, Hin, elem_of_seqZ. lia. }
    split.
    + by apply (findNodeByPin_unique _ _ n' _ true).
    + by apply (findNodeByPin_other_side _ n' _ true).
  - intros k Hk.
    assert (has_pin (currentId e + 1 + Z.of_nat (length (inputs node)) + Z.of_nat k)
                    (outputs n')) as Hp.
    { rewrite has_pin_ids, Hout, elem_of_seqZ. lia. }
    split.
    + by apply (findNodeByPin_unique _ _ n' _ false).
    + by apply (findNodeByPin_other_side _ n' _ false).
  - intros x i (n & Hn & Hx & Hfirst)%findNodeById_Some.
    apply findNodeById_Some. exists n. split; [by apply lookup_app_l_Some|].
    split; [done|]. intros j m Hm Hlt. apply (Hfirst j m); [|done].
    rewrite lookup_app_l in Hm; [done|]. apply lookup_lt_Some in Hn. lia.
  - intros x b i (n & Hn & Hx & Hfirst)%findNodeByPin_first.
    apply findNodeByPin_first. exists n. split; [by apply lookup_app_l_Some|].
    split; [done|]. intros j m Hm Hlt. apply (Hfirst j m); [|done].
    rewrite lookup_app_l in Hm; [done|]. apply lookup_lt_Some in Hn. lia.
Qed.

(* ================================================================== *)
(** * Proofs: ids and flags along the edits *)
(* ================================================================== *)

Section Bookkeeping.
Variable K : NodeClasses.
Hypothesis HK : process_keeps_ids K.

Lemma processGraph_ids fuel e e' :
  processGraph K fuel e = Some e' →
  all_ids (nodes e') = all_ids (nodes e) ∧ currentId e' = currentId e.
Proof.
  intros H. split.
  - apply all_ids_skeleton. by eapply processGraph_skeleton.
  - unfold processGraph in H. destruct (processGraph_pass K fuel e); [|done].
    by injection H as <-.
Qed.

Lemma apply_op_ids fuel op e e' :
  apply_op K fuel op e = Some e' → ids_fresh e → ids_fresh e' ∧ older e e'.
Proof.
  intros H [Hnd Hlt]. unfold older.
  destruct op as [T|x|s t|idx]; simpl in H.
  - injection H as <-. split; [by apply addNode_ids_fresh|].
    destruct (createNode K T) as [node|] eqn:Hc.
    + destruct (addNode_known K T node e Hc) as (n' & Hns & Hnum & Hcur & _).
      rewrite Hns, Hcur, all_ids_snoc. split; [lia|].
      intros x [Hx|Hx]%elem_of_app Hxc; [done|].
      rewrite (numbered_from_ids _ _ _ Hnum), elem_of_seqZ in Hx. lia.
    + unfold addNode. rewrite Hc. split; [lia|done].
  - unfold removeNode in H.
    destruct (findNodeById (nodes e) x) as [i|].
    + destruct (processGraph_ids _ _ _ H) as [Hids Hcur]. simpl in *.
      destruct (all_ids_delete i (nodes e) Hnd) as [Hnd' Hsub].
      unfold ids_fresh. rewrite Hids, Hcur.
      split; [split; [done|by auto]|]. split; [lia|by auto].
    + injection H as <-. simpl. split; [done|]. split; [lia|done].
  - injection H as <-.
    assert (all_ids (nodes (handleConnections s t e)) = all_ids (nodes e) ∧
            currentId (handleConnections s t e) = currentId e) as [Hids Hcur].
    { unfold handleConnections.
      destruct (findNodeByPin (nodes e) s false) as [j|]; [|done].
      destruct (findNodeByPin (nodes e) t true) as [i|]; [|done].
      destruct (nodes e !! j), (nodes e !! i); try done. simpl.
      split; [|done]. apply all_ids_skeleton. by rewrite !skeleton_dirty. }
    unfold ids_fresh. rewrite Hids, Hcur. split; [done|]. split; [lia|done].
  - unfold deleteConnection in H. case_decide.
    { injection H as <-. split; [done|]. split; [lia|done]. }
    destruct (connections e !! Z.to_nat idx) as [conn|].
    + destruct (processGraph_ids _ _ _ H) as [Hids Hcur]. simpl in *.
      assert (all_ids (clearOutputs conn (clearInputs conn (nodes e)))
              = all_ids (nodes e)) as Hu.
      { apply all_ids_skeleton. apply (unlink_skeleton 0 conn e). }
      unfold ids_fresh. rewrite Hids, Hcur, Hu. split; [done|]. split; [lia|done].
    + injection H as <-. split; [done|]. split; [lia|done].
Qed.

Lemma run_ops_ids fuel ops e e' :
  run_ops K fuel ops e = Some e' → ids_fresh e → ids_fresh e' ∧ older e e'.
Proof.
  unfold older. revert e. induction ops as [|op ops IH]; intros e H Hf; simpl in H.
  - injection H as <-. split; [done|]. split; [lia|done].
  - destruct (apply_op K fuel op e) as [e1|] eqn:Hop; [|done].
    destruct (apply_op_ids _ _ _ _ Hop Hf) as (Hf1 & Hle1 & Hold1).
    destruct (IH _ H Hf1) as (Hf' & Hle & Hold).
    split; [done|]. split; [lia|]. intros x Hx Hxc.
    apply Hold1; [|done]. apply Hold; [done|lia].
Qed.

End Bookkeeping.

(** X4 (ids are not reused): along any sequence of edits that starts
    with fresh ids, the counter never goes back, the ids stay distinct
    and below the counter, and every id in use that is below the counter
    of the start was in use at the start: an id that a removed node or
    pin had is not given out again. *)
Theorem ids_never_reused (K : NodeClasses) (fuel : nat) (ops : list Op)
    (e e' : NodeEditor) :
  process_keeps_ids K → ids_fresh e →
  run_ops K fuel ops e = Some e' →
  (currentId e ≤ currentId e')%Z ∧
  ids_fresh e' ∧
  ∀ x, x ∈ all_ids (nodes e') → (x < currentId e)%Z → x ∈ all_ids (nodes e).
Proof.
  intros HK Hf H. destruct (run_ops_ids K HK _ _ _ _ H Hf) as (? & ? & ?). done.
Qed.

(* ------------------------------------------------------------------ *)

Lemma assignPinIds_connected c pins :
  pin_connected <$> (assignPinIds c pins).1 = pin_connected <$> pins.
Proof.
  revert c. induction pins as [|pin pins IH]; intros c; [done|].
  cbn [assignPinIds]. specialize (IH (c + 1)%Z).
  destruct (assignPinIds (c + 1) pins) as [rest c'].
  cbn [fst] in *. by rewrite !fmap_cons, IH.
Qed.

Lemma all_off (pins pins' : list Pin) :
  pin_connected <$> pins' = pin_connected <$> pins →
  (∀ pin, pin ∈ pins → pin_connected pin = false) →
  ∀ pin, pin ∈ pins' → pin_connected pin = false.
Proof.
  intros Heq Hall pin Hin.
  assert (pin_connected pin ∈ pin_connected <$> pins') as H.
  { apply list_elem_of_fmap. eauto. }
  rewrite Heq in H. apply list_elem_of_fmap in H as (pin0 & -> & Hin0). auto.
Qed.

Lemma label_connected n n' :
  label n' = label n →
  pin_connected <$> inputs n' = pin_connected <$> inputs n ∧
  pin_connected <$> outputs n' = pin_connected <$> outputs n.
Proof.
  unfold label. intros [= _ _ Hin Hout].
  assert (∀ l : list Pin, pin_connected <$> l = (λ x, x.2) <$> (pin_label <$> l)) as E.
  { intros l. by rewrite <- list_fmap_compose. }
  by rewrite !E, Hin, Hout.
Qed.

Lemma unflagged_node ns :
  unflagged ns ↔
  ∀ n, n ∈ ns → (∀ pin, pin ∈ inputs n → pin_connected pin = false) ∧
                (∀ pin, pin ∈ outputs n → pin_connected pin = false).
Proof.
  unfold unflagged. split.
  - intros H n Hn. split; intros pin Hp; apply (H n pin Hn); apply elem_of_app; auto.
  - intros H n pin Hn Hp. destruct (H n Hn) as [H1 H2].
    apply elem_of_app in Hp as [Hp|Hp]; auto.
Qed.

Lemma unflagged_labels ns ns' :
  label <$> ns' = label <$> ns → unflagged ns → unflagged ns'.
Proof.
  rewrite !unflagged_node. intros Heq H n' Hn'.
  apply list_elem_of_lookup_1 in Hn' as [i Hi].
  assert ((label <$> ns) !! i = Some (label n')) as Hl.
  { by rewrite <- Heq, list_lookup_fmap, Hi. }
  rewrite list_lookup_fmap in Hl. apply fmap_Some in Hl as (n & Hn & Hlab).
  destruct (label_connected n n' Hlab) as [Hin Hout].
  destruct (H n) as [H1 H2]; [by eapply list_elem_of_lookup_2|].
  split; eapply all_off; eauto.
Qed.

Lemma unflagged_sub ns ns' : ns' ⊆ ns → unflagged ns → unflagged ns'.
Proof. unfold unflagged. intros Hsub H n pin Hn. apply H. by apply Hsub. Qed.

Lemma unflagged_alter (f : BaseNode → BaseNode) i ns :
  (∀ n, (∀ pin, pin ∈ inputs n ++ outputs n → pin_connected pin = false) →
        ∀ pin, pin ∈ inputs (f n) ++ outputs (f n) → pin_connected pin = false) →
  unflagged ns → unflagged (alter f i ns).
Proof.
  intros Hf H n pin Hn Hp.
  apply list_elem_of_lookup_1 in Hn as [x Hx].
  destruct (decide (x = i)) as [->|Hne].
  - rewrite list_lookup_alter_eq in Hx. apply fmap_Some in Hx as (n0 & Hn0 & ->).
    eapply Hf; [|done]. intros pin0. apply H. by eapply list_elem_of_lookup_2.
  - rewrite list_lookup_alter_ne in Hx by done.
    eapply H; [|done]. by eapply list_elem_of_lookup_2.
Qed.

Lemma unflagged_unlink k conn e :
  unflagged (nodes e) → unflagged (nodes (unlink k conn e)).
Proof.
  intros H. simpl. unfold clearOutputs, clearInputs.
  assert (unflagged (match findNodeById (nodes e) (inputNode conn) with
                     | Some i => alter (λ n, node_set_inputs
                                   (clearInputPin (inputPin conn) <$> inputs n) n)
                                   i (nodes e)
                     | None => nodes e
                     end)) as H1.
  { destruct (findNodeById (nodes e) (inputNode conn)); [|done].
    apply unflagged_alter; [|done]. intros n0 Hn pin. simpl.
    intros [Hp|Hp]%elem_of_app.
    - apply list_elem_of_fmap in Hp as (pin0 & -> & Hp0).
      unfold clearInputPin. case_decide; [done|]. apply Hn, elem_of_app. auto.
    - apply Hn, elem_of_app. auto. }
  destruct (findNodeById _ (outputNode conn)); [|done].
  apply unflagged_alter; [|done]. intros n0 Hn pin. simpl.
  intros [Hp|Hp]%elem_of_app.
  - apply Hn, elem_of_app. auto.
  - apply list_elem_of_fmap in Hp as (pin0 & -> & Hp0).
    unfold clearOutputPin. case_decide; [done|]. apply Hn, elem_of_app. auto.
Qed.

Section Flags.
Variable K : NodeClasses.
Hypothesis HW : process_writes_outputs K.
Hypothesis Hnew : ∀ T node, createNode K T = Some node → unflagged [node].

Lemma processGraph_unflagged fuel e e' :
  processGraph K fuel e = Some e' → unflagged (nodes e) → unflagged (nodes e').
Proof.
  unfold processGraph. intros H.
  destruct (processGraph_pass K fuel e) as [p|] eqn:Hp; [|done].
  injection H as <-. simpl. apply unflagged_labels. by eapply pass_labels.
Qed.

Lemma apply_op_unflagged fuel op e e' :
  apply_op K fuel op e = Some e' → unflagged (nodes e) → unflagged (nodes e').
Proof.
  intros H Hu. destruct op as [T|x|s t|idx]; simpl in H.
  - injection H as <-. unfold addNode.
    destruct (createNode K T) as [node|] eqn:Hc; [|done].
    pose proof (assignPinIds_connected (currentId e + 1) (inputs node)) as Hin.
    destruct (assignPinIds (currentId e + 1) (inputs node)) as [ins c1].
    pose proof (assignPinIds_connected c1 (outputs node)) as Hout.
    destruct (assignPinIds c1 (outputs node)) as [outs c2]. simpl in *.
    apply unflagged_node. intros n [Hn|Hn]%elem_of_app.
    + exact (proj1 (unflagged_node _) Hu n Hn).
    + apply list_elem_of_singleton in Hn as ->. simpl.
      specialize (Hnew T node Hc). rewrite unflagged_node in Hnew.
      destruct (Hnew node) as [H1 H2]; [by apply list_elem_of_singleton|].
      split; eapply all_off; eauto.
  - unfold removeNode in H. destruct (findNodeById (nodes e) x) as [i|].
    + apply processGraph_unflagged in H; [done|]. simpl.
      eapply unflagged_sub; [|done]. apply sublist_subseteq, sublist_delete.
    + by injection H as <-.
  - injection H as <-. unfold handleConnections.
    destruct (findNodeByPin (nodes e) s false) as [j|]; [|done].
    destruct (findNodeByPin (nodes e) t true) as [i|]; [|done].
    destruct (nodes e !! j), (nodes e !! i); try done. simpl.
    apply unflagged_alter; [done|]. by apply unflagged_alter.
  - unfold deleteConnection in H. case_decide; [by injection H as <-|].
    destruct (connections e !! Z.to_nat idx) as [conn|]; [|by injection H as <-].
    apply processGraph_unflagged in H; [done|]. by apply unflagged_unlink.
Qed.

Lemma run_ops_unflagged fuel ops e e' :
  run_ops K fuel ops e = Some e' → unflagged (nodes e) → unflagged (nodes e').
Proof.
  revert e. induction ops as [|op ops IH]; intros e H Hu; simpl in H.
  - by injection H as <-.
  - destruct (apply_op K fuel op e) as [e1|] eqn:Hop; [|done].
    eapply IH; [done|]. by eapply apply_op_unflagged.
Qed.

End Flags.

(** X5 (the connected flag is never set): when no constructor sets the
    connected flag of a pin and [process()] leaves the flags alone, no
    sequence of [addNode], node removal, [handleConnections] and
    [deleteConnection] on a cleared editor, and no pass, ever sets one:
    creating a link does not mark its pins as connected. *)
Theorem connected_never_set (K : NodeClasses) (fuel : nat) (ops : list Op)
    (e0 e : NodeEditor) :
  process_writes_outputs K →
  (∀ T node, createNode K T = Some node → unflagged [node]) →
  run_ops K fuel ops (clear e0) = Some e →
  unflagged (nodes e) ∧
  ∀ e', processGraph K fuel e = Some e' → unflagged (nodes e').
Proof.
  intros HW Hnew H.
  assert (unflagged (nodes e)) as Hu.
  { eapply (run_ops_unflagged K HW Hnew); [done|].
    intros n pin Hn. by apply elem_of_nil in Hn. }
  split; [done|]. intros e' He'. by eapply (processGraph_unflagged K HW).
Qed.

(* ------------------------------------------------------------------ *)

Lemma addNode_store K T e h :
  addNode K T (mkEditor (nodes e) (connections e) (currentId e) (selectedNode e) h)
  = mkEditor (nodes (addNode K T e)) (connections (addNode K T e))
             (currentId (addNode K T e)) (selectedNode (addNode K T e)) h.
Proof.
  unfold addNode. simpl. destruct (createNode K T) as [node|]; [|done].
  destruct (assignPinIds (currentId e + 1) (inputs node)) as [ins c1].
  by destruct (assignPinIds c1 (outputs node)) as [outs c2].
Qed.

Lemma addNodes_store K Ts e h :
  addNodes K Ts (mkEditor (nodes e) (connections e) (currentId e) (selectedNode e) h)
  = mkEditor (nodes (addNodes K Ts e)) (connections (addNodes K Ts e))
             (currentId (addNodes K Ts e)) (selectedNode (addNodes K Ts e)) h.
Proof.
  unfold addNodes. revert e. induction Ts as [|T Ts IH]; intros e; simpl; [done|].
  rewrite addNode_store. apply (IH (addNode K T e)).
Qed.

Lemma addNodes_keeps K Ts e :
  connections (addNodes K Ts e) = connections e ∧
  selectedNode (addNodes K Ts e) = selectedNode e.
Proof.
  unfold addNodes. induction Ts as [|T Ts IH] using rev_ind; [done|].
  rewrite foldl_app. simpl.
  destruct (createNode K T) as [node|] eqn:Hc.
  - destruct (addNode_known K T node (foldl (λ e T, addNode K T e) e Ts) Hc)
      as (n' & _ & _ & _ & Hcs & Hsel & _). by rewrite Hcs, Hsel.
  - unfold addNode at 1 3. by rewrite Hc.
Qed.

(** X6 ([clear] starts over): the nodes, ids and counter that a run of
    [addNode] calls produces after [clear] do not depend on what the
    editor held before; the first node added after [clear] has id 0
    again, and there are no connections and no selection. *)
Theorem clear_starts_over (K : NodeClasses) (Ts : list NodeType)
    (e1 e2 : NodeEditor) :
  nodes (addNodes K Ts (clear e1)) = nodes (addNodes K Ts (clear e2)) ∧
  currentId (addNodes K Ts (clear e1)) = currentId (addNodes K Ts (clear e2)) ∧
  connections (addNodes K Ts (clear e1)) = [] ∧
  selectedNode (addNodes K Ts (clear e1)) = None ∧
  ∀ T node, createNode K T = Some node →
            ∃ n', nodes (addNode K T (clear e1)) = [n'] ∧ node_id n' = 0%Z.
Proof.
  pose proof (addNodes_store K Ts (clear e2) (store e1)) as H.
  change (mkEditor (nodes (clear e2)) (connections (clear e2))
                   (currentId (clear e2)) (selectedNode (clear e2)) (store e1))
    with (clear e1) in H.
  rewrite H. simpl. split; [done|]. split; [done|].
  destruct (addNodes_keeps K Ts (clear e2)) as [-> ->]. split; [done|]. split; [done|].
  intros T node Hc.
  destruct (addNode_known K T node (clear e1) Hc) as (n' & Hns & (Hid & _) & _).
  exists n'. by rewrite Hns.
Qed.

(* ================================================================== *)
(** * Proofs: more on the evaluation *)
(* ================================================================== *)

(** ** A graph without connections *)

Lemma processNode_alone K fuel i p :
  i ∉ p_processed p → processNode K (S fuel) [] i p = Some (invoke K i p).
Proof. intros Hi. simpl. by rewrite decide_False. Qed.

Lemma pass_alone_steps K fuel e k :
  k ≤ length (nodes e) →
  ∃ p, forEach (processNode K (S fuel) []) (seq 0 k) (start_pass e) = Some p ∧
       p_trace p = Processed <$> seq 0 k ∧
       (∀ x, x ∈ p_processed p ↔ x < k) ∧
       length (p_nodes p) = length (nodes e) ∧
       (∀ i, k ≤ i → p_nodes p !! i = nodes e !! i) ∧
       (∀ i n, i < k → nodes e !! i = Some n →
               ∃ h, p_nodes p !! i = Some (process K n h).1).
Proof.
  induction k as [|k IH]; intros Hk.
  - exists (start_pass e). simpl. split; [done|]. split; [done|].
    split; [|split; [done|split; [done|]]].
    + intros x. split; [set_solver|lia].
    + intros i n Hi. lia.
  - destruct IH as (p & Hp & Ht & Hpr & Hlen & Hrest & Hdone); [lia|].
    rewrite seq_S, forEach_app, Hp. cbn [forEach Nat.add].
    rewrite processNode_alone by (rewrite Hpr; lia).
    destruct (lookup_lt_is_Some_2 (nodes e) k) as [n Hn]; [lia|].
    assert (p_nodes p !! k = Some n) as Hpk by (by rewrite Hrest).
    unfold invoke. rewrite Hpk.
    destruct (process K n (p_store p)) as [node' h'] eqn:Hproc.
    eexists. split; [done|]. simpl.
    split; [by rewrite Ht, fmap_app|].
    split; [|split; [by rewrite length_insert|split]].
    + intros x. rewrite elem_of_union, elem_of_singleton, Hpr. lia.
    + intros i Hi. rewrite list_lookup_insert_ne by lia. apply Hrest. lia.
    + intros i m Hi Hm. destruct (decide (i = k)) as [->|Hne].
      * exists (p_store p). rewrite list_lookup_insert_eq by lia.
        assert (m = n) as -> by congruence. by rewrite Hproc.
      * rewrite list_lookup_insert_ne by done. apply Hdone; [lia|done].
Qed.

(** X7 (no connections): when no connection of the graph has both its
    node ids resolving, a pass needs no nested call and calls
    [process()] on the nodes in the order of the node list, each on the
    node as the editor holds it; on an empty graph it does nothing. *)
Theorem pass_without_connections (K : NodeClasses) (fuel : nat) (e : NodeEditor) :
  prune (nodes e) (connections e) = [] →
  ∃ p, processGraph_pass K (S fuel) e = Some p ∧
       p_trace p = Processed <$> seq 0 (length (nodes e)) ∧
       length (p_nodes p) = length (nodes e) ∧
       (∀ i n, nodes e !! i = Some n →
               ∃ h, p_nodes p !! i = Some (process K n h).1) ∧
       (nodes e = [] → p = start_pass e).
Proof.
  intros Hconns. unfold processGraph_pass. rewrite Hconns.
  destruct (pass_alone_steps K fuel e (length (nodes e)))
    as (p & Hp & Ht & _ & Hlen & _ & Hdone); [lia|].
  exists p. split; [done|]. split; [done|]. split; [done|]. split.
  - intros i n Hn. apply Hdone; [|done]. by eapply lookup_lt_Some.
  - intros Hnil. rewrite Hnil in Hp. simpl in Hp. by injection Hp as <-.
Qed.

(** ** Pruning *)

Lemma valid_ids ns ns' c :
  node_id <$> ns = node_id <$> ns' → isConnectionValid ns c → isConnectionValid ns' c.
Proof.
  intros Hids. unfold isConnectionValid.
  by rewrite !(findNodeById_ids ns ns' _ Hids).
Qed.

(** X8 (a pass heals the connections, once): after a pass the
    connections are those of before whose two node ids resolve, each of
    them still resolves, and a second pass removes none. *)
Theorem pass_heals (K : NodeClasses) (fuel : nat) (e e1 : NodeEditor) :
  process_keeps_ids K →
  processGraph K fuel e = Some e1 →
  (∀ c, c ∈ connections e1 ↔ c ∈ connections e ∧ isConnectionValid (nodes e) c) ∧
  (∀ c, c ∈ connections e1 → isConnectionValid (nodes e1) c) ∧
  ∀ fuel' e2, processGraph K fuel' e1 = Some e2 → connections e2 = connections e1.
Proof.
  intros HK H.
  pose proof (skeleton_ids _ _ (processGraph_skeleton K HK _ _ _ H)) as Hids.
  unfold processGraph in H.
  destruct (processGraph_pass K fuel e) as [p|] eqn:Hp; [|done].
  injection H as <-. simpl in *. split; [|split].
  - intros c. unfold prune. rewrite list_elem_of_filter. tauto.
  - intros c [Hv _]%list_elem_of_filter. by eapply valid_ids.
  - intros fuel' e2 H2. unfold processGraph in H2.
    destruct (processGraph_pass K fuel' _) as [p2|]; [|done].
    injection H2 as <-. simpl. by apply prune_idem.
Qed.

(** ** The depth allowed *)

Lemma forEach_mono {A} (body body' : A → Pass → option Pass) xs p p' :
  (∀ x q q', body x q = Some q' → body' x q = Some q') →
  forEach body xs p = Some p' → forEach body' xs p = Some p'.
Proof.
  intros Hb. revert p. induction xs as [|x xs IH]; intros p; simpl; [done|].
  destruct (body x p) as [q|] eqn:Hq; [|done].
  rewrite (Hb _ _ _ Hq). apply IH.
Qed.

Lemma dependency_mono (rec rec' : nat → Pass → option Pass) i c p p' :
  (∀ j q q', rec j q = Some q' → rec' j q = Some q') →
  dependency rec i c p = Some p' → dependency rec' i c p = Some p'.
Proof.
  intros Hr. unfold dependency.
  destruct (p_nodes p !! i); [|done]. case_decide; [|done].
  destruct (findNodeById _ _) as [j|]; [|done].
  destruct (rec j p) as [p1|] eqn:H1; [|done].
  by rewrite (Hr _ _ _ H1).
Qed.

Lemma processNode_mono K conns d d' i p p' :
  d ≤ d' → processNode K d conns i p = Some p' →
  processNode K d' conns i p = Some p'.
Proof.
  revert d' i p p'. induction d as [|d IH]; intros d' i p p' Hle; [done|].
  destruct d' as [|d']; [lia|]. simpl.
  case_decide; [done|].
  destruct (forEach (dependency (processNode K d conns) i) conns p) as [q|] eqn:Hq;
    [|done].
  intros [= <-].
  erewrite forEach_mono; [done| |exact Hq].
  intros c q0 q1. apply dependency_mono. intros j q2 q3. apply IH. lia.
Qed.

Lemma processGraph_mono K d d' e e' :
  d ≤ d' → processGraph K d e = Some e' → processGraph K d' e = Some e'.
Proof.
  intros Hle. unfold processGraph, processGraph_pass.
  destruct (forEach (processNode K d _) _ _) as [p|] eqn:Hp; [|done].
  intros [= <-].
  erewrite forEach_mono; [done| |exact Hp].
  intros i q q'. by apply processNode_mono.
Qed.



(** ** What one call evaluates *)

(** X10 (evaluation on demand): called at the start of a pass for the
    node at position [i], [processNode] calls [process()] for [i] and
    for the nodes that [i] depends on through chains of connections,
    and for no other node. *)
Theorem processNode_cone (K : NodeClasses) (fuel : nat) (e : NodeEditor)
    (i : nat) (p : Pass) :
  process_keeps_ids K →
  i < length (nodes e) →
  processNode K fuel (prune (nodes e) (connections e)) i (start_pass e) = Some p →
  ∀ x, x ∈ p_processed p ↔ rtc (upstream (nodes e) (connections e)) i x.
Proof.
  intros HK Hi H.
  destruct (processNode_exec _ _ _ _ _ _ H) as [[Hin _]|[_ Hex]];
    [by apply elem_of_empty in Hin|].
  intros x. split.
  - intros Hx.
    destruct (exec_reach K _ HK (nodes e) _ _ _ _ Hex (start_stable e)
                ltac:(done) x Hx) as [Hx0|[->|Htc]].
    + by apply elem_of_empty in Hx0.
    + done.
    + apply tc_rtc. eapply tc_subrel; [|exact Htc].
      intros a b. apply upstream_prune.
  - destruct (exec_trace K _ HK (nodes e) _ _ _ _ Hex (start_stable e)
                ltac:(done) Hi) as (t & Ht & Hlog & Hpre & Hlast).
    { intros y. simpl. split; [set_solver|by intros ?%elem_of_nil]. }
    { intros k y z Hk. simpl in Hk. by rewrite lookup_nil in Hk. }
    assert (preceded (prune (nodes e) (connections e)) (nodes e) (p_trace p)) as Hp.
    { rewrite Ht, app_assoc. by apply preceded_snoc. }
    revert x. apply rtc_ind_r.
    + apply Hlog. rewrite Ht, !elem_of_app.
      right. right. by apply list_elem_of_singleton.
    + intros y z _ Hyz IH.
      apply Hlog in IH. apply list_elem_of_lookup_1 in IH as [k Hk].
      apply upstream_prune in Hyz.
      destruct (Hp _ _ _ Hk Hyz) as (k' & _ & Hk').
      apply Hlog. by eapply list_elem_of_lookup_2.
Qed.

(* ================================================================== *)
(** * Proofs: several connections into one pin *)
(* ================================================================== *)

Lemma final_app_r a1 a2 k b : final a2 k = Some b → final (a1 ++ a2) k = Some b.
Proof.
  intros H. induction a1 as [|[k0 b0] a1 IH]; simpl; [done|]. by rewrite IH.
Qed.

Lemma final_last a1 a2 k b :
  (∀ b', (k, b') ∉ a2) → final (a1 ++ (k, b) :: a2) k = Some b.
Proof.
  intros Hno. apply final_app_r. simpl.
  destruct (final a2 k) as [b'|] eqn:Hf.
  - apply final_elem in Hf. by destruct (Hno b').
  - by rewrite decide_True.
Qed.

(** X11 (the last connection wins): when several connections resolve to
    the same input pin, the pin ends the pass with the pixels of the
    output pin of the last of them in the order of the connection list,
    provided that this output pin is not empty; [process()] is taken to
    be a function of the input pixels. *)
Theorem fan_in_last_wins (K : NodeClasses) (e : NodeEditor) (fuel : nat)
    (p : Pass) (l1 l2 : list Connection) (conn : Connection) (i j : nat)
    (node outNode : BaseNode) (ii oi : nat) (src dst : Pin) :
  process_is_function K → editor_allocated e → acyclic e →
  processGraph_pass K fuel e = Some p →
  connections e = l1 ++ conn :: l2 →
  edge (nodes e) i conn = Some j →
  p_nodes p !! i = Some node → p_nodes p !! j = Some outNode →
  findPinIndex (inputs node) (inputPin conn) = Some ii →
  findPinIndex (outputs outNode) (outputPin conn) = Some oi →
  outputs outNode !! oi = Some src →
  Mat_empty (pin_data src) = false →
  inputs node !! ii = Some dst →
  (∀ conn', conn' ∈ l2 →
            ¬ (inputNode conn' = node_id node ∧
               findPinIndex (inputs node) (inputPin conn') = Some ii)) →
  pin_pixels (p_store p) dst = pin_pixels (p_store p) src.
Proof.
  intros HF Halloc Hacyc Hp Hcs He Hn Hm Hii Hoi Hsrc Hne Hdst Hlater.
  destruct (pass_char K HF e Halloc Hacyc fuel p Hp) as [(Ha & Hs & _) Hch].
  pose proof (shapes_skeleton _ _ Hs) as Hsk.
  assert (i < length (nodes e)) as Hi by (by apply edge_lt in He as [? _]).
  destruct (Hch i Hi) as [Hins _].
  assert (isConnectionValid (nodes e) conn) as Hvalid.
  { destruct (edge_Some _ _ _ _ He) as (n0 & Hn0 & Hid & Hf).
    split; [|by rewrite Hf].
    destruct (findNodeById (nodes e) (inputNode conn)) eqn:E; [done|].
    rewrite findNodeById_None in E. exfalso. eapply E; [|by symmetry].
    by eapply list_elem_of_lookup_2. }
  destruct (pin_data src) as [l|] eqn:Hd; [|done].
  destruct (Ha _ _ Hm) as [_ Hout].
  pose proof (Forall_lookup_1 _ _ _ _ Hout Hsrc l Hd) as Hl.
  apply lookup_lt_is_Some in Hl as [b Hb].
  assert (pin_pixels (p_store p) src = Some b) as Hpx.
  { unfold pin_pixels. by rewrite Hd. }
  assert (∀ c, handed (nodes e) (outs p) i c = handed (p_nodes p) (outs p) i c) as Hh.
  { intros c. by apply handed_ext. }
  assert (handed (nodes e) (outs p) i conn = Some (ii, b)) as Hconn.
  { rewrite Hh. unfold handed.
    rewrite (edge_skeleton _ (nodes e)), He by done. simpl.
    rewrite Hm, Hn. simpl. rewrite Hoi, Hii. simpl.
    unfold outs. rewrite Hm, list_lookup_fmap, Hsrc. simpl. by rewrite Hpx. }
  rewrite replay_assign in Hins.
  assert (ins p i !! ii = Some (Some b)) as Hlook.
  { rewrite Hins, assign_lookup. unfold prune.
    rewrite Hcs, filter_app, filter_cons_True, omap_app by done.
    simpl. rewrite Hconn, final_last.
    - rewrite decide_True; [done|].
      unfold ins. simpl.
      destruct (skeleton_lookup _ _ _ _ Hsk Hn) as (n0 & -> & [= _ Hin0 _]).
      rewrite length_fmap, <- (length_fmap pin_id), Hin0, length_fmap.
      by eapply lookup_lt_Some.
    - intros b' (c' & Hc1 & Hc2)%list_elem_of_omap.
      apply list_elem_of_filter in Hc1 as [_ Hc1].
      rewrite Hh in Hc2.
      apply handed_Some in Hc2 as (j' & n' & He' & Hn' & Hii').
      assert (n' = node) as -> by congruence.
      apply (Hlater c' Hc1). split; [|done].
      by apply edge_Some in He' as (n'' & Hn'' & Hid & _); congruence. }
  unfold ins in Hlook. rewrite Hn, list_lookup_fmap, Hdst in Hlook.
  injection Hlook as Hlook. congruence.
Qed.

(* ================================================================== *)
(** * Proofs: removing a node *)
(* ================================================================== *)

Lemma filter_all {A} (P : A → Prop) `{∀ x, Decision (P x)} (l : list A) :
  (∀ x, x ∈ l → P x) → filter P l = l.
Proof.
  induction l as [|a l IH]; intros Hall; [done|].
  rewrite filter_cons_True by (apply Hall; by left).
  f_equal. apply IH. intros x Hx. apply Hall. by right.
Qed.

Lemma delete_no_id (ns : list BaseNode) i n :
  NoDup (node_id <$> ns) → ns !! i = Some n →
  ∀ m, m ∈ delete i ns → node_id m ≠ node_id n.
Proof.
  intros Hnd Hi m Hm Hid.
  rewrite <- (take_drop_middle ns i n Hi), fmap_app, fmap_cons in Hnd.
  apply NoDup_app in Hnd as (_ & Hdis & Hnd).
  apply NoDup_cons in Hnd as [Hnot _].
  rewrite delete_take_drop in Hm. apply elem_of_app in Hm as [Hm|Hm].
  - apply (Hdis (node_id m)); [by apply list_elem_of_fmap_2|].
    rewrite Hid. by left.
  - apply Hnot. rewrite <- Hid. by apply list_elem_of_fmap_2.
Qed.

Lemma isConnectionValid_nodes ns c :
  isConnectionValid ns c ↔
  (∃ n, n ∈ ns ∧ node_id n = inputNode c) ∧ (∃ m, m ∈ ns ∧ node_id m = outputNode c).
Proof.
  assert (∀ x, is_Some (findNodeById ns x) ↔ ∃ n, n ∈ ns ∧ node_id n = x) as E.
  { intros x. split.
    - intros [i (n & Hn & Hid & _)%findNodeById_Some].
      exists n. split; [by eapply list_elem_of_lookup_2|done].
    - intros (n & Hn & Hid).
      destruct (findNodeById ns x) eqn:F; [done|].
      rewrite findNodeById_None in F. by destruct (F n Hn). }
  unfold isConnectionValid. by rewrite !E.
Qed.

Lemma connection_ok_valid ns c : connection_ok ns c → isConnectionValid ns c.
Proof.
  intros (n & m & Hn & Hid & _ & Hm & Hid' & _).
  apply isConnectionValid_nodes. split; eauto.
Qed.

(** X12 (removing a node): in a graph with distinct ids and valid
    connections, the removal of the node with id [x] leaves the other
    nodes in their order with their ids, names and flags; no node has
    id [x] afterwards; the connections that remain are exactly those
    that did not name [x], and they are valid; the counter stays; and an
    input pin to which no remaining connection resolves keeps its buffer
    header, so that a pin that the removed node used to feed is left as
    it was. *)
Theorem removeNode_heals (K : NodeClasses) (fuel : nat) (x : Z) (i : nat)
    (e e' : NodeEditor) :
  process_writes_outputs K → graph_ok e →
  findNodeById (nodes e) x = Some i →
  removeNode K fuel x e = Some e' →
  label <$> nodes e' = label <$> delete i (nodes e) ∧
  (∀ n, n ∈ nodes e' → node_id n ≠ x) ∧
  connections e'
  = filter (λ c, ¬ (inputNode c = x ∨ outputNode c = x)) (connections e) ∧
  (∀ c, c ∈ connections e' → connection_ok (nodes e') c) ∧
  currentId e' = currentId e ∧
  (∀ y n n' k, delete i (nodes e) !! y = Some n → nodes e' !! y = Some n' →
               untargeted (connections e') n k →
               inputs n' !! k = inputs n !! k).
Proof.
  intros HW Hok Hi H.
  pose proof (process_writes_keeps_ids K HW) as HK.
  pose proof (removeNode_ok K HK _ _ _ _ H Hok) as [_ Hok'].
  destruct Hok as [[Hnd _] Hc].
  apply NoDup_node_ids in Hnd.
  apply findNodeById_Some in Hi as Hi'. destruct Hi' as (r & Hr & Hrx & _).
  unfold removeNode in H. rewrite Hi in H. unfold processGraph in H.
  destruct (processGraph_pass K fuel _) as [p|] eqn:Hp; [|done].
  injection H as <-. simpl in *.
  destruct (pass_keeps_inputs K _ HW _ _ _ eq_refl Hp) as [Hl Hin].
  unfold same_labels in Hl. simpl in *.
  assert (∀ m, m ∈ delete i (nodes e) → node_id m ≠ x) as Hnox.
  { intros m Hm. rewrite <- Hrx. by eapply delete_no_id. }
  split; [done|]. split; [|split; [|split; [done|split; [done|]]]].
  - intros n Hn.
    apply list_elem_of_lookup_1 in Hn as [y Hy].
    assert ((label <$> delete i (nodes e)) !! y = Some (label n)) as Hy'.
    { by rewrite <- Hl, list_lookup_fmap, Hy. }
    rewrite list_lookup_fmap in Hy'. apply fmap_Some in Hy' as (m & Hm & Hlab).
    assert (node_id n = node_id m) as -> by (by injection Hlab).
    apply Hnox. by eapply list_elem_of_lookup_2.
  - unfold prune. apply filter_all.
    intros c [Hcx Hcin]%list_elem_of_filter.
    destruct (Hc c Hcin) as (n & m & Hn & Hidn & _ & Hm & Hidm & _).
    apply isConnectionValid_nodes. split.
    + exists n. split; [|done]. apply elem_of_delete_ne; [done|].
      rewrite Hr. intros [= ->]. apply Hcx. left. congruence.
    + exists m. split; [|done]. apply elem_of_delete_ne; [done|].
      rewrite Hr. intros [= ->]. apply Hcx. right. congruence.
  - intros y n n' k Hn Hn'. by apply (Hin y).
Qed.

(** X13 (removing a node that is not there): when no node has id [x],
    the removal leaves the nodes and the buffers alone and runs no pass;
    it still erases the connections that name [x], so that the editor is
    unchanged when every connection is valid. *)
Theorem removeNode_absent (K : NodeClasses) (fuel : nat) (x : Z) (e : NodeEditor) :
  findNodeById (nodes e) x = None →
  removeNode K fuel x e
  = Some (set_connections
            (filter (λ c, ¬ (inputNode c = x ∨ outputNode c = x)) (connections e))
            e) ∧
  ((∀ c, c ∈ connections e → isConnectionValid (nodes e) c) →
   removeNode K fuel x e = Some e).
Proof.
  intros Hx. unfold removeNode. rewrite Hx. split; [done|].
  intros Hvalid. rewrite filter_all; [by destruct e|].
  intros c Hc. rewrite findNodeById_None in Hx.
  destruct (proj1 (isConnectionValid_nodes _ _) (Hvalid c Hc))
    as [(n & Hn & Hidn) (m & Hm & Hidm)].
  intros [Hin|Hout].
  - apply (Hx n Hn). congruence.
  - apply (Hx m Hm). congruence.
Qed.

(* ================================================================== *)
(** * Proofs: links made and unmade *)
(* ================================================================== *)

(** X14 (a link made and deleted): deleting the connection that
    [handleConnections] has just appended, by its index, gives back the
    connection list of before, less the connections that the pass
    prunes. *)
Theorem connect_then_disconnect (K : NodeClasses) (fuel : nat)
    (startPin endPin : Z) (e e' : NodeEditor) (i j : nat)
    (inNode outNode : BaseNode) :
  NoDup (all_ids (nodes e)) →
  nodes e !! i = Some inNode → has_pin endPin (inputs inNode) →
  nodes e !! j = Some outNode → has_pin startPin (outputs outNode) →
  deleteConnection K fuel (Z.of_nat (length (connections e)))
                   (handleConnections startPin endPin e) = Some e' →
  connections e' = prune (nodes e) (connections e) ∧
  ((∀ c, c ∈ connections e → isConnectionValid (nodes e) c) →
   connections e' = connections e).
Proof.
  intros Hnd Hi Hpi Hj Hpj H.
  assert (connections e' = prune (nodes e) (connections e)) as Hc.
  { revert H. rewrite (handleConnections_taken _ _ _ _ _ _ _ Hnd Hi Hpi Hj Hpj).
    unfold deleteConnection. simpl. rewrite length_app. simpl.
    rewrite decide_False by lia. rewrite Nat2Z.id.
    rewrite lookup_app_r, Nat.sub_diag by lia. simpl.
    unfold processGraph. intros H.
    destruct (processGraph_pass K fuel _) as [p|]; [|done].
    injection H as <-. simpl.
    rewrite delete_take_drop, take_app_length, drop_ge
      by (rewrite length_app; simpl; lia).
    rewrite app_nil_r. apply prune_ids, skeleton_ids.
    etrans; [apply (unlink_skeleton 0 _ (mkEditor _ [] 0 None []))|]. simpl.
    by rewrite !skeleton_dirty. }
  split; [done|]. intros Hvalid. rewrite Hc. by apply filter_all.
Qed.

(** ** Links and cycles *)

(** A cycle through a relation with one more pair either avoids the
    pair or gives a path back from its end to its start. *)
Lemma tc_one_more {A} (R : relation A) (i j x y : A) :
  tc (λ a b, R a b ∨ (a = i ∧ b = j)) x y →
  tc R x y ∨ (rtc R x i ∧ rtc R j y).
Proof.
  induction 1 as [x y [Hxy|[-> ->]]|x y z [Hxy|[-> ->]] _ IH].
  - left. by apply tc_once.
  - right. done.
  - destruct IH as [IH|[IH1 IH2]].
    + left. by eapply tc_l.
    + right. split; [|done]. by eapply rtc_l.
  - destruct IH as [IH|[IH1 IH2]].
    + right. split; [done|]. by apply tc_rtc.
    + right. done.
Qed.

Section Link.
Variables (startPin endPin : Z) (e : NodeEditor) (i j : nat).
Variables (inNode outNode : BaseNode).
Hypothesis Hnd : NoDup (all_ids (nodes e)).
Hypothesis Hi : nodes e !! i = Some inNode.
Hypothesis Hpi : has_pin endPin (inputs inNode).
Hypothesis Hj : nodes e !! j = Some outNode.
Hypothesis Hpj : has_pin startPin (outputs outNode).

Local Abbreviation e' := (handleConnections startPin endPin e).
Local Abbreviation conn :=
  (mkConnection (node_id inNode) (node_id outNode) endPin startPin).

Lemma link_connections : connections e' = connections e ++ [conn].
Proof. by rewrite (handleConnections_taken _ _ _ _ _ _ _ Hnd Hi Hpi Hj Hpj). Qed.

Lemma link_skeleton : skeleton (nodes e') = skeleton (nodes e).
Proof. by destruct (handleConnections_edge _ _ _ _ _ _ _ Hnd Hi Hpi Hj Hpj). Qed.

(** The dependencies after the link are those of before and the one from
    the owner of the input pin to the owner of the output pin. *)
Lemma link_upstream x y :
  upstream (nodes e') (connections e') x y ↔
  upstream (nodes e) (connections e) x y ∨ (x = i ∧ y = j).
Proof.
  destruct (handleConnections_edge _ _ _ _ _ _ _ Hnd Hi Hpi Hj Hpj) as [Hsk He].
  rewrite !upstream_edge, link_connections. split.
  - intros (c & [Hc|Hc]%elem_of_app & Hedge).
    + left. exists c. split; [done|]. by rewrite <- (edge_skeleton _ _ _ _ Hsk).
    + right. apply list_elem_of_singleton in Hc as ->.
      rewrite (edge_skeleton _ _ _ _ Hsk) in Hedge.
      rewrite (edge_skeleton _ _ _ _ Hsk) in He.
      destruct (edge_Some _ _ _ _ Hedge) as (n & Hn & Hid & Hf). simpl in *.
      assert (x = i) as ->.
      { eapply (ids_owner (nodes e) x i n inNode (node_id inNode)); [done..| |].
        - rewrite Hid. by left.
        - by left. }
      split; [done|]. congruence.
  - intros [(c & Hc & Hedge)|[-> ->]].
    + exists c. split; [apply elem_of_app; by left|].
      by rewrite (edge_skeleton _ _ _ _ Hsk).
    + exists conn. split; [|done]. apply elem_of_app. right. by left.
Qed.

Lemma link_cyclic :
  rtc (upstream (nodes e) (connections e)) j i → ¬ acyclic e'.
Proof.
  intros Hji Hac. apply (Hac i). eapply tc_rtc_r.
  - apply tc_once, link_upstream. by right.
  - eapply rtc_subrel; [|exact Hji]. intros a b Hab. apply link_upstream. by left.
Qed.

Lemma link_acyclic :
  acyclic e → ¬ rtc (upstream (nodes e) (connections e)) j i → acyclic e'.
Proof.
  intros Hac Hji x Hx.
  assert (tc (λ a b, upstream (nodes e) (connections e) a b ∨ (a = i ∧ b = j)) x x)
    as Hx'.
  { eapply tc_subrel; [|exact Hx]. intros a b. apply link_upstream. }
  apply tc_one_more in Hx' as [Hx'|[H1 H2]].
  - by apply (Hac x).
  - apply Hji. by etrans.
Qed.

End Link.

(** X15 (links and cycles): with distinct ids, a link that
    [handleConnections] takes keeps a graph free of cycles exactly when
    the owner of its output pin does not depend on the owner of its
    input pin, through connections or by being the same node.  When it
    does, the link is taken all the same and no pass returns afterwards,
    whatever the depth allowed; when it does not, the next pass
    returns. *)
Theorem handleConnections_cycle (K : NodeClasses)
    (startPin endPin : Z) (e : NodeEditor) (i j : nat)
    (inNode outNode : BaseNode) :
  process_keeps_ids K →
  NoDup (all_ids (nodes e)) →
  nodes e !! i = Some inNode → has_pin endPin (inputs inNode) →
  nodes e !! j = Some outNode → has_pin startPin (outputs outNode) →
  (rtc (upstream (nodes e) (connections e)) j i →
   connections (handleConnections startPin endPin e)
   = connections e
     ++ [mkConnection (node_id inNode) (node_id outNode) endPin startPin] ∧
   ¬ acyclic (handleConnections startPin endPin e) ∧
   ∀ fuel, processGraph K fuel (handleConnections startPin endPin e) = None) ∧
  (acyclic e → ¬ rtc (upstream (nodes e) (connections e)) j i →
   acyclic (handleConnections startPin endPin e) ∧
   is_Some (processGraph K (length (nodes e)) (handleConnections startPin endPin e))).
Proof.
  intros HK Hnd Hi Hpi Hj Hpj. split.
  - intros Hji.
    split; [exact (link_connections _ _ _ _ _ _ _ Hnd Hi Hpi Hj Hpj)|].
    assert (¬ acyclic (handleConnections startPin endPin e)) as Hcyc
      by exact (link_cyclic _ _ _ _ _ _ _ Hnd Hi Hpi Hj Hpj Hji).
    split; [done|]. intros fuel. unfold processGraph.
    destruct (processGraph_pass K fuel _) as [p|] eqn:Hp; [|done].
    destruct Hcyc. by eapply (pass_acyclic K HK).
  - intros Hac Hji.
    assert (acyclic (handleConnections startPin endPin e)) as Hac'
      by exact (link_acyclic _ _ _ _ _ _ _ Hnd Hi Hpi Hj Hpj Hac Hji).
    split; [done|].
    destruct (pass_terminates K HK (handleConnections startPin endPin e)
                (length (nodes e))) as [p Hp].
    + intros l Hl.
      rewrite <- (skeleton_length _ _ (link_skeleton _ _ _ _ _ _ _ Hnd Hi Hpi Hj Hpj)).
      by eapply chain_short.
    + unfold processGraph. rewrite Hp. by eexists.
Qed.

(* ================================================================== *)
(** * Proofs: what a deletion leaves alone *)
(* ================================================================== *)

Lemma unlink_node k conn e x n :
  nodes e !! x = Some n →
  ∃ n1, nodes (unlink k conn e) !! x = Some n1 ∧
        node_id n1 = node_id n ∧ node_name n1 = node_name n ∧
        (inputs n1 = inputs n ∨
         inputs n1 = clearInputPin (inputPin conn) <$> inputs n) ∧
        (outputs n1 = outputs n ∨
         outputs n1 = clearOutputPin (outputPin conn) <$> outputs n).
Proof.
  intros Hn. simpl.
  assert (∃ n0, clearInputs conn (nodes e) !! x = Some n0 ∧
                node_id n0 = node_id n ∧ node_name n0 = node_name n ∧
                (inputs n0 = inputs n ∨
                 inputs n0 = clearInputPin (inputPin conn) <$> inputs n) ∧
                outputs n0 = outputs n) as (n0 & Hn0 & Hid & Hname & Hin & Hout).
  { unfold clearInputs. destruct (findNodeById _ _) as [i|]; [|by eauto 10].
    destruct (decide (i = x)) as [->|Hne].
    - rewrite list_lookup_alter_eq, Hn. simpl. eexists. split; [done|].
      simpl. by eauto.
    - rewrite list_lookup_alter_ne by done. by eauto 10. }
  rewrite <- Hout.
  unfold clearOutputs. destruct (findNodeById _ _) as [j|]; [|by eauto 10].
  destruct (decide (j = x)) as [->|Hne].
  - rewrite list_lookup_alter_eq, Hn0. simpl. eexists. split; [done|].
    simpl. by eauto.
  - rewrite list_lookup_alter_ne by done. by eauto 10.
Qed.

Lemma clearInputPin_label x pin :
  pin_id (clearInputPin x pin) = pin_id pin ∧
  pin_name (clearInputPin x pin) = pin_name pin ∧
  (pin_id pin ≠ x → clearInputPin x pin = pin) ∧
  (pin_connected pin = false → pin_connected (clearInputPin x pin) = false).
Proof. unfold clearInputPin. by case_decide. Qed.

Lemma clearOutputPin_label x pin :
  pin_id (clearOutputPin x pin) = pin_id pin ∧
  pin_name (clearOutputPin x pin) = pin_name pin ∧
  (pin_id pin ≠ x → clearOutputPin x pin = pin) ∧
  (pin_connected pin = false → pin_connected (clearOutputPin x pin) = false).
Proof. unfold clearOutputPin. by case_decide. Qed.

Lemma cleared_pin (f : Pin → Pin) (x : Z) (pins pins1 pins' : list Pin) k pin pin' :
  (∀ q, pin_id (f q) = pin_id q ∧ pin_name (f q) = pin_name q ∧
        (pin_id q ≠ x → f q = q) ∧
        (pin_connected q = false → pin_connected (f q) = false)) →
  pins1 = pins ∨ pins1 = f <$> pins →
  pin_label <$> pins' = pin_label <$> pins1 →
  pins !! k = Some pin → pins' !! k = Some pin' →
  pin_id pin' = pin_id pin ∧ pin_name pin' = pin_name pin ∧
  (pin_id pin ≠ x → pin_connected pin' = pin_connected pin) ∧
  (pin_connected pin = false → pin_connected pin' = false).
Proof.
  intros Hf H1 Hl Hk Hk'.
  destruct (pin_label_lookup _ _ _ _ Hl Hk') as (pin1 & Hk1 & Hlab).
  injection Hlab as Hid Hname Hflag. rewrite Hid, Hname, Hflag.
  destruct H1 as [->| ->].
  - assert (pin1 = pin) as -> by congruence. done.
  - rewrite list_lookup_fmap, Hk in Hk1. injection Hk1 as <-.
    destruct (Hf pin) as (? & ? & Hsame & ?).
    split; [done|]. split; [done|]. split; [|done].
    intros Hne. by rewrite Hsame.
Qed.

(** X16 (what a deletion of a connection leaves alone): the deletion
    removes no node, keeps the counter and the selection, and keeps the
    id and the name of every node and of every pin; the connected flag
    of a pin changes only if the pin has the id of one of the two pins
    of the connection, and no flag is ever set; [process()] is taken to
    write only output buffers and its own members. *)
Theorem deleteConnection_frame (K : NodeClasses) (fuel : nat) (idx : Z)
    (e e' : NodeEditor) (conn : Connection) :
  process_writes_outputs K →
  (0 <= idx)%Z → connections e !! Z.to_nat idx = Some conn →
  deleteConnection K fuel idx e = Some e' →
  length (nodes e') = length (nodes e) ∧
  currentId e' = currentId e ∧
  selectedNode e' = selectedNode e ∧
  ∀ x n n', nodes e !! x = Some n → nodes e' !! x = Some n' →
    node_id n' = node_id n ∧ node_name n' = node_name n ∧
    (∀ k pin pin', inputs n !! k = Some pin → inputs n' !! k = Some pin' →
       pin_id pin' = pin_id pin ∧ pin_name pin' = pin_name pin ∧
       (pin_id pin ≠ inputPin conn → pin_connected pin' = pin_connected pin) ∧
       (pin_connected pin = false → pin_connected pin' = false)) ∧
    (∀ k pin pin', outputs n !! k = Some pin → outputs n' !! k = Some pin' →
       pin_id pin' = pin_id pin ∧ pin_name pin' = pin_name pin ∧
       (pin_id pin ≠ outputPin conn → pin_connected pin' = pin_connected pin) ∧
       (pin_connected pin = false → pin_connected pin' = false)).
Proof.
  intros HW Hidx Hconn H. unfold deleteConnection in H.
  rewrite decide_False in H by (apply lookup_lt_Some in Hconn; lia).
  rewrite Hconn in H. unfold processGraph in H.
  destruct (processGraph_pass K fuel _) as [p|] eqn:Hp; [|done].
  injection H as <-. simpl.
  pose proof (pass_labels K HW _ _ _ Hp) as Hl.
  split; [|split; [done|split; [done|]]].
  - rewrite <- (length_fmap label), Hl, length_fmap.
    apply skeleton_length, unlink_skeleton.
  - intros x n n' Hn Hn'.
    destruct (unlink_node (Z.to_nat idx) conn e x n Hn)
      as (n1 & Hn1 & Hid & Hname & Hin & Hout).
    assert ((label <$> p_nodes p) !! x = Some (label n1)) as Hx.
    { by rewrite Hl, list_lookup_fmap, Hn1. }
    rewrite list_lookup_fmap, Hn' in Hx. injection Hx as Hid' Hname' Hin' Hout'.
    split; [congruence|]. split; [congruence|]. split.
    + intros k pin pin'.
      by apply (cleared_pin _ _ _ _ _ _ _ _ (clearInputPin_label _) Hin Hin').
    + intros k pin pin'.
      by apply (cleared_pin _ _ _ _ _ _ _ _ (clearOutputPin_label _) Hout Hout').
Qed.

(* ================================================================== *)
(** * Proofs: the events of a frame *)
(* ================================================================== *)

Lemma run_ops_app K fuel ops1 ops2 e :
  run_ops K fuel (ops1 ++ ops2) e
  = match run_ops K fuel ops1 e with
    | Some e1 => run_ops K fuel ops2 e1
    | None => None
    end.
Proof.
  revert e. induction ops1 as [|op ops1 IH]; intros e; simpl; [done|].
  by destruct (apply_op K fuel op e).
Qed.

Lemma deleteConnection_out_of_range K fuel idx e :
  ¬ (0 <= idx ∧ idx < Z.of_nat (length (connections e)))%Z →
  deleteConnection K fuel idx e = Some e.
Proof. intros H. unfold deleteConnection. rewrite decide_True; [done|lia]. Qed.

(** X17 (the events of a frame): the event handling of [draw] is the
    sequence of edits that the events ask for, a deletion of the hovered
    link, a removal of the hovered node and the creation of a link, in
    this order; the range test that [draw] makes before
    [deleteConnection] changes nothing, [deleteConnection] making it
    again.  A frame without a double click and without a new link
    leaves the editor as it is, and every frame keeps the ids distinct
    and the connections valid. *)
Theorem drawEvents_ops (K : NodeClasses) (fuel : nat) (ui : Input)
    (e : NodeEditor) :
  drawEvents K fuel ui e = run_ops K fuel (frame_ops ui) e ∧
  (doubleClicked ui = false → linkCreated ui = None →
   drawEvents K fuel ui e = Some e) ∧
  (process_keeps_ids K → graph_ok e →
   ∀ e', drawEvents K fuel ui e = Some e' → graph_ok e').
Proof.
  assert (drawEvents K fuel ui e = run_ops K fuel (frame_ops ui) e) as Heq.
  { unfold drawEvents, frame_ops. rewrite run_ops_app.
    assert (match linkHovered ui with
            | Some hoveredLinkId =>
                if doubleClicked ui then
                  if decide (0 <= hoveredLinkId ∧
                             hoveredLinkId < Z.of_nat (length (connections e)))%Z
                  then deleteConnection K fuel hoveredLinkId e
                  else Some e
                else Some e
            | None => Some e
            end
            = run_ops K fuel
                match linkHovered ui with
                | Some hoveredLinkId =>
                    if doubleClicked ui then [OpDisconnect hoveredLinkId] else []
                | None => []
                end e) as ->.
    { destruct (linkHovered ui) as [id|]; [|done].
      destruct (doubleClicked ui); [|done]. simpl.
      case_decide.
      - by destruct (deleteConnection K fuel id e).
      - by rewrite deleteConnection_out_of_range. }
    destruct (run_ops K fuel _ e) as [e1|]; [|done]. simpl.
    rewrite run_ops_app.
    assert (match nodeHovered ui with
            | Some hoveredNodeId =>
                if doubleClicked ui then removeNode K fuel hoveredNodeId e1
                else Some e1
            | None => Some e1
            end
            = run_ops K fuel
                match nodeHovered ui with
                | Some hoveredNodeId =>
                    if doubleClicked ui then [OpRemoveNode hoveredNodeId] else []
                | None => []
                end e1) as ->.
    { destruct (nodeHovered ui) as [id|]; [|done].
      destruct (doubleClicked ui); [|done]. simpl.
      by destruct (removeNode K fuel id e1). }
    destruct (run_ops K fuel _ e1) as [e2|]; [|done]. simpl.
    by destruct (linkCreated ui) as [[s t]|]. }
  split; [done|]. split.
  - intros Hd Hl. unfold drawEvents. rewrite Hd, Hl.
    by destruct (linkHovered ui), (nodeHovered ui).
  - intros HK Hok e' H. rewrite Heq in H. by eapply (run_ops_ok K HK).
Qed.

(* ================================================================== *)
(** * Proofs: the headers and the store *)
(* ================================================================== *)

Lemma assignPinIds_data c pins :
  pin_data <$> (assignPinIds c pins).1 = pin_data <$> pins ∧
  pin_name <$> (assignPinIds c pins).1 = pin_name <$> pins.
Proof.
  revert c. induction pins as [|pin pins IH]; intros c; [done|].
  cbn [assignPinIds]. specialize (IH (c + 1)%Z).
  destruct (assignPinIds (c + 1) pins) as [rest c'].
  cbn [fst] in *. destruct IH as [IH1 IH2]. by rewrite !fmap_cons, IH1, IH2.
Qed.

Lemma pins_allocated_data h h' (pins pins' : list Pin) :
  length h ≤ length h' →
  (∀ k pin', pins' !! k = Some pin' →
             pin_data pin' = None ∨
             ∃ pin, pins !! k = Some pin ∧ pin_data pin' = pin_data pin) →
  Forall (pin_allocated h) pins → Forall (pin_allocated h') pins'.
Proof.
  intros Hle Hp Hall. apply Forall_lookup. intros k pin' Hk l Hl.
  destruct (Hp k pin' Hk) as [Hnone|(pin & Hpin & Hd)]; [congruence|].
  rewrite Hd in Hl. pose proof (Forall_lookup_1 _ _ _ _ Hall Hpin l Hl). lia.
Qed.

Lemma pins_same_allocated h (pins : list Pin) :
  Forall (pin_allocated h) pins →
  ∀ f : Pin → Pin, (∀ q, pin_data (f q) = None ∨ pin_data (f q) = pin_data q) →
  Forall (pin_allocated h) (f <$> pins).
Proof.
  intros Hall f Hf. eapply pins_allocated_data; [done| |exact Hall].
  intros k pin'. rewrite list_lookup_fmap.
  intros (pin & Hpin & ->)%fmap_Some. destruct (Hf pin); eauto.
Qed.

Lemma allocated_alter h (f : BaseNode → BaseNode) (i : nat) (ns : list BaseNode) :
  (∀ n, node_allocated h n → node_allocated h (f n)) →
  (∀ n, n ∈ ns → node_allocated h n) →
  ∀ n, n ∈ alter f i ns → node_allocated h n.
Proof.
  intros Hf Hall n Hn. apply list_elem_of_lookup_1 in Hn as [x Hx].
  destruct (decide (x = i)) as [->|Hne].
  - rewrite list_lookup_alter_eq in Hx. apply fmap_Some in Hx as (n0 & Hn0 & ->).
    apply Hf, Hall. by eapply list_elem_of_lookup_2.
  - rewrite list_lookup_alter_ne in Hx by done.
    apply Hall. by eapply list_elem_of_lookup_2.
Qed.

Lemma unlink_allocated k conn e :
  editor_allocated e → editor_allocated (unlink k conn e).
Proof.
  intros H. unfold editor_allocated. simpl. unfold clearOutputs, clearInputs.
  assert (∀ n, n ∈ match findNodeById (nodes e) (inputNode conn) with
                   | Some i => alter (λ n, node_set_inputs
                                 (clearInputPin (inputPin conn) <$> inputs n) n)
                                 i (nodes e)
                   | None => nodes e
                   end → node_allocated (store e) n) as H1.
  { destruct (findNodeById (nodes e) (inputNode conn)); [|done].
    apply allocated_alter; [|done]. intros n0 [Hin Hout]. split; [|done]. simpl.
    apply pins_same_allocated; [done|]. intros q. unfold clearInputPin.
    case_decide; simpl; auto. }
  destruct (findNodeById _ (outputNode conn)); [|done].
  apply allocated_alter; [|done]. intros n0 [Hin Hout]. split; [done|]. simpl.
  apply pins_same_allocated; [done|]. intros q. unfold clearOutputPin.
  case_decide; simpl; auto.
Qed.

Section Headers.
Variable K : NodeClasses.
Hypothesis HF : process_is_function K.
Hypothesis Hnew : ∀ T node pin,
  createNode K T = Some node → pin ∈ inputs node ++ outputs node →
  pin_data pin = None.

Lemma processGraph_allocated fuel e e' :
  processGraph K fuel e = Some e' → editor_allocated e →
  editor_allocated e' ∧ store e `prefix_of` store e'.
Proof.
  unfold processGraph. intros H Ha.
  destruct (processGraph_pass K fuel e) as [p|] eqn:Hp; [|done].
  injection H as <-. unfold processGraph_pass in Hp.
  cut (pass_allocated p ∧ store e `prefix_of` p_store p).
  { intros [Hpa Hpre]. split; [|done]. intros n Hn. simpl in *.
    apply list_elem_of_lookup_1 in Hn as [x Hx]. by eapply Hpa. }
  eapply (forEach_inv (λ q, pass_allocated q ∧ store e `prefix_of` p_store q));
    [| |exact Hp].
  - intros i q q' _ [Hq Hpre] Hstep.
    destruct (processNode_sound K HF _ _ _ _ _ Hstep Hq) as (Hq' & Hpre' & _).
    split; [done|]. by etrans.
  - split; [|done]. intros x n Hx. apply Ha. by eapply list_elem_of_lookup_2.
Qed.

Lemma apply_op_allocated fuel op e e' :
  apply_op K fuel op e = Some e' → editor_allocated e → editor_allocated e'.
Proof.
  intros H Ha. destruct op as [T|x|s t|idx]; simpl in H.
  - injection H as <-. unfold addNode.
    destruct (createNode K T) as [node|] eqn:Hc; [|done].
    destruct (assignPinIds_data (currentId e + 1) (inputs node)) as [Hin _].
    destruct (assignPinIds (currentId e + 1) (inputs node)) as [ins c1].
    destruct (assignPinIds_data c1 (outputs node)) as [Hout _].
    destruct (assignPinIds c1 (outputs node)) as [outs c2]. simpl in *.
    intros n [Hn|Hn]%elem_of_app; simpl; [by apply Ha|].
    apply list_elem_of_singleton in Hn as ->.
    assert (∀ pins pins' : list Pin,
              pin_data <$> pins' = pin_data <$> pins →
              (∀ pin, pin ∈ pins → pin_data pin = None) →
              Forall (pin_allocated (store e)) pins') as Hnone.
    { intros pins pins' Heq Hall. apply Forall_forall. intros pin' Hin' l Hl.
      assert (Some l ∈ pin_data <$> pins') as Hm.
      { rewrite <- Hl. by apply list_elem_of_fmap_2. }
      rewrite Heq in Hm. apply list_elem_of_fmap in Hm as (pin & Hd & Hpin).
      rewrite (Hall pin Hpin) in Hd. done. }
    split; simpl; eapply Hnone; eauto; intros pin Hpin;
      apply (Hnew T node pin Hc); apply elem_of_app; auto.
  - unfold removeNode in H. destruct (findNodeById (nodes e) x) as [i|].
    + apply processGraph_allocated in H as [? _]; [done|].
      intros n Hn. simpl in *. apply Ha.
      eapply sublist_subseteq; [apply sublist_delete|done].
    + by injection H as <-.
  - injection H as <-. unfold handleConnections.
    destruct (findNodeByPin (nodes e) s false) as [j|]; [|done].
    destruct (findNodeByPin (nodes e) t true) as [i|]; [|done].
    destruct (nodes e !! j), (nodes e !! i); try done.
    unfold editor_allocated. simpl.
    apply allocated_alter; [done|]. by apply allocated_alter.
  - unfold deleteConnection in H. case_decide; [by injection H as <-|].
    destruct (connections e !! Z.to_nat idx) as [conn|]; [|by injection H as <-].
    apply processGraph_allocated in H as [? _]; [done|].
    by apply unlink_allocated.
Qed.

Lemma run_ops_allocated fuel ops e e' :
  run_ops K fuel ops e = Some e' → editor_allocated e → editor_allocated e'.
Proof.
  revert e. induction ops as [|op ops IH]; intros e H Ha; simpl in H.
  - by injection H as <-.
  - destruct (apply_op K fuel op e) as [e1|] eqn:Hop; [|done].
    eapply IH; [done|]. by eapply apply_op_allocated.
Qed.

End Headers.

(** X18 (no header dangles): when the constructors leave the pins empty
    and [process()] is a function of the input pixels that overwrites no
    buffer, every buffer header of the graph names a buffer of the store
    after any sequence of edits on a cleared editor, and a pass keeps it
    so and changes no buffer that existed before it. *)
Theorem headers_stay_allocated (K : NodeClasses) (fuel : nat) (ops : list Op)
    (e0 e : NodeEditor) :
  process_is_function K →
  (∀ T node pin, createNode K T = Some node →
                 pin ∈ inputs node ++ outputs node → pin_data pin = None) →
  run_ops K fuel ops (clear e0) = Some e →
  editor_allocated e ∧
  ∀ e', processGraph K fuel e = Some e' →
        editor_allocated e' ∧ store e `prefix_of` store e'.
Proof.
  intros HF Hnew H.
  assert (editor_allocated e) as Ha.
  { eapply (run_ops_allocated K HF Hnew); [done|].
    intros n Hn. by apply elem_of_nil in Hn. }
  split; [done|]. intros e' He'. by eapply (processGraph_allocated K HF).
Qed.

(* ================================================================== *)
(** * Proofs: a removal returns *)
(* ================================================================== *)

Section Removal.
Variables (ns : list BaseNode) (i : nat) (r : BaseNode).
Hypothesis Hr : ns !! i = Some r.

Local Abbreviation shift := (unshift i).

Lemma findNodeById_delete x z :
  x ≠ node_id r →
  findNodeById (delete i ns) x = Some z → findNodeById ns x = Some (shift z).
Proof.
  unfold unshift.
  intros Hx (m & Hm & Hid & Hfirst)%findNodeById_Some.
  apply findNodeById_Some. exists m.
  split; [by rewrite <- list_lookup_delete|]. split; [done|].
  intros k m' Hk Hlt Hid'.
  destruct (decide (k = i)) as [->|Hne]; [congruence|].
  destruct (decide (k < i)) as [Hki|Hki].
  - apply (Hfirst k m'); [by rewrite list_lookup_delete_lt| |done].
    case_decide; lia.
  - apply (Hfirst (pred k) m'); [| |done].
    + rewrite list_lookup_delete_ge by lia.
      by replace (S (pred k)) with k by lia.
    + case_decide; lia.
Qed.

Lemma upstream_delete conns y z :
  upstream (delete i ns)
    (filter (λ c, ¬ (inputNode c = node_id r ∨ outputNode c = node_id r)) conns)
    y z →
  upstream ns conns (shift y) (shift z).
Proof.
  rewrite !upstream_edge.
  intros (c & [Hc Hin]%list_elem_of_filter & Hedge).
  exists c. split; [done|].
  destruct (edge_Some _ _ _ _ Hedge) as (n & Hn & Hid & Hf).
  unfold edge, unshift at 1.
  rewrite <- list_lookup_delete, Hn, decide_True by done.
  apply findNodeById_delete; [|done]. intros Hx. apply Hc. by right.
Qed.

End Removal.

Lemma filter_sub {A} (P : A → Prop) `{∀ x, Decision (P x)} (l : list A) :
  filter P l ⊆ l.
Proof. intros x Hx. by apply list_elem_of_filter in Hx as [_ ?]. Qed.

Lemma acyclic_sub e e' :
  skeleton (nodes e') = skeleton (nodes e) →
  connections e' ⊆ connections e → acyclic e → acyclic e'.
Proof.
  intros Hsk Hsub Hac x Hx. apply (Hac x).
  eapply tc_subrel; [|exact Hx]. intros a b Hab.
  apply (upstream_mono _ (connections e')); [done|].
  by apply (upstream_skeleton (nodes e')).
Qed.

(** X19 (a removal returns): on a graph without cycles the removal of a
    node returns, within as many nested calls as the graph has nodes,
    whether a node has the id or not, and the graph that it leaves has
    no cycle. *)
Theorem removeNode_returns (K : NodeClasses) (x : Z) (e : NodeEditor) :
  process_keeps_ids K → acyclic e →
  ∃ e', removeNode K (length (nodes e)) x e = Some e' ∧ acyclic e'.
Proof.
  intros HK Hac. unfold removeNode.
  destruct (findNodeById (nodes e) x) as [i|] eqn:Hi.
  - apply findNodeById_Some in Hi as (r & Hr & <- & _).
    set (e1 := mkEditor (delete i (nodes e))
                 (filter (λ c, ¬ (inputNode c = node_id r ∨ outputNode c = node_id r))
                         (connections e))
                 (currentId e) (erased i (selectedNode e)) (store e)).
    assert (acyclic e1) as Hac1.
    { intros y Hy.
      apply (Hac (unshift i y)).
      eapply (tc_congruence (unshift i) _ y y); [|exact Hy].
      intros a b. by apply upstream_delete. }
    destruct (pass_terminates K HK e1 (length (nodes e1))) as [p Hp].
    { intros l Hl. by eapply chain_short. }
    assert (processGraph K (length (nodes e1)) e1 = Some (end_pass e1 p)) as H1.
    { unfold processGraph. by rewrite Hp. }
    exists (end_pass e1 p). split.
    + eapply processGraph_mono; [|exact H1]. simpl.
      rewrite length_delete by (by eexists). lia.
    + apply (acyclic_sub e1); [|apply filter_sub|done].
      by apply (processGraph_skeleton K HK _ _ _ H1).
  - eexists. split; [done|].
    apply (acyclic_sub e); [done|apply filter_sub|done].
Qed.

(* ================================================================== *)
(** * Proofs: the lookups and [addNode] *)
(* ================================================================== *)

Lemma findPinIndex_first pins x k :
  findPinIndex pins x = Some k ↔
  ∃ pin, pins !! k = Some pin ∧ pin_id pin = x ∧
         ∀ j q, pins !! j = Some q → j < k → pin_id q ≠ x.
Proof.
  unfold findPinIndex. rewrite fmap_Some. split.
  - intros ([k' pin] & H & ->). apply list_find_Some in H. naive_solver.
  - intros (pin & Hpin & Hid & Hf). exists (k, pin). split; [|done].
    apply list_find_Some. naive_solver.
Qed.

Lemma findPinIndex_None pins x :
  findPinIndex pins x = None ↔ ∀ pin, pin ∈ pins → pin_id pin ≠ x.
Proof.
  unfold findPinIndex. rewrite fmap_None, list_find_None, Forall_forall. done.
Qed.

(** X20 (the lookups): [findNodeById], [findPinIndex] and
    [findNodeByPin] return the position of the first match, which is a
    position of the list, and return nothing ([nullptr], -1) exactly
    when there is no match. *)
Theorem lookups_first_match (ns : list BaseNode) (pins : list Pin) (x : Z)
    (isInput : bool) :
  (∀ i, findNodeById ns x = Some i ↔
        ∃ n, ns !! i = Some n ∧ node_id n = x ∧
             ∀ j m, ns !! j = Some m → j < i → node_id m ≠ x) ∧
  (findNodeById ns x = None ↔ ∀ n, n ∈ ns → node_id n ≠ x) ∧
  (∀ k, findPinIndex pins x = Some k ↔
        ∃ pin, pins !! k = Some pin ∧ pin_id pin = x ∧
               ∀ j q, pins !! j = Some q → j < k → pin_id q ≠ x) ∧
  (findPinIndex pins x = None ↔ ∀ pin, pin ∈ pins → pin_id pin ≠ x) ∧
  (∀ i, findNodeByPin ns x isInput = Some i ↔
        ∃ n, ns !! i = Some n ∧
             has_pin x (if isInput then inputs n else outputs n) ∧
             ∀ j m, ns !! j = Some m → j < i →
                    ¬ has_pin x (if isInput then inputs m else outputs m)) ∧
  (findNodeByPin ns x isInput = None ↔
   ∀ n, n ∈ ns → ¬ has_pin x (if isInput then inputs n else outputs n)).
Proof.
  split; [intros i; apply findNodeById_Some|].
  split; [apply findNodeById_None|].
  split; [intros k; apply findPinIndex_first|].
  split; [apply findPinIndex_None|].
  split; [intros i; apply findNodeByPin_first|].
  apply findNodeByPin_None.
Qed.

(** X21 (what [addNode] leaves alone): [addNode] appends one node and
    touches no node that was there, no connection, not the selection and
    no buffer; the new node is the constructed node with new ids: its
    name, class, parameters and dirty flag, and the names, buffers and
    flags of its pins are those that the constructor gave. *)
Theorem addNode_frame (K : NodeClasses) (T : NodeType) (node : BaseNode)
    (e : NodeEditor) :
  createNode K T = Some node →
  ∃ n', nodes (addNode K T e) = nodes e ++ [n'] ∧
        connections (addNode K T e) = connections e ∧
        selectedNode (addNode K T e) = selectedNode e ∧
        store (addNode K T e) = store e ∧
        node_name n' = node_name node ∧ kind n' = kind node ∧
        params n' = params node ∧ dirty n' = dirty node ∧
        pin_name <$> inputs n' = pin_name <$> inputs node ∧
        pin_data <$> inputs n' = pin_data <$> inputs node ∧
        pin_connected <$> inputs n' = pin_connected <$> inputs node ∧
        pin_name <$> outputs n' = pin_name <$> outputs node ∧
        pin_data <$> outputs n' = pin_data <$> outputs node ∧
        pin_connected <$> outputs n' = pin_connected <$> outputs node.
Proof.
  intros Hc. unfold addNode. rewrite Hc.
  destruct (assignPinIds_data (currentId e + 1) (inputs node)) as [Hd1 Hn1].
  pose proof (assignPinIds_connected (currentId e + 1) (inputs node)) as Hf1.
  destruct (assignPinIds (currentId e + 1) (inputs node)) as [ins c1].
  destruct (assignPinIds_data c1 (outputs node)) as [Hd2 Hn2].
  pose proof (assignPinIds_connected c1 (outputs node)) as Hf2.
  destruct (assignPinIds c1 (outputs node)) as [outs c2].
  simpl in *. eexists. split; [done|]. simpl. by repeat split.
Qed.

(* ================================================================== *)
(** * Proofs: a second pass changes nothing that one can see *)
(* ================================================================== *)

(** X22 (a second pass changes nothing else either): under the
    hypotheses of the idempotence of the output buffers, the second of
    two passes in a row also leaves the pixels of every input pin, the
    ids, classes and parameters of the nodes, the connection list and
    the counter as the first pass left them. *)
Theorem second_pass_fixed (K : NodeClasses) (e : NodeEditor) :
  process_is_function K → editor_allocated e → acyclic e →
  ∃ e1 e2,
    processGraph K (length (nodes e)) e = Some e1 ∧
    processGraph K (length (nodes e)) e1 = Some e2 ∧
    connections e2 = connections e1 ∧
    currentId e2 = currentId e1 ∧
    shape <$> nodes e2 = shape <$> nodes e1 ∧
    ∀ x n1 n2,
      nodes e1 !! x = Some n1 → nodes e2 !! x = Some n2 →
      pin_pixels (store e2) <$> inputs n2 = pin_pixels (store e1) <$> inputs n1.
Proof.
  intros HF Halloc Hacyc.
  pose proof (function_keeps_ids K HF) as HK.
  set (d := length (nodes e)).
  assert (chains_within e d) as Hd.
  { intros l Hl. by eapply chain_short. }
  destruct (pass_terminates K HK e d Hd) as [p1 Hp1].
  set (e1 := end_pass e p1).
  set (conns := prune (nodes e) (connections e)).
  pose proof (pass_stable K HK e d p1 Hp1) as Hst1.
  assert (prune (nodes e1) (connections e1) = conns) as Hconns.
  { apply prune_idem, skeleton_ids, Hst1. }
  assert (length (nodes e1) = d) as Hlen.
  { apply (skeleton_length _ _ Hst1). }
  assert (∀ x, ¬ tc (upstream (nodes e) conns) x x) as Hacyc0
    by by apply acyclic_pruned.
  assert (∀ i j, upstream (nodes e1) (connections e1) i j →
                 upstream (nodes e) (connections e) i j) as Hup1.
  { intros i j Hup. apply (upstream_prune (nodes e)).
    by apply (upstream_skeleton _ _ _ _ _ Hst1). }
  assert (acyclic e1) as Hacyc1.
  { intros x Hx. apply (Hacyc x). by eapply tc_subrel. }
  assert (chains_within e1 d) as Hd1.
  { intros l Hl. rewrite <- Hlen. by eapply chain_short. }
  destruct (pass_terminates K HK e1 d Hd1) as [p2 Hp2].
  exists e1, (end_pass e1 p2).
  split; [by unfold processGraph; rewrite Hp1|].
  split; [by unfold processGraph; rewrite Hp2|].
  destruct (pass_char K HF e Halloc Hacyc d p1 Hp1)
    as [(Ha1 & Hs1 & _) Hc1].
  assert (editor_allocated e1) as Halloc1.
  { intros n [x Hn]%list_elem_of_lookup_1. by apply (Ha1 x). }
  destruct (pass_char K HF e1 Halloc1 Hacyc1 d p2 Hp2) as [(_ & Hs2 & _) Hc2].
  split; [exact Hconns|]. split; [done|]. split; [exact Hs2|].
  rewrite Hconns, Hlen in Hc2.
  assert (∀ dd x, x < d →
            (∀ l, chain (nodes e) conns (x :: l) → length (x :: l) ≤ dd) →
            outs p2 x = outs p1 x ∧ ins p2 x = ins p1 x) as Hsame.
  { induction dd as [|dd IH]; intros x Hx Hch.
    - specialize (Hch [] (chain_one _ _ _ (lookup_lt_is_Some_2 _ _ Hx))).
      simpl in Hch. lia.
    - assert (∀ j, upstream (nodes e) conns x j → outs p2 j = outs p1 j) as Hups.
      { intros j Hj. apply IH; [by apply upstream_valid in Hj as [_ ?]|].
        intros l Hl. specialize (Hch (j :: l)). simpl in *.
        cut (S (S (length l)) ≤ S dd); [lia|]. apply Hch. by constructor. }
      destruct (Hc1 x Hx) as [Hi1 Hr1]. destruct (Hc2 x Hx) as [Hi2 Hr2].
      assert (ins p2 x = ins p1 x) as Hins.
      { rewrite Hi2.
        change (ins (start_pass e1) x) with (ins p1 x).
        rewrite (replay_ext (nodes e1) (nodes e) (outs p2) (outs p1)).
        - rewrite Hi1. apply replay_idem.
        - exact Hst1.
        - intros c j Hc He. apply Hups, upstream_edge. exists c. split; [done|].
          by rewrite <- (edge_skeleton (nodes e1)). }
      split; [|done].
      apply lookup_lt_is_Some_2 in Hx as [n0 Hn0].
      destruct (shapes_lookup _ _ _ _ Hs1 Hn0) as (n1 & Hn1 & Hsh).
      specialize (Hr1 n0 Hn0). specialize (Hr2 n1 Hn1).
      rewrite Hsh, Hins in Hr2.
      by eapply (result_of_functional K HF). }
  intros x n1 n2 Hn1 Hn2. simpl in Hn1, Hn2.
  assert (x < d) as Hx.
  { rewrite <- Hlen. by eapply lookup_lt_Some. }
  destruct (Hsame d x Hx) as [_ Hin].
  { intros l Hl. by eapply chain_short. }
  unfold ins in Hin. by rewrite Hn1, Hn2 in Hin.
Qed.

(* ================================================================== *)
(** * The further statements on the small graphs *)
(* ================================================================== *)

Lemma unwired_fresh : ids_fresh Scenes.unwired.
Proof. apply addNodes_ids_fresh, clear_ids_fresh. Qed.

Lemma chain_ok : graph_ok Graphs.chain.
Proof.
  unfold Graphs.chain, addNodes. simpl.
  do 2 apply handleConnections_ok.
  do 3 apply (addNode_ok Demo.classes demo_keeps_ids).
  apply clear_ok.
Qed.

Lemma demo_unflagged T node :
  createNode Demo.classes T = Some node → unflagged [node].
Proof.
  intros H n pin Hn%list_elem_of_singleton Hp. subst n.
  destruct T; simpl in H; try discriminate; injection H as <-;
    apply list_elem_of_In in Hp; simpl in Hp; intuition (subst; done).
Qed.

Lemma demo_empty_pins T node pin :
  createNode Demo.classes T = Some node →
  pin ∈ inputs node ++ outputs node → pin_data pin = None.
Proof.
  intros H Hp.
  destruct T; simpl in H; try discriminate; injection H as <-;
    apply list_elem_of_In in Hp; simpl in Hp; intuition (subst; done).
Qed.

Lemma two_into_one_acyclic : acyclic Scenes.two_into_one.
Proof.
  destruct (processGraph_pass Demo.classes 3 Scenes.two_into_one) as [p|] eqn:E.
  - by eapply (pass_acyclic Demo.classes demo_keeps_ids).
  - vm_compute in E. discriminate.
Qed.

Lemma two_into_one_allocated : editor_allocated Scenes.two_into_one.
Proof.
  intros n Hn. apply list_elem_of_In in Hn. vm_compute in Hn.
  destruct Hn as [<-|[<-|[<-|[]]]]; split; repeat constructor;
    intros l Hl; discriminate.
Qed.

Lemma handleConnections_ignores_witness :
  NoDup (all_ids (nodes Scenes.unwired)) ∧
  handleConnections 3 6 Scenes.unwired = Scenes.unwired ∧
  handleConnections 1 4 Scenes.unwired = Scenes.unwired.
Proof.
  pose proof unwired_fresh as [Hnd _]. split; [exact Hnd|].
  destruct (handleConnections_ignores 3 6 Scenes.unwired) as [_ H1].
  destruct (handleConnections_ignores 1 4 Scenes.unwired) as [_ H2].
  split.
  - apply H1; [exact Hnd|].
    eexists. split; [apply list_elem_of_In; vm_compute; right; left; reflexivity|].
    left. apply Exists_exists. eexists. split; [by left|reflexivity].
  - apply H2; [exact Hnd|].
    eexists. split; [apply list_elem_of_In; vm_compute; right; left; reflexivity|].
    right. apply Exists_exists. eexists. split; [by left|reflexivity].
Defined.

Lemma handleConnections_appends_witness :
  NoDup (all_ids (nodes Scenes.unwired)) ∧
  connections (handleConnections 1 3 Scenes.unwired) = [mkConnection 2 0 3 1] ∧
  edge (nodes (handleConnections 1 3 Scenes.unwired)) 1 (mkConnection 2 0 3 1)
  = Some 0.
Proof.
  pose proof unwired_fresh as [Hnd _]. split; [exact Hnd|].
  destruct (handleConnections_appends 1 3 Scenes.unwired 1 0
              (mkNode 2 "Filter" [mkPin 3 "In" None false] [mkPin 4 "Out" None false]
                      false BrightnessContrast [])
              (mkNode 0 "Image Input" [] [mkPin 1 "Image" None false]
                      false ImageInput [7; 9]%Z))
    as (Hc & _ & _ & _ & _ & _ & He & _).
  - exact Hnd.
  - reflexivity.
  - apply Exists_exists. eexists. split; [by left|reflexivity].
  - reflexivity.
  - apply Exists_exists. eexists. split; [by left|reflexivity].
  - split; [exact Hc|exact He].
Defined.

Lemma addNode_lookup_witness :
  ids_fresh Scenes.unwired ∧
  findNodeById (nodes (addNode Demo.classes Blur Scenes.unwired)) 8 = Some 3 ∧
  findNodeByPin (nodes (addNode Demo.classes Blur Scenes.unwired)) 9 true = Some 3 ∧
  findNodeByPin (nodes (addNode Demo.classes Blur Scenes.unwired)) 9 false = None.
Proof.
  split; [exact unwired_fresh|].
  destruct (addNode_lookup Demo.classes Blur _ Scenes.unwired unwired_fresh eq_refl)
    as (Hn & Hin & _).
  split; [exact Hn|]. apply (Hin 0). simpl. lia.
Defined.

Lemma ids_never_reused_witness :
  process_keeps_ids Demo.classes ∧ ids_fresh Scenes.unwired ∧
  ∃ e', run_ops Demo.classes 3 [OpRemoveNode 2; OpAddNode Blur] Scenes.unwired
        = Some e' ∧
        (currentId Scenes.unwired ≤ currentId e')%Z ∧
        ∀ x, x ∈ all_ids (nodes e') → (x < 8)%Z →
             x ∈ all_ids (nodes Scenes.unwired).
Proof.
  split; [exact demo_keeps_ids|]. split; [exact unwired_fresh|].
  destruct (run_ops Demo.classes 3 [OpRemoveNode 2; OpAddNode Blur] Scenes.unwired)
    as [e'|] eqn:E; [|vm_compute in E; discriminate].
  exists e'. split; [reflexivity|].
  destruct (ids_never_reused Demo.classes 3 _ Scenes.unwired e'
              demo_keeps_ids unwired_fresh E) as (Hle & _ & Hold).
  split; [exact Hle|exact Hold].
Defined.

Lemma connected_never_set_witness :
  process_writes_outputs Demo.classes ∧
  ∃ e, run_ops Demo.classes 3 Graphs.chain_ops (clear Graphs.blank) = Some e ∧
       unflagged (nodes e).
Proof.
  split; [exact demo_writes_outputs|].
  destruct (run_ops Demo.classes 3 Graphs.chain_ops (clear Graphs.blank))
    as [e|] eqn:E; [|vm_compute in E; discriminate].
  exists e. split; [reflexivity|].
  exact (proj1 (connected_never_set Demo.classes 3 Graphs.chain_ops Graphs.blank e
                  demo_writes_outputs demo_unflagged E)).
Defined.

Lemma clear_starts_over_witness :
  ∃ n', nodes (addNode Demo.classes Blur (clear Graphs.chain)) = [n'] ∧
        node_id n' = 0%Z.
Proof.
  destruct (clear_starts_over Demo.classes [] Graphs.chain Graphs.blank)
    as (_ & _ & _ & _ & H).
  exact (H Blur _ eq_refl).
Defined.

Lemma pass_without_connections_witness :
  prune (nodes Scenes.unwired) (connections Scenes.unwired) = [] ∧
  ∃ p, processGraph_pass Demo.classes 1 Scenes.unwired = Some p ∧
       p_trace p = [Processed 0; Processed 1; Processed 2].
Proof.
  split; [reflexivity|].
  destruct (pass_without_connections Demo.classes 0 Scenes.unwired eq_refl)
    as (p & Hp & Ht & _).
  exists p. split; [exact Hp|exact Ht].
Defined.

Lemma pass_heals_witness :
  process_keeps_ids Demo.classes ∧
  ∃ e1, processGraph Demo.classes 3 Graphs.chain = Some e1 ∧
        ∀ c, c ∈ connections e1 → isConnectionValid (nodes e1) c.
Proof.
  split; [exact demo_keeps_ids|].
  destruct (processGraph Demo.classes 3 Graphs.chain) as [e1|] eqn:E;
    [|vm_compute in E; discriminate].
  exists e1. split; [reflexivity|].
  exact (proj1 (proj2 (pass_heals Demo.classes 3 Graphs.chain e1 demo_keeps_ids E))).
Defined.


Lemma processNode_cone_witness :
  process_keeps_ids Demo.classes ∧ 1 < length (nodes Graphs.chain) ∧
  ∃ p, processNode Demo.classes 3
         (prune (nodes Graphs.chain) (connections Graphs.chain)) 1
         (start_pass Graphs.chain) = Some p ∧
       ∀ x, x ∈ p_processed p ↔
            rtc (upstream (nodes Graphs.chain) (connections Graphs.chain)) 1 x.
Proof.
  split; [exact demo_keeps_ids|].
  assert (1 < length (nodes Graphs.chain)) as Hlt by (simpl; lia).
  split; [exact Hlt|].
  destruct (processNode Demo.classes 3
              (prune (nodes Graphs.chain) (connections Graphs.chain)) 1
              (start_pass Graphs.chain)) as [p|] eqn:E;
    [|vm_compute in E; discriminate].
  exists p. split; [reflexivity|].
  exact (processNode_cone Demo.classes 3 Graphs.chain 1 p demo_keeps_ids Hlt E).
Defined.

Lemma fan_in_last_wins_witness :
  process_is_function Demo.classes ∧ editor_allocated Scenes.two_into_one ∧
  acyclic Scenes.two_into_one ∧
  connections Scenes.two_into_one
  = [mkConnection 2 0 3 1; mkConnection 5 0 6 1] ++ mkConnection 5 2 6 4 :: [] ∧
  ∃ p node outNode src dst,
    processGraph_pass Demo.classes 3 Scenes.two_into_one = Some p ∧
    p_nodes p !! 2 = Some node ∧ p_nodes p !! 1 = Some outNode ∧
    outputs outNode !! 0 = Some src ∧ inputs node !! 0 = Some dst ∧
    pin_pixels (p_store p) src = Some [14; 18]%Z ∧
    pin_pixels (p_store p) dst = pin_pixels (p_store p) src.
Proof.
  split; [exact demo_is_function|]. split; [exact two_into_one_allocated|].
  split; [exact two_into_one_acyclic|]. split; [reflexivity|].
  eexists _, _, _, _, _.
  split; [vm_compute; reflexivity|].
  split; [reflexivity|]. split; [reflexivity|].
  split; [reflexivity|]. split; [reflexivity|]. split; [reflexivity|].
  eapply (fan_in_last_wins Demo.classes Scenes.two_into_one 3 _
            [mkConnection 2 0 3 1; mkConnection 5 0 6 1] []
            (mkConnection 5 2 6 4) 2 1 _ _ 0 0 _ _
            demo_is_function two_into_one_allocated two_into_one_acyclic).
  - vm_compute. reflexivity.
  - reflexivity.
  - reflexivity.
  - reflexivity.
  - reflexivity.
  - reflexivity.
  - reflexivity.
  - reflexivity.
  - reflexivity.
  - reflexivity.
  - intros conn' Hin. by apply elem_of_nil in Hin.
Defined.

Lemma removeNode_heals_witness :
  process_writes_outputs Demo.classes ∧ graph_ok Graphs.chain ∧
  findNodeById (nodes Graphs.chain) 0 = Some 0 ∧
  ∃ e', removeNode Demo.classes 3 0 Graphs.chain = Some e' ∧
        (∀ n, n ∈ nodes e' → node_id n ≠ 0%Z) ∧
        connections e' = [mkConnection 5 2 6 4].
Proof.
  split; [exact demo_writes_outputs|]. split; [exact chain_ok|].
  split; [reflexivity|].
  destruct (removeNode Demo.classes 3 0 Graphs.chain) as [e'|] eqn:E;
    [|vm_compute in E; discriminate].
  exists e'. split; [reflexivity|].
  destruct (removeNode_heals Demo.classes 3 0 0 Graphs.chain e'
              demo_writes_outputs chain_ok eq_refl E) as (_ & Hno & Hc & _).
  split; [exact Hno|]. rewrite Hc. reflexivity.
Defined.

Lemma removeNode_absent_witness :
  findNodeById (nodes Graphs.chain) 99 = None ∧
  removeNode Demo.classes 0 99 Graphs.chain = Some Graphs.chain.
Proof.
  split; [reflexivity|].
  destruct (removeNode_absent Demo.classes 0 99 Graphs.chain eq_refl) as [_ H].
  apply H. intros c Hc. apply connection_ok_valid. by apply chain_ok.
Defined.

Lemma connect_then_disconnect_witness :
  NoDup (all_ids (nodes Scenes.unwired)) ∧
  ∃ e', deleteConnection Demo.classes 3 0 (handleConnections 1 3 Scenes.unwired)
        = Some e' ∧
        connections e' = connections Scenes.unwired.
Proof.
  pose proof unwired_fresh as [Hnd _]. split; [exact Hnd|].
  destruct (deleteConnection Demo.classes 3 0 (handleConnections 1 3 Scenes.unwired))
    as [e'|] eqn:E; [|vm_compute in E; discriminate].
  exists e'. split; [reflexivity|].
  destruct (connect_then_disconnect Demo.classes 3 1 3 Scenes.unwired e' 1 0
              (mkNode 2 "Filter" [mkPin 3 "In" None false] [mkPin 4 "Out" None false]
                      false BrightnessContrast [])
              (mkNode 0 "Image Input" [] [mkPin 1 "Image" None false]
                      false ImageInput [7; 9]%Z))
    as [_ H].
  - exact Hnd.
  - reflexivity.
  - apply Exists_exists. eexists. split; [by left|reflexivity].
  - reflexivity.
  - apply Exists_exists. eexists. split; [by left|reflexivity].
  - exact E.
  - apply H. intros c Hc. by apply elem_of_nil in Hc.
Defined.

Lemma handleConnections_cycle_witness :
  process_keeps_ids Demo.classes ∧
  NoDup (all_ids (nodes Graphs.chain)) ∧
  rtc (upstream (nodes Graphs.chain) (connections Graphs.chain)) 2 1 ∧
  ¬ acyclic (handleConnections 7 3 Graphs.chain) ∧
  ∀ fuel, processGraph Demo.classes fuel (handleConnections 7 3 Graphs.chain) = None.
Proof.
  split; [exact demo_keeps_ids|].
  pose proof chain_ok as [[Hnd _] _]. split; [exact Hnd|].
  assert (rtc (upstream (nodes Graphs.chain) (connections Graphs.chain)) 2 1) as Hr.
  { apply rtc_once, upstream_edge. exists (mkConnection 5 2 6 4).
    split; [|reflexivity]. right. by left. }
  split; [exact Hr|].
  destruct (handleConnections_cycle Demo.classes 7 3 Graphs.chain 1 2
              (mkNode 2 "Filter" [mkPin 3 "In" None false] [mkPin 4 "Out" None false]
                      true BrightnessContrast [])
              (mkNode 5 "Filter" [mkPin 6 "In" None false] [mkPin 7 "Out" None false]
                      true Threshold [])
              demo_keeps_ids Hnd) as [H _].
  - reflexivity.
  - apply Exists_exists. eexists. split; [by left|reflexivity].
  - reflexivity.
  - apply Exists_exists. eexists. split; [by left|reflexivity].
  - destruct (H Hr) as (_ & Hcyc & Hnone). split; [exact Hcyc|exact Hnone].
Defined.

Lemma deleteConnection_frame_witness :
  process_writes_outputs Demo.classes ∧
  ∃ e', deleteConnection Demo.classes 3 0 Graphs.chain = Some e' ∧
        length (nodes e') = 3 ∧ currentId e' = 8%Z.
Proof.
  split; [exact demo_writes_outputs|].
  destruct (deleteConnection Demo.classes 3 0 Graphs.chain) as [e'|] eqn:E;
    [|vm_compute in E; discriminate].
  exists e'. split; [reflexivity|].
  destruct (deleteConnection_frame Demo.classes 3 0 Graphs.chain e'
              (mkConnection 2 0 3 1) demo_writes_outputs) as (Hl & Hc & _).
  - lia.
  - reflexivity.
  - exact E.
  - split; [exact Hl|exact Hc].
Defined.

Lemma drawEvents_ops_witness :
  process_keeps_ids Demo.classes ∧ graph_ok Graphs.chain ∧
  ∃ e', drawEvents Demo.classes 3 (mkInput (Some 0%Z) None true (Some (1, 6)%Z))
                   Graphs.chain = Some e' ∧
        graph_ok e'.
Proof.
  split; [exact demo_keeps_ids|]. split; [exact chain_ok|].
  destruct (drawEvents Demo.classes 3 (mkInput (Some 0%Z) None true (Some (1, 6)%Z))
                       Graphs.chain) as [e'|] eqn:E;
    [|vm_compute in E; discriminate].
  exists e'. split; [reflexivity|].
  destruct (drawEvents_ops Demo.classes 3
              (mkInput (Some 0%Z) None true (Some (1, 6)%Z)) Graphs.chain)
    as (_ & _ & H).
  exact (H demo_keeps_ids chain_ok e' E).
Defined.

Lemma headers_stay_allocated_witness :
  process_is_function Demo.classes ∧
  ∃ e, run_ops Demo.classes 3 Graphs.chain_ops (clear Graphs.blank) = Some e ∧
       editor_allocated e.
Proof.
  split; [exact demo_is_function|].
  destruct (run_ops Demo.classes 3 Graphs.chain_ops (clear Graphs.blank))
    as [e|] eqn:E; [|vm_compute in E; discriminate].
  exists e. split; [reflexivity|].
  exact (proj1 (headers_stay_allocated Demo.classes 3 Graphs.chain_ops Graphs.blank e
                  demo_is_function demo_empty_pins E)).
Defined.

Lemma removeNode_returns_witness :
  process_keeps_ids Demo.classes ∧ acyclic Graphs.chain ∧
  ∃ e', removeNode Demo.classes (length (nodes Graphs.chain)) 2 Graphs.chain
        = Some e' ∧ acyclic e'.
Proof.
  split; [exact demo_keeps_ids|]. split; [exact chain_acyclic|].
  exact (removeNode_returns Demo.classes 2 Graphs.chain demo_keeps_ids chain_acyclic).
Defined.

Lemma addNode_frame_witness :
  ∃ n', nodes (addNode Demo.classes Blur Scenes.unwired)
        = nodes Scenes.unwired ++ [n'] ∧
        node_name n' = "Filter" ∧ pin_data <$> inputs n' = [None].
Proof.
  destruct (addNode_frame Demo.classes Blur _ Scenes.unwired eq_refl)
    as (n' & Hn & _ & _ & _ & Hname & _ & _ & _ & _ & Hd & _).
  exists n'. split; [exact Hn|]. split; [exact Hname|exact Hd].
Defined.

Lemma second_pass_fixed_witness :
  process_is_function Demo.classes ∧ editor_allocated Graphs.chain ∧
  acyclic Graphs.chain ∧
  ∃ e1 e2,
    processGraph Demo.classes 3 Graphs.chain = Some e1 ∧
    processGraph Demo.classes 3 e1 = Some e2 ∧
    connections e2 = connections e1 ∧
    ∀ x n1 n2,
      nodes e1 !! x = Some n1 → nodes e2 !! x = Some n2 →
      pin_pixels (store e2) <$> inputs n2 = pin_pixels (store e1) <$> inputs n1.
Proof.
  split; [exact demo_is_function|]. split; [exact chain_allocated|].
  split; [exact chain_acyclic|].
  destruct (second_pass_fixed Demo.classes Graphs.chain demo_is_function
              chain_allocated chain_acyclic)
    as (e1 & e2 & H1 & H2 & Hc & _ & _ & Hin).
  exists e1, e2. split; [exact H1|]. split; [exact H2|].
  split; [exact Hc|exact Hin].
Defined.
